(** * RSASSA-PSS (monnand/rsa): a shallow embedding of pss.go and utils.go

    The development follows the two Go source files.  Bytes are
    [Byte.byte] values read through [byte.unsigned]; byte strings are lists;
    [*big.Int] values are mathematical integers ([Z]); Go's [int] lengths and
    indices are [Z] as well (slice lengths always fit a machine [int], and a
    salt length is taken to be one, so no sum of lengths overflows).
    Calls that may fail return a [result]: a value, one of the package's
    [error] values, a run-time panic (index or slice out of range, nil
    dereference, division by zero), or no return at all. *)

From Stdlib Require Import ZArith List Lia Bool Arith Znumtheory.
From Stdlib Require Import Zmod.
From coqutil Require Import Byte Datatypes.List Word.LittleEndianList.
Import ListNotations.
Local Open Scope Z_scope.

(** ** Outcomes of a call *)

Inductive error : Type :=
| ErrHashedMessage   (* errors.New("crypto/rsa: input must be hashed message") *)
| ErrEncoding        (* errors.New("crypto/rsa: encoding error") *)
| ErrVerification    (* rsa.ErrVerification *)
| ErrDecryption      (* rsa.ErrDecryption *)
| ErrRandom.         (* an error of the random source, passed on by rand.Int *)

Inductive result (A : Type) : Type :=
| Ok (a : A)
| Err (e : error)
| Panic
| Hang.

Arguments Ok {A} a.
Arguments Err {A} e.
Arguments Panic {A}.
Arguments Hang {A}.

Definition bind {A B : Type} (r : result A) (k : A -> result B) : result B :=
  match r with
  | Ok a => k a
  | Err e => Err e
  | Panic => Panic
  | Hang => Hang
  end.

Notation "x <- r ;; k" := (bind r (fun x => k))
  (at level 61, r at next level, right associativity).
Notation "' p <- r ;; k" := (bind r (fun p => k))
  (at level 61, p pattern, r at next level, right associativity).

(** ** Bytes *)

Definition bzero : byte := Byte.x00.

Definition byte_eqb (a b : byte) : bool := byte.unsigned a =? byte.unsigned b.

(** [x >> k] and [x << k] at type [byte], the shift count being a Go [uint]:
    a count of 8 or more leaves no bit. *)
Definition byte_shr (x : byte) (k : Z) : byte :=
  if k <? 8 then byte.of_Z (Z.shiftr (byte.unsigned x) k) else bzero.

Definition byte_shl (x : byte) (k : Z) : byte :=
  if k <? 8 then byte.of_Z (Z.shiftl (byte.unsigned x) k) else bzero.

(** The conversion [uint(n)] of an [int]. *)
Definition to_uint (n : Z) : Z := n mod 2 ^ 64.

Definition xor_bytes (a b : list byte) : list byte :=
  map (fun p => byte.xor (fst p) (snd p)) (combine a b).

Definition len {A : Type} (l : list A) : Z := Z.of_nat (length l).

(** ** The hash capability (hash.Hash)

    A hash instance accumulates what is written to it; [Sum] maps the bytes
    written since the last [Reset] to the digest, which has [Size] bytes,
    [Size] being positive (with an empty digest [mgf1XOR] would never fill
    its buffer).  The state of an instance is the list of bytes written so
    far. *)

Class Hash : Type := {
  Size : nat;
  Sum : list byte -> list byte;
  Sum_length : forall written, length (Sum written) = Size;
  Size_pos : (0 < Size)%nat
}.

Definition hstate : Type := list byte.
Definition hash_New : hstate := [].
Definition hash_Write (st : hstate) (p : list byte) : hstate := st ++ p.
Definition hash_Reset (st : hstate) : hstate := [].

(** ** utils.go: incCounter *)

Definition counter : Type := (byte * byte * byte * byte)%type.

Definition counter_zero : counter := (bzero, bzero, bzero, bzero).

Definition counter_bytes (c : counter) : list byte :=
  let '(c0, c1, c2, c3) := c in [c0; c1; c2; c3].

Definition byte_incr (b : byte) : byte := byte.of_Z (byte.unsigned b + 1).

Definition incCounter (c : counter) : counter :=
  let '(c0, c1, c2, c3) := c in
  let c3 := byte_incr c3 in
  if negb (byte_eqb c3 bzero) then (c0, c1, c2, c3) else
  let c2 := byte_incr c2 in
  if negb (byte_eqb c2 bzero) then (c0, c1, c2, c3) else
  let c1 := byte_incr c1 in
  if negb (byte_eqb c1 bzero) then (c0, c1, c2, c3) else
  (byte_incr c0, c1, c2, c3).

Definition counter_value (c : counter) : Z :=
  let '(c0, c1, c2, c3) := c in
  ((byte.unsigned c0 * 256 + byte.unsigned c1) * 256 + byte.unsigned c2) * 256
  + byte.unsigned c3.

(** ** utils.go: mgf1XOR *)

Section MGF1.
Context {HF : Hash}.

(** The inner loop: [for i := 0; i < len(digest) && done < len(out); i++]. *)
Fixpoint xor_digest (out : list byte) (done : nat) (digest : list byte)
  : list byte * nat :=
  match digest with
  | [] => (out, done)
  | d :: digest' =>
      if (done <? length out)%nat
      then xor_digest (List.upd out done (byte.xor (nth done out bzero) d))
                      (S done) digest'
      else (out, done)
  end.

(** The outer loop [for done < len(out)]; [fuel] bounds its iterations. *)
Fixpoint mgf1_loop (fuel : nat) (out : list byte) (st : hstate)
    (seed : list byte) (c : counter) (done : nat)
  : option (list byte * hstate) :=
  if (length out <=? done)%nat then Some (out, st) else
  match fuel with
  | O => None
  | S fuel' =>
      let st := hash_Write st seed in
      let st := hash_Write st (counter_bytes c) in
      let digest := Sum st in
      let st := hash_Reset st in
      let '(out, done) := xor_digest out done digest in
      mgf1_loop fuel' out st seed (incCounter c) done
  end.

(** Every iteration consumes at least one byte of [out], so [length out]
    iterations are enough (lemma [mgf1_loop_fuel]). *)
Definition mgf1XOR (out : list byte) (st : hstate) (seed : list byte)
  : option (list byte * hstate) :=
  mgf1_loop (length out) out st seed counter_zero 0.

(** The mask as the specification describes it: the digests of
    [seed || counter] for the successive counter values, concatenated;
    the first digest also covers what the instance held on entry. *)
Fixpoint mgf1_blocks (st : hstate) (seed : list byte) (c : counter) (k : nat)
  : list byte :=
  match k with
  | O => []
  | S k' => Sum (st ++ seed ++ counter_bytes c)
            ++ mgf1_blocks [] seed (incCounter c) k'
  end.

Definition mgf1_mask (st : hstate) (seed : list byte) (n : nat) : list byte :=
  firstn n (mgf1_blocks st seed counter_zero n).

End MGF1.

(** ** Byte buffers

    A slice made by [make] or received from a caller is a list; its capacity
    is its length.  [db] and [h] in pss.go are windows on the array of [em],
    so the model keeps the one buffer [em] and addresses it by index. *)

Definition make (n : Z) : result (list byte) :=
  if n <? 0 then Panic else Ok (repeat bzero (Z.to_nat n)).

(** [buf[i]] *)
Definition index (buf : list byte) (i : Z) : result byte :=
  if (0 <=? i) && (i <? len buf) then Ok (nth (Z.to_nat i) buf bzero) else Panic.

(** [buf[lo:hi]] *)
Definition slice (buf : list byte) (lo hi : Z) : result (list byte) :=
  if (0 <=? lo) && (lo <=? hi) && (hi <=? len buf)
  then Ok (firstn (Z.to_nat (hi - lo)) (skipn (Z.to_nat lo) buf))
  else Panic.

(** Writing [bs] at [buf[off:]], and one byte at [buf[i]]. *)
Definition store (buf : list byte) (off : Z) (bs : list byte) : list byte :=
  List.upds buf (Z.to_nat off) bs.

Definition store1 (buf : list byte) (i : Z) (b : byte) : list byte :=
  List.upd buf (Z.to_nat i) b.

Definition xBC : byte := Byte.xbc.
Definition xFF : byte := Byte.xff.
Definition x01 : byte := Byte.x01.

Definition prefix : list byte := repeat bzero 8.

(** ** pss.go: emsaPSSEncode and emsaPSSVerify *)

Section EMSA_PSS.
Context {HF : Hash}.

Definition emsaPSSEncode (mHash : list byte) (emBits : Z) (salt : list byte)
    (st : hstate) : result (list byte) :=
  let hLen := Z.of_nat Size in
  let sLen := len salt in
  let emLen := (emBits + 7) ÷ 8 in
  if negb (len mHash =? hLen) then Err ErrHashedMessage else
  if emLen <? hLen + sLen + 2 then Err ErrEncoding else
  em <- make emLen ;;
  (* db := em[:dbLen];  h := em[dbLen : emLen-1] *)
  let dbLen := emLen - sLen - hLen - 2 + 1 + sLen in
  let st := hash_Write st (firstn 8 prefix) in
  let st := hash_Write st mHash in
  let st := hash_Write st salt in
  (* h = hash.Sum(h[:0]): the digest has hLen bytes and h[:0] has room for
     hLen+1, so it is written in place, at em[dbLen:] *)
  let h := Sum st in
  let em := store em dbLen h in
  let st := hash_Reset st in
  let em := store1 em (emLen - sLen - hLen - 2) x01 in
  (* copy(db[emLen-sLen-hLen-1:], salt): the destination has sLen bytes *)
  let em := store em (emLen - sLen - hLen - 1)
                  (firstn (Z.to_nat (dbLen - (emLen - sLen - hLen - 1))) salt) in
  db <- slice em 0 dbLen ;;
  match mgf1XOR db st h with
  | None => Hang
  | Some (db, _) =>
      let em := store em 0 db in
      db0 <- index em 0 ;;
      let em := store1 em 0
                  (byte.and db0 (byte_shr xFF (to_uint (8 * emLen - emBits)))) in
      let em := store1 em (emLen - 1) xBC in
      Ok em
  end.

(** [for i, e := range h0 { if e != h[i] { return rsa.ErrVerification } }] *)
Fixpoint compare_digest (h0 h : list byte) : result unit :=
  match h0 with
  | [] => Ok tt
  | e :: h0' =>
      match h with
      | [] => Panic
      | x :: h' =>
          if negb (byte_eqb e x) then Err ErrVerification
          else compare_digest h0' h'
      end
  end.

Definition emsaPSSVerify (mHash em : list byte) (emBits sLen : Z)
    (st : hstate) : result unit :=
  let hLen := Z.of_nat Size in
  if negb (hLen =? len mHash) then Err ErrVerification else
  let emLen := (emBits + 7) ÷ 8 in
  if emLen <? hLen + sLen + 2 then Err ErrVerification else
  last <- index em (len em - 1) ;;
  if negb (byte_eqb last xBC) then Err ErrVerification else
  (* db := em[:dbLen];  h := em[dbLen : len(em)-1] *)
  let dbLen := emLen - hLen - 1 in
  db <- slice em 0 dbLen ;;
  h <- slice em dbLen (len em - 1) ;;
  em0 <- index em 0 ;;
  if negb (byte_eqb
             (byte.and em0 (byte_shl xFF (to_uint (8 - (8 * emLen - emBits)))))
             bzero)
  then Err ErrVerification else
  match mgf1XOR db st h with
  | None => Hang
  | Some (db, st) =>
      let em := store em 0 db in
      (* db[0] &= ... *)
      db0 <- index db 0 ;;
      let em := store1 em 0
                  (byte.and db0 (byte_shr xFF (to_uint (8 * emLen - emBits)))) in
      (* range db[:emLen-hLen-sLen-2]; the capacity of db is that of em *)
      ps <- slice em 0 (emLen - hLen - sLen - 2) ;;
      if negb (forallb (fun e => byte_eqb e bzero) ps) then Err ErrVerification else
      db <- slice em 0 dbLen ;;
      sep <- index db (emLen - hLen - sLen - 2) ;;
      if negb (byte_eqb sep x01) then Err ErrVerification else
      salt <- slice db (len db - sLen) (len db) ;;
      let st := hash_Write st prefix in
      let st := hash_Write st mHash in
      let st := hash_Write st salt in
      let h0 := Sum st in
      h <- slice em dbLen (len em - 1) ;;
      compare_digest h0 h
  end.

End EMSA_PSS.

(** ** math/big as the code uses it

    [*big.Int] values are integers.  The functions below give the results of
    the library's methods on the values this package passes: non-negative
    bases and exponents. *)

(** [x.BitLen()]: the length of [|x|] in bits; 0 for 0. *)
Definition BitLen (x : Z) : Z :=
  if x =? 0 then 0 else Z.log2 (Z.abs x) + 1.

(** [new(big.Int).SetBytes(b)]: [b] read as a big-endian unsigned integer. *)
Definition SetBytes (b : list byte) : Z := le_combine (rev b).

(** [x.Bytes()]: [|x|] as a big-endian byte slice without leading zeros. *)
Definition Bytes (x : Z) : list byte :=
  rev (le_split (Z.to_nat ((BitLen x + 7) / 8)) (Z.abs x)).

(** The number of bytes of [x.Bytes()], and left-padding with zero bytes to
    [n] octets (what [copyWithLeftPad] leaves in a zeroed [dest]). *)
Definition byte_count (x : Z) : nat := Z.to_nat ((BitLen x + 7) / 8).

Definition leftpad (n : nat) (b : list byte) : list byte :=
  repeat bzero (n - length b) ++ b.

(** [z.Exp(x, y, m)]: [x**y mod |m|]; 1 when [y <= 0]; [x**y] when [m] is 0. *)
Definition big_Exp (x y m : Z) : Z :=
  if y <=? 0 then 1
  else if m =? 0 then x ^ y
  else (x ^ y) mod (Z.abs m).

(** [z.Mod(x, m)]: the Euclidean modulus; a zero [m] is a division by zero. *)
Definition big_Mod (x m : Z) : result Z :=
  if m =? 0 then Panic else Ok (x mod (Z.abs m)).

(** [g.GCD(x, y, a, b)]: the extended Euclidean iteration of math/big, which
    maintains [A = lastX*a + lastY*b] and [B = X*a + Y*b] and stops when [B]
    is 0.  For [a <= 0] or [b <= 0] it sets [g = x = y = 0]. *)
Fixpoint gcd_loop (fuel : nat) (A B X Y lastX lastY : Z) : Z * Z * Z :=
  if B =? 0 then (A, lastX, lastY) else
  match fuel with
  | O => (A, lastX, lastY)
  | S fuel' =>
      let q := A / B in
      let r := A mod B in
      gcd_loop fuel' B r (lastX - X * q) (lastY - Y * q) X Y
  end.

Definition gcd_fuel (a b : Z) : nat := Z.to_nat (Z.log2 a + Z.log2 b + 2).

Definition big_GCD (a b : Z) : Z * Z * Z :=
  if (a <=? 0) || (b <=? 0) then (0, 0, 0)
  else gcd_loop (gcd_fuel a b) a b 0 1 1 0.

(** The invariant of that iteration, and the number of steps it still needs
    ([a] and [b] are the arguments of [GCD]). *)
Section GCD_invariant.
Variables a b : Z.

Definition gcd_inv (A B X Y lastX lastY : Z) : Prop :=
  A = lastX * a + lastY * b /\
  B = X * a + Y * b /\
  0 < A /\ 0 <= B /\
  Z.gcd A B = Z.gcd a b /\
  A * Z.abs X + B * Z.abs lastX = b /\
  X * lastX <= 0 /\
  ((X = 0 /\ lastX = 1) \/ (Z.abs lastX <= Z.abs X /\ B < A)).

Definition gcd_steps (A B : Z) : Z :=
  if B =? 0 then 0
  else if A <? B then Z.log2 A + Z.log2 B + 2
  else Z.log2 A + Z.log2 B + 1.

End GCD_invariant.

Definition bigZero : Z := 0.
Definition bigOne : Z := 1.

(** ** crypto/rsa keys *)

Record PublicKey : Type := {
  N : Z;      (* modulus *)
  E : Z       (* public exponent *)
}.

Record CRTValue : Type := {
  Exp : Z;    (* D mod (prime-1) *)
  Coeff : Z;  (* R*Coeff = 1 mod prime *)
  R : Z       (* product of the primes before this one *)
}.

(** [Dp], [Dq] and [Qinv] are pointers: [None] is nil. *)
Record PrecomputedValues : Type := {
  Dp : option Z;
  Dq : option Z;
  Qinv : option Z;
  CRTValues : list CRTValue
}.

Record PrivateKey : Type := {
  Pub : PublicKey;
  D : Z;
  Primes : list Z;
  Precomputed : PrecomputedValues
}.

(** Reading through a pointer and indexing [priv.Primes]. *)
Definition deref (p : option Z) : result Z :=
  match p with Some v => Ok v | None => Panic end.

Definition prime_at (ps : list Z) (i : nat) : result Z :=
  match nth_error ps i with Some v => Ok v | None => Panic end.

(** ** The random source

    A reader is the sequence of integers that successive calls of
    [rand.Int(random, max)] draw from it, each brought into [[0, max)];
    once the sequence is used up the reader fails.  [rand.Int] panics
    when [max <= 0]. *)
Definition Reader : Type := list Z.

(** ** utils.go *)

Definition modInverse (a n : Z) : option Z :=
  let '(g, x, _) := big_GCD a n in
  if negb (g =? bigOne) then None
  else Some (if x <? bigOne then x + n else x).

Definition encrypt (pub : PublicKey) (m : Z) : Z :=
  big_Exp m (E pub) (N pub).

(** The loop that draws the blinding factor: [(r, ir)] on success. *)
Fixpoint draw_blind (random : Reader) (n : Z) : result (Z * Z) :=
  if n <=? 0 then Panic else
  match random with
  | [] => Err ErrRandom
  | x :: random' =>
      let r := x mod n in
      let r := if r =? bigZero then bigOne else r in
      match modInverse r n with
      | Some ir => Ok (r, ir)
      | None => draw_blind random' n
      end
  end.

(** The loop over [priv.Precomputed.CRTValues]; [i] is the loop index. *)
Fixpoint crt_loop (ps : list Z) (c : Z) (i : nat) (values : list CRTValue)
    (m : Z) : result Z :=
  match values with
  | [] => Ok m
  | v :: values' =>
      prime <- prime_at ps (2 + i) ;;
      let m2 := big_Exp c (Exp v) prime in
      let m2 := m2 - m in
      let m2 := m2 * Coeff v in
      m2 <- big_Mod m2 prime ;;
      let m2 := if m2 <? 0 then m2 + prime else m2 in
      let m2 := m2 * R v in
      crt_loop ps c (S i) values' (m + m2)
  end.

(** The exponentiation of [decrypt] (the branch on [priv.Precomputed.Dp]):
    one exponentiation modulo [N], or the combination by the CRT. *)
Definition decrypt_exp (priv : PrivateKey) (c : Z) : result Z :=
  let n := N (Pub priv) in
  match Dp (Precomputed priv) with
  | None => Ok (big_Exp c (D priv) n)
  | Some dp =>
      p <- prime_at (Primes priv) 0 ;;
      let m := big_Exp c dp p in
      dq <- deref (Dq (Precomputed priv)) ;;
      q <- prime_at (Primes priv) 1 ;;
      let m2 := big_Exp c dq q in
      let m := m - m2 in
      let m := if m <? 0 then m + p else m in
      qinv <- deref (Qinv (Precomputed priv)) ;;
      let m := m * qinv in
      m <- big_Mod m p ;;
      let m := m * q in
      let m := m + m2 in
      crt_loop (Primes priv) c 0 (CRTValues (Precomputed priv)) m
  end.

Definition decrypt (random : option Reader) (priv : PrivateKey) (c : Z)
  : result Z :=
  let n := N (Pub priv) in
  if c >? n then Err ErrDecryption else
  '(c, ir) <-
    match random with
    | Some rd =>
        (* blinding enabled *)
        '(r, ir) <- draw_blind rd n ;;
        let rpowe := big_Exp r (E (Pub priv)) n in
        let cCopy := c * rpowe in
        cCopy <- big_Mod cCopy n ;;
        Ok (cCopy, Some ir)
    | None => Ok (c, None)
    end ;;
  m <- decrypt_exp priv c ;;
  match ir with
  | Some ir => big_Mod (m * ir) n      (* unblind *)
  | None => Ok m
  end.

(** [copyWithLeftPad(dest, src)]: the new contents of [dest]. *)
Definition copyWithLeftPad (dest src : list byte) : result (list byte) :=
  let numPaddingBytes := len dest - len src in
  let dest := store dest 0 (repeat bzero (Z.to_nat numPaddingBytes)) in
  if numPaddingBytes <? 0 then Panic
  else Ok (store dest numPaddingBytes src).

(** ** pss.go: SignPSS and VerifyPSS *)

Section RSASSA_PSS.
Context {HF : Hash}.

Definition SignPSS (rand : option Reader) (priv : PrivateKey)
    (hashed salt : list byte) : result (list byte) :=
  em <- emsaPSSEncode hashed (BitLen (N (Pub priv)) - 1) salt hash_New ;;
  let m := SetBytes em in
  c <- decrypt rand priv m ;;
  s <- make ((BitLen (N (Pub priv)) + 7) ÷ 8) ;;
  copyWithLeftPad s (Bytes c).

Definition VerifyPSS (pub : PublicKey) (hashed sig : list byte) (sLen : Z)
  : result unit :=
  let s := SetBytes sig in
  let m := encrypt pub s in
  let emBits := BitLen (N pub) - 1 in
  let emLen := (emBits + 7) ÷ 8 in
  if emLen <? len (Bytes m) then Err ErrVerification else
  em <- make emLen ;;
  em <- copyWithLeftPad em (Bytes m) ;;
  emsaPSSVerify hashed em (BitLen (N pub) - 1) sLen hash_New.

End RSASSA_PSS.

(** ** The encoded message as the specification lays it out

    [EM = maskedDB || H || 0xBC] with [H = Hash(8 zero bytes || digest || salt)],
    [DB = PS || 0x01 || salt], [maskedDB = DB xor MGF1(H, len DB)] and the top
    [8*emLen - emBits] bits of the first octet cleared. *)

Definition clear_top (k : Z) (l : list byte) : list byte :=
  match l with
  | [] => []
  | b :: l' => byte.and b (byte_shr xFF k) :: l'
  end.

Section PSS_layout.
Context {HF : Hash}.

Definition pss_H (mHash salt : list byte) (st : hstate) : list byte :=
  Sum (st ++ prefix ++ mHash ++ salt).

Definition pss_DB (emLen : nat) (salt : list byte) : list byte :=
  repeat bzero (emLen - length salt - Size - 2) ++ [x01] ++ salt.

Definition pss_encoding (mHash : list byte) (emBits : Z) (salt : list byte)
    (st : hstate) : list byte :=
  let emLen := Z.to_nat ((emBits + 7) ÷ 8) in
  let h := pss_H mHash salt st in
  let DB := pss_DB emLen salt in
  let maskedDB := xor_bytes DB (mgf1_mask [] h (length DB)) in
  clear_top (8 * Z.of_nat emLen - emBits) maskedDB ++ h ++ [xBC].

End PSS_layout.

(** ** The checks of EMSA-PSS verification as the specification lists them

    Each definition is one cause of failure, stated on the encoded message
    [em] of [emLen] octets: [maskedDB] is its first [emLen-hLen-1] octets,
    [H] the next [hLen], and [DB] is [maskedDB] unmasked with its top bits
    cleared. *)

Definition bytes_eqb (a b : list byte) : bool :=
  (length a =? length b)%nat
  && forallb (fun p => byte_eqb (fst p) (snd p)) (combine a b).

Section PSS_checks.
Context {HF : Hash}.
Variables (mHash em : list byte) (emBits sLen : Z) (st : hstate).




End PSS_checks.

(** ** Well-formed keys

    The package takes keys as given (crypto/rsa builds and checks them).
    A private key is valid when its modulus is the product of its primes,
    which are distinct, and [E*D = 1] modulo each [prime-1]; its
    precomputed values are consistent when they are the ones
    [PrivateKey.Precompute] stores. *)

Definition product (ps : list Z) : Z := fold_right Z.mul 1 ps.

Definition primeb (p : Z) : bool :=
  (1 <? p)
  && forallb (fun d => negb (p mod d =? 0))
             (map Z.of_nat (seq 2 (Z.to_nat p - 2))).

Fixpoint distinctb (l : list Z) : bool :=
  match l with
  | [] => true
  | x :: l' => negb (existsb (Z.eqb x) l') && distinctb l'
  end.

Definition valid_key (priv : PrivateKey) : bool :=
  (2 <=? length (Primes priv))%nat
  && forallb primeb (Primes priv)
  && distinctb (Primes priv)
  && (N (Pub priv) =? product (Primes priv))
  && (0 <? E (Pub priv))
  && (0 <? D priv)
  && forallb (fun p => (E (Pub priv) * D priv) mod (p - 1) =? 1) (Primes priv).

Definition option_eqb (a : option Z) (v : Z) : bool :=
  match a with Some x => x =? v | None => false end.

(** [r] is the product of the primes before [primes]. *)
Fixpoint crt_values_ok (d r : Z) (primes : list Z) (values : list CRTValue)
  : bool :=
  match primes, values with
  | [], [] => true
  | prime :: primes', v :: values' =>
      (Exp v =? d mod (prime - 1))
      && (R v =? r)
      && ((R v * Coeff v) mod prime =? 1)
      && crt_values_ok d (r * prime) primes' values'
  | _, _ => false
  end.

Definition crt_consistent (priv : PrivateKey) : bool :=
  let pc := Precomputed priv in
  match Primes priv with
  | p :: q :: rest =>
      option_eqb (Dp pc) (D priv mod (p - 1))
      && option_eqb (Dq pc) (D priv mod (q - 1))
      && match Qinv pc with
         | Some qinv => (q * qinv) mod p =? 1
         | None => false
         end
      && crt_values_ok (D priv) (p * q) rest (CRTValues pc)
  | _ => false
  end.

(** Precomputed values are either absent or consistent. *)
Definition precomputed_ok (priv : PrivateKey) : bool :=
  match Dp (Precomputed priv) with
  | None => true
  | Some _ => crt_consistent priv
  end.

(** The same key without precomputed values. *)
Definition no_precomputed : PrecomputedValues :=
  {| Dp := None; Dq := None; Qinv := None; CRTValues := [] |}.

Definition without_precomputed (priv : PrivateKey) : PrivateKey :=
  {| Pub := Pub priv; D := D priv; Primes := Primes priv;
     Precomputed := no_precomputed |}.

(** ** Small instances, to run the definitions on *)

Definition toy_digest (written : list byte) : Z :=
  fold_left (fun acc b => (acc * 31 + byte.unsigned b + 7) mod 65536) written 5.

Definition toy_hash : Hash :=
  {| Size := 2;
     Sum := fun w => [byte.of_Z (toy_digest w / 256); byte.of_Z (toy_digest w)];
     Sum_length := fun _ => eq_refl;
     Size_pos := Nat.lt_0_succ 1 |}.

(** Nine primes, [N = 19960535595] (35 bits), [E*D = 721]. *)
Definition key9_pub : PublicKey := {| N := 19960535595; E := 7 |}.

Definition key9 : PrivateKey :=
  {| Pub := key9_pub; D := 103;
     Primes := [3; 5; 7; 11; 13; 19; 31; 37; 61];
     Precomputed := no_precomputed |}.

Definition key9_crt : PrivateKey :=
  {| Pub := key9_pub; D := 103;
     Primes := [3; 5; 7; 11; 13; 19; 31; 37; 61];
     Precomputed :=
       {| Dp := Some 1; Dq := Some 3; Qinv := Some 2;
          CRTValues :=
            [ {| Exp := 1; Coeff := 1; R := 15 |};
              {| Exp := 3; Coeff := 2; R := 105 |};
              {| Exp := 7; Coeff := 6; R := 1155 |};
              {| Exp := 13; Coeff := 4; R := 15015 |};
              {| Exp := 13; Coeff := 27; R := 285285 |};
              {| Exp := 31; Coeff := 30; R := 8843835 |};
              {| Exp := 43; Coeff := 25; R := 327221895 |} ] |} |}.

(** Two primes, [N = 7 * 13]. *)
Definition key91 : PrivateKey :=
  {| Pub := {| N := 91; E := 5 |}; D := 5; Primes := [7; 13];
     Precomputed := no_precomputed |}.

Definition key91_crt : PrivateKey :=
  {| Pub := {| N := 91; E := 5 |}; D := 5; Primes := [7; 13];
     Precomputed :=
       {| Dp := Some 5; Dq := Some 5; Qinv := Some 6; CRTValues := [] |} |}.

Definition toy_digest_ab : list byte := [Byte.x61; Byte.x62].
Definition toy_salt : list byte := [Byte.x2a].

(** ** emsaPSSEncode over a store of byte arrays

    To state that the result of [emsaPSSEncode] is a new array, the same
    function once more, now with its slices as references into a store:
    a store is the list of the arrays allocated so far, a slice refers to
    a window of one of them.  [make] appends a new array.  The arrays that
    are local to the call and never returned ([prefix], the counter, the
    digest of [mgf1XOR]) stay values. *)

Definition heap : Type := list (list byte).

Record sliceref : Type := {
  s_arr : nat;    (* the array *)
  s_off : nat;    (* where the window starts *)
  s_len : nat     (* its length *)
}.

Definition heap_load (hp : heap) (s : sliceref) : list byte :=
  firstn (s_len s) (skipn (s_off s) (nth (s_arr s) hp [])).

(** [s[i]] and [s[i] = b] *)
Definition heap_get (hp : heap) (s : sliceref) (i : nat) : byte :=
  nth (s_off s + i) (nth (s_arr s) hp []) bzero.

Definition heap_set (hp : heap) (s : sliceref) (i : nat) (b : byte) : heap :=
  List.upd hp (s_arr s) (List.upd (nth (s_arr s) hp []) (s_off s + i) b).

(** [copy(s, bs)] *)
Definition heap_copy (hp : heap) (s : sliceref) (bs : list byte) : heap :=
  List.upd hp (s_arr s)
    (List.upds (nth (s_arr s) hp []) (s_off s) (firstn (s_len s) bs)).

(** [make([]byte, n)] *)
Definition heap_make (hp : heap) (n : nat) : heap * sliceref :=
  (hp ++ [repeat bzero n], {| s_arr := length hp; s_off := 0; s_len := n |}).

(** [s[lo:hi]] *)
Definition subslice (s : sliceref) (lo hi : nat) : sliceref :=
  {| s_arr := s_arr s; s_off := s_off s + lo; s_len := hi - lo |}.

Section Heap_model.
Context {HF : Hash}.

Fixpoint xor_digest_h (hp : heap) (out : sliceref) (done : nat)
    (digest : list byte) : heap * nat :=
  match digest with
  | [] => (hp, done)
  | d :: digest' =>
      if (done <? s_len out)%nat
      then xor_digest_h (heap_set hp out done (byte.xor (heap_get hp out done) d))
                        out (S done) digest'
      else (hp, done)
  end.

Fixpoint mgf1_loop_h (fuel : nat) (hp : heap) (out : sliceref) (st : hstate)
    (seed : sliceref) (c : counter) (done : nat) : option (heap * hstate) :=
  if (s_len out <=? done)%nat then Some (hp, st) else
  match fuel with
  | O => None
  | S fuel' =>
      let st := hash_Write st (heap_load hp seed) in
      let st := hash_Write st (counter_bytes c) in
      let digest := Sum st in
      let st := hash_Reset st in
      let '(hp, done) := xor_digest_h hp out done digest in
      mgf1_loop_h fuel' hp out st seed (incCounter c) done
  end.

Definition mgf1XOR_h (hp : heap) (out : sliceref) (st : hstate)
    (seed : sliceref) : option (heap * hstate) :=
  mgf1_loop_h (s_len out) hp out st seed counter_zero 0.

Definition emsaPSSEncode_h (hp : heap) (mHash : sliceref) (emBits : Z)
    (salt : sliceref) (st : hstate) : result sliceref * heap :=
  let hLen := Z.of_nat Size in
  let sLen := Z.of_nat (s_len salt) in
  let emLen := (emBits + 7) ÷ 8 in
  if negb (Z.of_nat (s_len mHash) =? hLen) then (Err ErrHashedMessage, hp) else
  if emLen <? hLen + sLen + 2 then (Err ErrEncoding, hp) else
  let '(hp, em) := heap_make hp (Z.to_nat emLen) in
  let dbLen := Z.to_nat (emLen - sLen - hLen - 2 + 1 + sLen) in
  let db := subslice em 0 dbLen in
  let h := subslice em dbLen (Z.to_nat (emLen - 1)) in
  let st := hash_Write st (firstn 8 prefix) in
  let st := hash_Write st (heap_load hp mHash) in
  let st := hash_Write st (heap_load hp salt) in
  (* h = hash.Sum(h[:0]): in place, hLen bytes *)
  let h := subslice em dbLen (dbLen + Size) in
  let hp := heap_copy hp h (Sum st) in
  let st := hash_Reset st in
  let hp := heap_set hp db (Z.to_nat (emLen - sLen - hLen - 2)) x01 in
  let hp := heap_copy hp (subslice db (Z.to_nat (emLen - sLen - hLen - 1)) dbLen)
                      (heap_load hp salt) in
  match mgf1XOR_h hp db st h with
  | None => (Hang, hp)
  | Some (hp, _) =>
      let hp := heap_set hp db 0
                  (byte.and (heap_get hp db 0)
                            (byte_shr xFF (to_uint (8 * emLen - emBits)))) in
      let hp := heap_set hp em (Z.to_nat (emLen - 1)) xBC in
      (Ok em, hp)
  end.

End Heap_model.

(** Slices that live in the store. *)
Definition in_heap (hp : heap) (s : sliceref) : Prop :=
  (s_arr s < length hp)%nat
  /\ (s_off s + s_len s <= length (nth (s_arr s) hp []))%nat.


Definition toy_heap : heap := [toy_digest_ab; toy_salt].
Definition toy_digest_ref : sliceref := {| s_arr := 0; s_off := 0; s_len := 2 |}.
Definition toy_salt_ref : sliceref := {| s_arr := 1; s_off := 0; s_len := 1 |}.
Definition toy_em_ref : sliceref := {| s_arr := 2; s_off := 0; s_len := 5 |}.
Definition toy_em : list byte :=
  [Byte.x02; Byte.xcc; Byte.x6a; Byte.xab; Byte.xbc].

(** ** emsaPSSVerify over the store

    [emsaPSSVerify] unmasks the data block where it lies: [db] and [h] are
    windows of the array of [em], and [mgf1XOR] and [db[0] &= ...] write
    through them.  The same function once more over the store of byte
    arrays, to state what it leaves in the caller's [em].  As in the list
    model the capacity of [em] is its length. *)




Section Heap_verify.
Context {HF : Hash}.


End Heap_verify.

(** * Properties *)

(** ** Bytes and byte strings *)

Lemma byte_eqb_eq (a b : byte) : byte_eqb a b = true <-> a = b.
Proof.
  unfold byte_eqb. rewrite Z.eqb_eq. split.
  - apply byte.unsigned_inj.
  - intros ->. reflexivity.
Qed.

Lemma byte_eqb_refl (a : byte) : byte_eqb a a = true.
Proof. apply byte_eqb_eq. reflexivity. Qed.

Lemma byte_eqb_neq (a b : byte) : byte_eqb a b = false <-> a <> b.
Proof.
  rewrite <- byte_eqb_eq. destruct (byte_eqb a b); split; congruence.
Qed.

Lemma unsigned_xor (a b : byte) :
  byte.unsigned (byte.xor a b) = Z.lxor (byte.unsigned a) (byte.unsigned b).
Proof.
  unfold byte.xor. rewrite byte.unsigned_of_Z. unfold byte.wrap.
  apply Z.mod_small.
  pose proof (byte.unsigned_range a) as Ha.
  pose proof (byte.unsigned_range b) as Hb.
  split.
  - apply Z.lxor_nonneg. lia.
  - destruct (Z.eq_dec (Z.lxor (byte.unsigned a) (byte.unsigned b)) 0) as [->|Hnz];
      [reflexivity|].
    apply Z.log2_lt_pow2.
    + assert (0 <= Z.lxor (byte.unsigned a) (byte.unsigned b))
        by (apply Z.lxor_nonneg; lia). lia.
    + eapply Z.le_lt_trans; [apply Z.log2_lxor; lia|].
      apply Z.max_lub_lt.
      * destruct (Z.eq_dec (byte.unsigned a) 0) as [->|]; [reflexivity|].
        apply Z.log2_lt_pow2; lia.
      * destruct (Z.eq_dec (byte.unsigned b) 0) as [->|]; [reflexivity|].
        apply Z.log2_lt_pow2; lia.
Qed.

Lemma unsigned_and (a b : byte) :
  byte.unsigned (byte.and a b) = Z.land (byte.unsigned a) (byte.unsigned b).
Proof.
  unfold byte.and. rewrite byte.unsigned_of_Z. unfold byte.wrap.
  pose proof (byte.unsigned_range b) as Hb.
  rewrite <- Z.land_ones, <- Z.land_assoc, Z.land_ones by lia.
  rewrite (Z.mod_small (byte.unsigned b)) by lia. reflexivity.
Qed.

Lemma byte_xor_cancel (a m : byte) : byte.xor (byte.xor a m) m = a.
Proof.
  apply byte.unsigned_inj. rewrite !unsigned_xor.
  rewrite Z.lxor_assoc, Z.lxor_nilpotent, Z.lxor_0_r. reflexivity.
Qed.

Lemma byte_xor_zero_l (m : byte) : byte.xor bzero m = m.
Proof.
  apply byte.unsigned_inj. rewrite unsigned_xor.
  change (byte.unsigned bzero) with 0. apply Z.lxor_0_l.
Qed.

Lemma xor_bytes_nil_l (b : list byte) : xor_bytes [] b = [].
Proof. reflexivity. Qed.

Lemma xor_bytes_nil_r (a : list byte) : xor_bytes a [] = [].
Proof. destruct a; reflexivity. Qed.

Lemma xor_bytes_cons (x y : byte) (a b : list byte) :
  xor_bytes (x :: a) (y :: b) = byte.xor x y :: xor_bytes a b.
Proof. reflexivity. Qed.

Lemma length_xor_bytes (a b : list byte) :
  length (xor_bytes a b) = Nat.min (length a) (length b).
Proof. unfold xor_bytes. rewrite length_map, length_combine. reflexivity. Qed.

Lemma xor_bytes_firstn_r (a b : list byte) :
  xor_bytes a b = xor_bytes a (firstn (length a) b).
Proof.
  revert b. induction a as [|x a IH]; intros [|y b]; simpl; try reflexivity.
  rewrite !xor_bytes_cons. f_equal. apply IH.
Qed.

Lemma xor_bytes_app (a1 a2 b : list byte) :
  xor_bytes (a1 ++ a2) b
  = xor_bytes a1 b ++ xor_bytes a2 (skipn (length a1) b).
Proof.
  revert b. induction a1 as [|x a1 IH]; intros b; simpl.
  - reflexivity.
  - destruct b as [|y b].
    + rewrite !xor_bytes_nil_r. reflexivity.
    + rewrite !xor_bytes_cons. simpl. f_equal. apply IH.
Qed.

Lemma xor_bytes_app_r (a b1 b2 : list byte) :
  xor_bytes a (b1 ++ b2)
  = xor_bytes a b1 ++ xor_bytes (skipn (length b1) a) b2.
Proof.
  revert a. induction b1 as [|y b1 IH]; intros a; simpl.
  - rewrite xor_bytes_nil_r. reflexivity.
  - destruct a as [|x a]; [reflexivity|].
    rewrite !xor_bytes_cons. simpl. f_equal. apply IH.
Qed.

Lemma xor_bytes_cancel (a m : list byte) :
  (length a <= length m)%nat -> xor_bytes (xor_bytes a m) m = a.
Proof.
  revert m. induction a as [|x a IH]; intros [|y m] Hl; simpl in *; try reflexivity;
    try lia.
  rewrite !xor_bytes_cons, byte_xor_cancel. f_equal. apply IH. lia.
Qed.

Lemma upd_middle (pre rest : list byte) (x v : byte) :
  List.upd (pre ++ x :: rest) (length pre) v = pre ++ v :: rest.
Proof.
  rewrite List.upd_firstn_skipn by (rewrite length_app; simpl; lia).
  rewrite firstn_app, firstn_all, Nat.sub_diag, firstn_O, app_nil_r.
  f_equal. cbn [app]. f_equal.
  rewrite skipn_app, skipn_all2 by lia.
  replace (S (length pre) - length pre)%nat with 1%nat by lia. reflexivity.
Qed.

(** ** MGF1 *)

Section MGF1_facts.
Context {HF : Hash}.

Lemma xor_digest_spec (digest pre rest : list byte) :
  xor_digest (pre ++ rest) (length pre) digest
  = (pre ++ xor_bytes rest digest ++ skipn (length digest) rest,
     (length pre + Nat.min (length rest) (length digest))%nat).
Proof.
  revert pre rest. induction digest as [|d digest IH]; intros pre rest; simpl.
  - rewrite xor_bytes_nil_r, Nat.min_0_r, Nat.add_0_r. reflexivity.
  - destruct rest as [|x rest].
    + rewrite app_nil_r, Nat.ltb_irrefl. simpl. rewrite app_nil_r, Nat.add_0_r.
      reflexivity.
    + assert (Hlt : (length pre <? length (pre ++ x :: rest))%nat = true).
      { apply Nat.ltb_lt. rewrite length_app. simpl. lia. }
      rewrite Hlt, upd_middle, app_nth2, Nat.sub_diag by lia. simpl nth.
      replace (pre ++ byte.xor x d :: rest)
        with ((pre ++ [byte.xor x d]) ++ rest) by (rewrite <- app_assoc; reflexivity).
      replace (S (length pre)) with (length (pre ++ [byte.xor x d]))
        by (rewrite length_app; simpl; lia).
      rewrite IH, length_app, <- app_assoc. simpl. f_equal. lia.
Qed.

Lemma length_mgf1_blocks (st seed : list byte) (c : counter) (k : nat) :
  length (mgf1_blocks st seed c k) = (k * Size)%nat.
Proof.
  revert st c. induction k as [|k IH]; intros st c; simpl.
  - reflexivity.
  - rewrite length_app, Sum_length, IH. reflexivity.
Qed.

Lemma mgf1_blocks_firstn (st seed : list byte) (c : counter) (n k k' : nat) :
  (n <= k)%nat -> (n <= k')%nat ->
  firstn n (mgf1_blocks st seed c k) = firstn n (mgf1_blocks st seed c k').
Proof.
  revert st c n k'. induction k as [|k IH]; intros st c n k' Hk Hk'.
  - replace n with 0%nat by lia. reflexivity.
  - destruct k' as [|k'].
    + replace n with 0%nat by lia. reflexivity.
    + cbn [mgf1_blocks]. rewrite !firstn_app, Sum_length. f_equal.
      pose proof Size_pos. apply IH; lia.
Qed.

Lemma xor_bytes_blocks (a st seed : list byte) (c : counter) (k : nat) :
  (length a <= k)%nat ->
  xor_bytes a (mgf1_blocks st seed c k)
  = xor_bytes a (mgf1_blocks st seed c (length a)).
Proof.
  intros Hk.
  rewrite (xor_bytes_firstn_r a (mgf1_blocks st seed c k)).
  rewrite (xor_bytes_firstn_r a (mgf1_blocks st seed c (length a))).
  f_equal. apply mgf1_blocks_firstn; lia.
Qed.

Lemma mgf1_loop_spec (fuel : nat) (pre rest st seed : list byte) (c : counter) :
  (length rest <= fuel)%nat ->
  mgf1_loop fuel (pre ++ rest) st seed c (length pre)
  = Some (pre ++ xor_bytes rest (mgf1_blocks st seed c (length rest)),
          match rest with [] => st | _ => [] end).
Proof.
  revert pre rest st c. induction fuel as [|fuel IH]; intros pre rest st c Hf.
  - destruct rest; [|simpl in Hf; lia]. simpl.
    rewrite !app_nil_r, Nat.leb_refl. reflexivity.
  - destruct rest as [|x rest].
    + simpl. rewrite !app_nil_r, Nat.leb_refl. reflexivity.
    + cbn [mgf1_loop].
      assert (Hle : (length (pre ++ x :: rest) <=? length pre)%nat = false).
      { apply Nat.leb_gt. rewrite length_app. simpl. lia. }
      rewrite Hle. unfold hash_Write, hash_Reset.
      rewrite xor_digest_spec, <- app_assoc.
      set (digest := Sum (st ++ seed ++ counter_bytes c)).
      assert (Hd : length digest = Size) by apply Sum_length.
      pose proof Size_pos as Hpos.
      set (r := x :: rest) in *.
      assert (Hr : length r = S (length rest)) by reflexivity.
      rewrite app_assoc.
      replace (length pre + Nat.min (length r) (length digest))%nat
        with (length (pre ++ xor_bytes r digest))
        by (rewrite length_app, length_xor_bytes; reflexivity).
      rewrite IH by (rewrite length_skipn; lia).
      f_equal. f_equal.
      * rewrite <- app_assoc. f_equal.
        rewrite Hr. cbn [mgf1_blocks]. fold digest.
        rewrite xor_bytes_app_r. f_equal.
        symmetry. apply xor_bytes_blocks.
        rewrite length_skipn. lia.
      * destruct (skipn (length digest) r); reflexivity.
Qed.

Lemma mgf1XOR_spec (out st seed : list byte) :
  mgf1XOR out st seed
  = Some (xor_bytes out (mgf1_mask st seed (length out)),
          match out with [] => st | _ => [] end).
Proof.
  unfold mgf1XOR, mgf1_mask.
  pose proof (mgf1_loop_spec (length out) [] out st seed counter_zero (le_n _))
    as Hl.
  cbn [app length] in Hl. rewrite Hl, <- xor_bytes_firstn_r. reflexivity.
Qed.

End MGF1_facts.

(** ** Buffers *)

Lemma make_ok (n : Z) : 0 <= n -> make n = Ok (repeat bzero (Z.to_nat n)).
Proof. intros Hn. unfold make. destruct (Z.ltb_spec n 0); [lia|reflexivity]. Qed.

Lemma len_app {A : Type} (a b : list A) : len (a ++ b) = len a + len b.
Proof. unfold len. rewrite length_app. lia. Qed.

Lemma len_nonneg {A : Type} (a : list A) : 0 <= len a.
Proof. unfold len. lia. Qed.

Lemma store_at (a b c xs : list byte) (off : Z) :
  off = len a -> length xs = length b ->
  store (a ++ b ++ c) off xs = a ++ xs ++ c.
Proof.
  intros -> Hl. unfold store, len, List.upds. rewrite Nat2Z.id.
  rewrite firstn_app, firstn_all, Nat.sub_diag, firstn_O, app_nil_r.
  f_equal. f_equal.
  - apply firstn_all2. rewrite !length_app. lia.
  - rewrite skipn_app, (skipn_all2 a) by lia. cbn [app].
    replace (length xs + length a - length a)%nat with (length b) by lia.
    rewrite skipn_app, (skipn_all2 b), Nat.sub_diag by lia. reflexivity.
Qed.

Lemma store1_at (a c : list byte) (x v : byte) (i : Z) :
  i = len a -> store1 (a ++ x :: c) i v = a ++ v :: c.
Proof.
  intros ->. unfold store1, len. rewrite Nat2Z.id. apply upd_middle.
Qed.

Lemma slice_at (a b c : list byte) (lo hi : Z) :
  lo = len a -> hi = len a + len b -> slice (a ++ b ++ c) lo hi = Ok b.
Proof.
  intros -> ->. unfold slice. rewrite !len_app.
  pose proof (len_nonneg a). pose proof (len_nonneg b). pose proof (len_nonneg c).
  destruct (Z.leb_spec 0 (len a)); [|lia].
  destruct (Z.leb_spec (len a) (len a + len b)); [|lia].
  destruct (Z.leb_spec (len a + len b) (len a + (len b + len c))); [|lia].
  cbn [andb]. f_equal. unfold len.
  rewrite Nat2Z.id, skipn_app, (skipn_all2 a), Nat.sub_diag by lia.
  cbn [app skipn].
  replace (Z.to_nat (Z.of_nat (length a) + Z.of_nat (length b) - Z.of_nat (length a)))
    with (length b) by lia.
  rewrite firstn_app, firstn_all, Nat.sub_diag, firstn_O, app_nil_r. reflexivity.
Qed.

Lemma slice_prefix (b c : list byte) (hi : Z) :
  hi = len b -> slice (b ++ c) 0 hi = Ok b.
Proof. intros ->. apply (slice_at [] b c); reflexivity. Qed.

Lemma index_at (a c : list byte) (x : byte) (i : Z) :
  i = len a -> index (a ++ x :: c) i = Ok x.
Proof.
  intros ->. unfold index, len. rewrite length_app. cbn [length].
  destruct (Z.leb_spec 0 (Z.of_nat (length a))); [|lia].
  destruct (Z.ltb_spec (Z.of_nat (length a))
              (Z.of_nat (length a + S (length c)))); [|lia].
  cbn [andb]. rewrite Nat2Z.id, app_nth2, Nat.sub_diag by lia.
  reflexivity.
Qed.

(** ** EMSA-PSS encoding *)

Lemma emBits_bounds (emBits : Z) :
  0 < (emBits + 7) ÷ 8 ->
  0 < emBits /\ 0 <= 8 * ((emBits + 7) ÷ 8) - emBits <= 7.
Proof.
  intros Hpos.
  assert (0 < emBits).
  { destruct (Z.lt_ge_cases 0 emBits) as [|Hle]; [assumption|].
    destruct (Z.lt_ge_cases (emBits + 7) 0) as [Hneg|Hnn].
    - pose proof (Z.quot_opp_l (emBits + 7) 8 ltac:(lia)) as Ho.
      assert (0 <= (- (emBits + 7)) ÷ 8) by (apply Z.quot_pos; lia). lia.
    - rewrite Z.quot_small in Hpos by lia. lia. }
  split; [assumption|].
  rewrite Z.quot_div_nonneg by lia.
  pose proof (Z.div_mod (emBits + 7) 8 ltac:(lia)).
  pose proof (Z.mod_pos_bound (emBits + 7) 8 ltac:(lia)). lia.
Qed.

Lemma to_uint_small (k : Z) : 0 <= k < 2 ^ 64 -> to_uint k = k.
Proof. intros Hk. unfold to_uint. apply Z.mod_small. assumption. Qed.

Section Encode_facts.
Context {HF : Hash}.

Lemma emsaPSSEncode_spec (mHash : list byte) (emBits : Z) (salt : list byte)
    (st : hstate) :
  len mHash = Z.of_nat Size ->
  Z.of_nat Size + len salt + 2 <= (emBits + 7) ÷ 8 ->
  emsaPSSEncode mHash emBits salt st = Ok (pss_encoding mHash emBits salt st).
Proof.
  intros Hm Hfit. unfold emsaPSSEncode, pss_encoding.
  set (emLen := (emBits + 7) ÷ 8) in *.
  pose proof (len_nonneg salt) as Hs0.
  destruct (emBits_bounds emBits ltac:(fold emLen; lia)) as [Hbits Htop].
  fold emLen in Htop.
  rewrite Hm, Z.eqb_refl. cbn [negb].
  destruct (Z.ltb_spec emLen (Z.of_nat Size + len salt + 2)) as [|_]; [lia|].
  rewrite make_ok by lia. cbn [bind].
  unfold hash_Write, hash_Reset. rewrite firstn_all2 by reflexivity.
  rewrite <- !app_assoc. fold (pss_H mHash salt st).
  set (h := pss_H mHash salt st).
  assert (Hh : length h = Size) by apply Sum_length.
  set (ps := (Z.to_nat emLen - length salt - Size - 2)%nat).
  assert (HemLen : Z.to_nat emLen = (ps + 1 + length salt + Size + 1)%nat)
    by (unfold len in *; lia).
  assert (Hps : emLen - len salt - Z.of_nat Size - 2 = Z.of_nat ps)
    by (unfold len in *; lia).
  replace (emLen - len salt - Z.of_nat Size - 1) with (Z.of_nat ps + 1) by lia.
  rewrite Hps.
  replace (Z.to_nat (Z.of_nat ps + 1 + len salt - (Z.of_nat ps + 1)))
    with (length salt) by (unfold len; lia).
  rewrite firstn_all.
  set (zs := repeat bzero (length salt)).
  assert (Hzs : length zs = length salt) by apply repeat_length.
  set (PS := repeat bzero ps).
  assert (HPS : length PS = ps) by apply repeat_length.
  replace (repeat bzero (Z.to_nat emLen))
    with ((PS ++ [bzero] ++ zs) ++ repeat bzero Size ++ [bzero]).
  2:{ rewrite HemLen, !repeat_app, <- !app_assoc. reflexivity. }
  rewrite (store_at (PS ++ [bzero] ++ zs) (repeat bzero Size) [bzero] h).
  2:{ rewrite !len_app. unfold len. cbn [length]. lia. }
  2:{ rewrite repeat_length. exact Hh. }
  replace ((PS ++ [bzero] ++ zs) ++ h ++ [bzero])
    with (PS ++ bzero :: (zs ++ h ++ [bzero]))
    by (rewrite <- !app_assoc; reflexivity).
  rewrite (store1_at PS) by (unfold len; lia).
  replace (PS ++ x01 :: zs ++ h ++ [bzero])
    with ((PS ++ [x01]) ++ zs ++ (h ++ [bzero]))
    by (rewrite <- !app_assoc; reflexivity).
  rewrite (store_at (PS ++ [x01]) zs (h ++ [bzero]) salt).
  2:{ rewrite len_app. unfold len. cbn [length]. lia. }
  2:{ lia. }
  replace ((PS ++ [x01]) ++ salt ++ h ++ [bzero])
    with (pss_DB (Z.to_nat emLen) salt ++ h ++ [bzero])
    by (unfold pss_DB; fold ps; fold PS; rewrite <- !app_assoc; reflexivity).
  set (DB := pss_DB (Z.to_nat emLen) salt).
  assert (HDB : length DB = (ps + 1 + length salt)%nat).
  { unfold DB, pss_DB. fold ps. rewrite !length_app, repeat_length.
    cbn [length]. lia. }
  rewrite slice_prefix by (unfold len; lia). cbn [bind].
  rewrite mgf1XOR_spec.
  set (db := xor_bytes DB (mgf1_mask [] h (length DB))).
  assert (Hdb : length db = length DB).
  { unfold db. rewrite length_xor_bytes. unfold mgf1_mask.
    rewrite length_firstn, length_mgf1_blocks. pose proof Size_pos. nia. }
  rewrite (store_at [] DB (h ++ [bzero]) db) by (auto; reflexivity).
  cbn [app].
  destruct db as [|b tl]; [simpl in Hdb; lia|].
  cbn [app].
  pose proof (index_at [] (tl ++ h ++ [bzero]) b 0 eq_refl) as Hi.
  cbn [app] in Hi. rewrite Hi. cbn [bind].
  pose proof (fun v => store1_at [] (tl ++ h ++ [bzero]) b v 0 eq_refl) as Hst.
  cbn [app] in Hst. rewrite Hst.
  rewrite to_uint_small by lia.
  rewrite app_comm_cons, app_assoc.
  rewrite store1_at.
  2:{ rewrite len_app. unfold len. cbn [length]. simpl in Hdb. lia. }
  rewrite <- app_assoc. cbn [clear_top app]. rewrite Z2Nat.id by lia. reflexivity.
Qed.

End Encode_facts.

(** ** EMSA-PSS verification *)

Lemma slice_firstn (buf : list byte) (n : Z) :
  0 <= n <= len buf -> slice buf 0 n = Ok (firstn (Z.to_nat n) buf).
Proof.
  intros Hn. unfold slice.
  destruct (Z.leb_spec 0 n); [|lia]. destruct (Z.leb_spec n (len buf)); [|lia].
  cbn [andb Z.leb]. rewrite Z.sub_0_r. reflexivity.
Qed.

Lemma slice_skipn (buf : list byte) (lo : Z) :
  0 <= lo <= len buf ->
  slice buf lo (len buf) = Ok (skipn (Z.to_nat lo) buf).
Proof.
  intros Hn. unfold slice.
  destruct (Z.leb_spec 0 lo); [|lia]. destruct (Z.leb_spec lo (len buf)); [|lia].
  rewrite Z.leb_refl. cbn [andb]. f_equal.
  apply firstn_all2. rewrite length_skipn. unfold len. lia.
Qed.

Lemma index_nth (buf : list byte) (i : Z) :
  0 <= i < len buf -> index buf i = Ok (nth (Z.to_nat i) buf bzero).
Proof.
  intros Hi. unfold index.
  destruct (Z.leb_spec 0 i); [|lia]. destruct (Z.ltb_spec i (len buf)); [|lia].
  reflexivity.
Qed.

Lemma bytes_eqb_eq (a b : list byte) : bytes_eqb a b = true <-> a = b.
Proof.
  unfold bytes_eqb. rewrite andb_true_iff, Nat.eqb_eq. split.
  - intros [Hl Hf]. revert b Hl Hf.
    induction a as [|x a IH]; intros [|y b] Hl Hf; simpl in *; try lia.
    + reflexivity.
    + apply andb_true_iff in Hf. destruct Hf as [Hxy Hf].
      apply byte_eqb_eq in Hxy. subst y. f_equal. apply IH; [lia|assumption].
  - intros ->. split; [reflexivity|].
    induction b as [|y b IH]; simpl; [reflexivity|].
    rewrite byte_eqb_refl. exact IH.
Qed.

Lemma byte_mask_roundtrip (d m M : byte) :
  byte.and (byte.xor (byte.and (byte.xor d m) M) m) M = byte.and d M.
Proof.
  apply byte.unsigned_inj.
  rewrite !unsigned_and, !unsigned_xor, !unsigned_and, !unsigned_xor.
  apply Z.bits_inj'. intros n Hn.
  rewrite !Z.land_spec, !Z.lxor_spec, !Z.land_spec, !Z.lxor_spec.
  destruct (Z.testbit (byte.unsigned d) n), (Z.testbit (byte.unsigned m) n),
    (Z.testbit (byte.unsigned M) n); reflexivity.
Qed.

Lemma topbits_cases (k : Z) :
  0 <= k <= 7 -> k = 0 \/ k = 1 \/ k = 2 \/ k = 3 \/ k = 4 \/ k = 5 \/ k = 6 \/ k = 7.
Proof. lia. Qed.

Lemma byte_top_clear (b : byte) (k : Z) :
  0 <= k <= 7 ->
  byte.and (byte.and b (byte_shr xFF k)) (byte_shl xFF (8 - k)) = bzero.
Proof.
  intros Hk. apply byte.unsigned_inj.
  rewrite !unsigned_and.
  rewrite <- Z.land_assoc.
  replace (Z.land (byte.unsigned (byte_shr xFF k))
                  (byte.unsigned (byte_shl xFF (8 - k)))) with 0.
  - apply Z.land_0_r.
  - destruct (topbits_cases k Hk) as [->|[->|[->|[->|[->|[->|[->| ->]]]]]]];
      reflexivity.
Qed.

Lemma byte_keep_low (b : byte) (k : Z) :
  0 <= k <= 7 -> byte.unsigned b <= 1 -> byte.and b (byte_shr xFF k) = b.
Proof.
  intros Hk Hb. pose proof (byte.unsigned_range b) as Hr.
  assert (Hc : byte.unsigned b = 0 \/ byte.unsigned b = 1) by lia.
  apply byte.unsigned_inj. rewrite unsigned_and.
  destruct (topbits_cases k Hk) as [->|[->|[->|[->|[->|[->|[->| ->]]]]]]];
    destruct Hc as [-> | ->]; reflexivity.
Qed.

Lemma clear_top_twice (k : Z) (db mask : list byte) :
  clear_top k (xor_bytes (clear_top k (xor_bytes db mask)) mask)
  = clear_top k (xor_bytes (xor_bytes db mask) mask).
Proof.
  destruct db as [|d db]; [reflexivity|].
  destruct mask as [|m mask]; [reflexivity|].
  rewrite !xor_bytes_cons. cbn [clear_top]. rewrite xor_bytes_cons.
  cbn [clear_top]. f_equal.
  rewrite byte_mask_roundtrip, byte_xor_cancel. reflexivity.
Qed.

Section Verify_facts.
Context {HF : Hash}.

Lemma compare_digest_spec (h0 h : list byte) :
  length h0 = length h ->
  compare_digest h0 h = if bytes_eqb h0 h then Ok tt else Err ErrVerification.
Proof.
  unfold bytes_eqb. intros Hl. rewrite Hl, Nat.eqb_refl. cbn [andb].
  revert h Hl. induction h0 as [|e h0 IH]; intros [|x h] Hl; simpl in *; try lia.
  - reflexivity.
  - destruct (byte_eqb e x); cbn [negb andb]; [apply IH; lia | reflexivity].
Qed.

Lemma length_mgf1_mask (st seed : list byte) (n : nat) :
  length (mgf1_mask st seed n) = n.
Proof.
  unfold mgf1_mask. rewrite length_firstn, length_mgf1_blocks.
  pose proof Size_pos. nia.
Qed.

Lemma length_clear_top (k : Z) (l : list byte) :
  length (clear_top k l) = length l.
Proof. destruct l; reflexivity. Qed.

Lemma emsaPSSVerify_layout (mHash mdb h : list byte) (t : byte)
    (emBits sLen : Z) (st : hstate) :
  let emLen := (emBits + 7) ÷ 8 in
  let k := 8 * emLen - emBits in
  let DB := clear_top k (xor_bytes mdb (mgf1_mask st h (length mdb))) in
  let psl := Z.to_nat (emLen - Z.of_nat Size - sLen - 2) in
  len mHash = Z.of_nat Size ->
  length h = Size ->
  len mdb = emLen - Z.of_nat Size - 1 ->
  Z.of_nat Size + sLen + 2 <= emLen ->
  0 <= sLen ->
  emsaPSSVerify mHash (mdb ++ h ++ [t]) emBits sLen st
  = if byte_eqb t xBC
       && byte_eqb (byte.and (hd bzero mdb) (byte_shl xFF (8 - k))) bzero
       && forallb (fun e => byte_eqb e bzero) (firstn psl DB)
       && byte_eqb (nth psl DB bzero) x01
       && bytes_eqb (Sum (prefix ++ mHash
                          ++ skipn (length DB - Z.to_nat sLen) DB)) h
    then Ok tt else Err ErrVerification.
Proof.
  intros emLen k DB psl Hm Hh Hmdb Hfit Hs.
  unfold emsaPSSVerify. fold emLen. fold k.
  rewrite Hm, Z.eqb_refl. cbn [negb].
  destruct (Z.ltb_spec emLen (Z.of_nat Size + sLen + 2)) as [|_]; [lia|].
  destruct (emBits_bounds emBits ltac:(fold emLen; lia)) as [Hbits Htop].
  fold emLen in Htop. fold k in Htop.
  assert (Hlen : len (mdb ++ h ++ [t]) = emLen).
  { rewrite !len_app. unfold len in *. cbn [length]. lia. }
  rewrite Hlen.
  replace (mdb ++ h ++ [t]) with ((mdb ++ h) ++ t :: [])
    by (rewrite <- app_assoc; reflexivity).
  rewrite (index_at (mdb ++ h) [] t) by (rewrite len_app; unfold len in *; lia).
  cbn [bind]. rewrite <- app_assoc.
  destruct (byte_eqb t xBC); cbn [negb andb]; [|reflexivity].
  rewrite slice_prefix by lia. cbn [bind].
  rewrite (slice_at mdb h [t]) by (unfold len in *; lia). cbn [bind].
  rewrite !to_uint_small by lia.
  assert (Hne : (0 < length mdb)%nat) by (unfold len in *; lia).
  rewrite (index_nth (mdb ++ h ++ [t]) 0) by (rewrite !len_app; unfold len in *; lia).
  cbn [bind]. change (Z.to_nat 0) with 0%nat.
  replace (nth 0 (mdb ++ h ++ [t]) bzero) with (hd bzero mdb)
    by (destruct mdb; [simpl in Hne; lia | reflexivity]).
  destruct (byte_eqb (byte.and (hd bzero mdb) (byte_shl xFF (8 - k))) bzero);
    cbn [negb andb]; [|reflexivity].
  rewrite mgf1XOR_spec.
  set (db := xor_bytes mdb (mgf1_mask st h (length mdb))) in *.
  assert (Hdb : length db = length mdb).
  { unfold db. rewrite length_xor_bytes, length_mgf1_mask. lia. }
  rewrite (store_at [] mdb (h ++ [t]) db) by (auto; reflexivity).
  cbn [app].
  destruct db as [|d0 db']; [simpl in Hdb; lia|].
  pose proof (index_at [] db' d0 0 eq_refl) as Hi. cbn [app] in Hi.
  rewrite Hi. cbn [bind]. clear Hi.
  pose proof (fun v => store1_at [] (db' ++ h ++ [t]) d0 v 0 eq_refl) as Hst.
  cbn [app] in Hst. rewrite Hst. clear Hst.
  change (byte.and d0 (byte_shr xFF k) :: db' ++ h ++ [t])
    with (DB ++ h ++ [t]).
  assert (HDB : length DB = length mdb).
  { unfold DB. rewrite length_clear_top. exact Hdb. }
  clearbody DB.
  assert (Hst : forall A (x y : A), match mdb with [] => x | _ :: _ => y end = y)
    by (intros; destruct mdb; [simpl in Hne; lia | reflexivity]).
  rewrite Hst. clear Hst.
  rewrite (slice_firstn (DB ++ h ++ [t]))
    by (rewrite !len_app; unfold len in *; cbn [length]; lia).
  cbn [bind]. fold psl.
  replace (firstn psl (DB ++ h ++ [t])) with (firstn psl DB).
  2:{ rewrite firstn_app.
      replace (psl - length DB)%nat with 0%nat by (unfold psl, len in *; lia).
      rewrite firstn_O, app_nil_r. reflexivity. }
  destruct (forallb (fun e => byte_eqb e bzero) (firstn psl DB));
    cbn [negb andb]; [|reflexivity].
  rewrite slice_prefix by (unfold len in *; lia). cbn [bind].
  rewrite index_nth by (unfold len in *; lia). cbn [bind]. fold psl.
  destruct (byte_eqb (nth psl DB bzero) x01); cbn [negb andb]; [|reflexivity].
  rewrite slice_skipn by (unfold len in *; lia). cbn [bind].
  replace (Z.to_nat (len DB - sLen)) with (length DB - Z.to_nat sLen)%nat
    by (unfold len; lia).
  rewrite (slice_at DB h [t])
    by (rewrite ?len_app; unfold len in *; cbn [length]; lia).
  cbn [bind]. unfold hash_Write. cbn [app].
  rewrite <- app_assoc.
  apply compare_digest_spec. rewrite Sum_length. symmetry. exact Hh.
Qed.

Lemma pss_DB_length (emLen : nat) (salt : list byte) :
  (Size + length salt + 2 <= emLen)%nat ->
  length (pss_DB emLen salt) = (emLen - Size - 1)%nat.
Proof.
  intros Hfit. unfold pss_DB. rewrite !length_app, repeat_length.
  cbn [length]. lia.
Qed.

Lemma clear_top_pss_DB (k : Z) (emLen : nat) (salt : list byte) :
  0 <= k <= 7 -> clear_top k (pss_DB emLen salt) = pss_DB emLen salt.
Proof.
  intros Hk. unfold pss_DB.
  destruct (emLen - length salt - Size - 2)%nat; cbn [repeat app clear_top];
    rewrite byte_keep_low; try reflexivity; try assumption;
    cbv; discriminate.
Qed.

Lemma forallb_repeat_zero (n : nat) :
  forallb (fun e => byte_eqb e bzero) (repeat bzero n) = true.
Proof. induction n; simpl; auto. Qed.

Lemma emsaPSS_roundtrip (mHash salt : list byte) (emBits : Z) :
  len mHash = Z.of_nat Size ->
  Z.of_nat Size + len salt + 2 <= (emBits + 7) ÷ 8 ->
  emsaPSSVerify mHash (pss_encoding mHash emBits salt hash_New) emBits
                (len salt) hash_New = Ok tt.
Proof.
  intros Hm Hfit. unfold pss_encoding.
  set (emLen := (emBits + 7) ÷ 8) in *.
  pose proof (len_nonneg salt) as Hs0.
  destruct (emBits_bounds emBits ltac:(fold emLen; lia)) as [Hbits Htop].
  fold emLen in Htop.
  rewrite Z2Nat.id by lia.
  set (k := 8 * emLen - emBits) in *.
  set (h := pss_H mHash salt hash_New).
  set (DB := pss_DB (Z.to_nat emLen) salt).
  assert (HDB : length DB = (Z.to_nat emLen - Size - 1)%nat).
  { apply pss_DB_length. unfold len in *. lia. }
  set (mask := mgf1_mask [] h (length DB)).
  assert (Hmask : length mask = length DB) by apply length_mgf1_mask.
  rewrite emsaPSSVerify_layout; fold emLen; fold k.
  - rewrite length_clear_top, length_xor_bytes, Hmask, Nat.min_id.
    unfold hash_New. fold mask. rewrite clear_top_twice.
    rewrite xor_bytes_cancel by lia.
    unfold DB at 2 3 4 5. rewrite clear_top_pss_DB by lia. fold DB.
    rewrite byte_eqb_refl.
    replace (hd bzero (clear_top k (xor_bytes DB mask)))
      with (byte.and (hd bzero (xor_bytes DB mask)) (byte_shr xFF k)).
    2:{ destruct (xor_bytes DB mask) eqn:Ex; [|reflexivity].
        apply (f_equal (@length _)) in Ex.
        rewrite length_xor_bytes in Ex. simpl in Ex. unfold len in *. lia. }
    rewrite byte_top_clear, byte_eqb_refl by lia. cbn [andb].
    set (ps := Z.to_nat (emLen - Z.of_nat Size - len salt - 2)).
    assert (Hps : (Z.to_nat emLen - length salt - Size - 2)%nat = ps)
      by (unfold ps, len; lia).
    assert (EDB : DB = repeat bzero ps ++ x01 :: salt).
    { unfold DB, pss_DB. rewrite Hps. reflexivity. }
    rewrite EDB at 1.
    rewrite firstn_app, repeat_length, Nat.sub_diag, firstn_O, app_nil_r.
    rewrite firstn_all2 by (rewrite repeat_length; lia).
    rewrite forallb_repeat_zero. cbn [andb].
    rewrite EDB at 1.
    rewrite app_nth2, repeat_length, Nat.sub_diag by (rewrite repeat_length; lia).
    cbn [nth]. rewrite byte_eqb_refl. cbn [andb].
    replace (skipn (length DB - Z.to_nat (len salt)) DB) with salt.
    2:{ rewrite EDB at 2. rewrite HDB.
        replace (Z.to_nat emLen - Size - 1 - Z.to_nat (len salt))%nat
          with (ps + 1)%nat by (unfold ps, len in *; lia).
        rewrite skipn_app, repeat_length, skipn_all2 by (rewrite repeat_length; lia).
        replace (ps + 1 - ps)%nat with 1%nat by lia. reflexivity. }
    replace (bytes_eqb (Sum (prefix ++ mHash ++ salt)) h) with true; [reflexivity|].
    symmetry. apply bytes_eqb_eq. reflexivity.
  - exact Hm.
  - apply Sum_length.
  - unfold len at 1.
    rewrite length_clear_top, length_xor_bytes, Hmask, Nat.min_id, HDB.
    unfold len in *. lia.
  - lia.
  - lia.
Qed.

End Verify_facts.


(** ** math/big: GCD *)

Section GCD_facts.
Variables a b : Z.

Lemma gcd_inv_step (A B X Y lastX lastY : Z) :
  gcd_inv a b A B X Y lastX lastY -> B <> 0 ->
  gcd_inv a b B (A mod B) (lastX - X * (A / B)) (lastY - Y * (A / B)) X Y
  /\ gcd_steps B (A mod B) + 1 <= gcd_steps A B.
Proof.
  intros (HA & HB & HApos & HBnn & Hg & Hdet & Hsign & Hmono) HB0.
  assert (HBpos : 0 < B) by lia.
  pose proof (Z.div_mod A B HB0) as Hdm.
  pose proof (Z.mod_pos_bound A B HBpos) as Hr.
  assert (Hq : 0 <= A / B) by (apply Z.div_pos; lia).
  set (q := A / B) in *. set (r := A mod B) in *.
  split.
  - assert (H1 : B = X * a + Y * b) by assumption.
    assert (H2 : r = (lastX - X * q) * a + (lastY - Y * q) * b) by lia.
    assert (H3 : Z.gcd B r = Z.gcd a b).
    { rewrite <- Hg. unfold r. rewrite Z.gcd_comm, Z.gcd_mod by lia.
      apply Z.gcd_comm. }
    assert (Hsg : (0 <= X /\ lastX <= 0) \/ (X <= 0 /\ 0 <= lastX)).
    { destruct (Z.le_gt_cases 0 X) as [HX|HX];
        destruct (Z.le_gt_cases 0 lastX) as [HL|HL]; try lia.
      all: try (assert (0 < X * lastX) by (apply Z.mul_neg_neg; lia); lia).
      all: destruct (Z.eq_dec X 0); [lia|]; destruct (Z.eq_dec lastX 0); [lia|];
        assert (0 < X * lastX) by (apply Z.mul_pos_pos; lia); lia. }
    assert (Hqx : 0 <= q * Z.abs X) by (apply Z.mul_nonneg_nonneg; lia).
    assert (Habs : Z.abs (lastX - X * q) = Z.abs lastX + q * Z.abs X).
    { destruct Hsg as [[HX HL]|[HX HL]].
      - rewrite (Z.abs_eq X), (Z.abs_neq lastX) in * by lia.
        rewrite Z.abs_neq; lia.
      - rewrite (Z.abs_neq X), (Z.abs_eq lastX) in * by lia.
        rewrite Z.abs_eq; lia. }
    assert (H4 : B * Z.abs (lastX - X * q) + r * Z.abs X = b).
    { rewrite Habs, <- Hdet.
      replace A with (B * q + r) by lia. ring. }
    assert (H5 : (lastX - X * q) * X <= 0).
    { destruct Hsg as [[HX HL]|[HX HL]].
      - apply Z.mul_nonpos_nonneg; [|lia].
        assert (0 <= X * q) by (apply Z.mul_nonneg_nonneg; lia). lia.
      - apply Z.mul_nonneg_nonpos; [|lia].
        assert (X * q <= 0) by (apply Z.mul_nonpos_nonneg; lia). lia. }
    assert (H6 : (lastX - X * q = 0 /\ X = 1)
                 \/ (Z.abs X <= Z.abs (lastX - X * q) /\ r < B)).
    { right. split; [|lia]. rewrite Habs.
      destruct Hmono as [[HX HL] | [Hle Hlt]]; [subst X lastX; lia|].
      assert (1 <= q) by (unfold q; apply Z.div_le_lower_bound; lia).
      assert (Z.abs X <= q * Z.abs X); [|lia].
      rewrite <- (Z.mul_1_l (Z.abs X)) at 1.
      apply Z.mul_le_mono_nonneg_r; lia. }
    unfold gcd_inv. repeat split; try assumption; lia.
  - unfold gcd_steps.
    destruct (Z.eqb_spec B 0) as [|_]; [lia|].
    destruct (Z.eqb_spec r 0) as [Hr0|Hr0].
    + pose proof (Z.log2_nonneg A). pose proof (Z.log2_nonneg B).
      destruct (A <? B); lia.
    + destruct (Z.ltb_spec B r) as [|_]; [lia|].
      destruct (Z.ltb_spec A B) as [Hlt|Hge].
      * assert (Er : r = A) by (unfold r; apply Z.mod_small; lia).
        rewrite Er. lia.
      * assert (1 <= q) by (unfold q; apply Z.div_le_lower_bound; lia).
        assert (Hdbl : Z.log2 (2 * r) <= Z.log2 A).
        { apply Z.log2_le_mono.
          assert (B <= B * q)
            by (rewrite <- (Z.mul_1_r B) at 1; apply Z.mul_le_mono_nonneg_l; lia).
          lia. }
        rewrite Z.log2_double in Hdbl by lia. lia.
Qed.

Lemma gcd_loop_inv (fuel : nat) (A B X Y lastX lastY : Z) :
  gcd_inv a b A B X Y lastX lastY ->
  gcd_steps A B <= Z.of_nat fuel ->
  exists g x y X' Y',
    gcd_loop fuel A B X Y lastX lastY = (g, x, y)
    /\ gcd_inv a b g 0 X' Y' x y.
Proof.
  revert A B X Y lastX lastY.
  induction fuel as [|fuel IH]; intros A B X Y lastX lastY Hinv Hfuel.
  - assert (B = 0).
    { unfold gcd_steps in Hfuel. destruct (Z.eqb_spec B 0); [assumption|].
      destruct Hinv as (_ & _ & HA & HB & _).
      pose proof (Z.log2_nonneg A). pose proof (Z.log2_nonneg B).
      destruct (A <? B); lia. }
    subst B. exists A, lastX, lastY, X, Y. split; [reflexivity|assumption].
  - cbn [gcd_loop]. destruct (Z.eqb_spec B 0) as [->|HB0].
    + exists A, lastX, lastY, X, Y. split; [reflexivity|assumption].
    + destruct (gcd_inv_step _ _ _ _ _ _ Hinv HB0) as [Hinv' Hsteps].
      apply IH; [assumption|lia].
Qed.

End GCD_facts.

Lemma big_GCD_spec (a b : Z) :
  0 < a -> 0 < b ->
  exists g x y,
    big_GCD a b = (g, x, y)
    /\ g = Z.gcd a b /\ g = x * a + y * b /\ Z.abs x <= b.
Proof.
  intros Ha Hb. unfold big_GCD.
  destruct (Z.leb_spec a 0); [lia|]. destruct (Z.leb_spec b 0); [lia|].
  cbn [orb].
  destruct (gcd_loop_inv a b (gcd_fuel a b) a b 0 1 1 0)
    as (g & x & y & X' & Y' & Hrun & Hinv).
  - unfold gcd_inv. repeat split; lia.
  - unfold gcd_steps, gcd_fuel.
    pose proof (Z.log2_nonneg a). pose proof (Z.log2_nonneg b).
    destruct (b =? 0); destruct (a <? b); lia.
  - exists g, x, y. split; [exact Hrun|].
    destruct Hinv as (Hg & _ & Hgpos & _ & Hgcd & Hdet & _ & Hmono).
    rewrite Z.gcd_0_r, Z.abs_eq in Hgcd by lia.
    assert (Hxb : Z.abs x <= b).
    { destruct Hmono as [[HX HL] | [Hle _]]; [subst; lia|].
      assert (Z.abs X' <= g * Z.abs X'); [|lia].
      rewrite <- (Z.mul_1_l (Z.abs X')) at 1.
      apply Z.mul_le_mono_nonneg_r; lia. }
    repeat split; lia.
Qed.

Lemma modInverse_spec (a n : Z) :
  0 < a < n ->
  match modInverse a n with
  | Some ia => Z.gcd a n = 1 /\ 0 <= ia < n /\ (a * ia) mod n = 1
  | None => Z.gcd a n <> 1
  end.
Proof.
  intros Han. unfold modInverse.
  destruct (big_GCD_spec a n) as (g & x & y & Hrun & Hg & Hbez & Hx); try lia.
  rewrite Hrun. unfold bigOne.
  destruct (Z.eqb_spec g 1) as [Hg1|Hg1]; cbn [negb]; [|congruence].
  split; [congruence|].
  assert (Hx0 : x mod n <> 0).
  { intros Hdiv. apply Z.mod_divide in Hdiv; [|lia].
    destruct Hdiv as [k Hk].
    assert (Hone : 1 = (k * a + y) * n) by lia.
    pose proof (Z.eq_mul_1_nonneg n (k * a + y)). lia. }
  assert (Hxn : x <> 0 /\ x <> n /\ x <> - n).
  { repeat split; intros ->.
    - rewrite Z.mod_0_l in Hx0 by lia. congruence.
    - rewrite Z.mod_same in Hx0 by lia. congruence.
    - apply Hx0. apply Z.mod_divide; [lia|]. exists (-1). lia. }
  destruct (Z.ltb_spec x 1) as [Hlt|Hge].
  - split; [lia|].
    replace (a * (x + n)) with (1 + (a - y) * n) by lia.
    rewrite Z.mod_add by lia. apply Z.mod_small. lia.
  - split; [lia|].
    replace (a * x) with (1 + (- y) * n) by lia.
    rewrite Z.mod_add by lia. apply Z.mod_small. lia.
Qed.

(** ** Arithmetic of RSA keys *)

Lemma primeb_prime (p : Z) : primeb p = true -> Z.prime p.
Proof.
  unfold primeb. rewrite andb_true_iff, Z.ltb_lt, forallb_forall.
  intros [Hp Hall]. split; [assumption|].
  intros n Hn Hdiv.
  specialize (Hall n). rewrite negb_true_iff, Z.eqb_neq in Hall.
  apply Hall.
  - apply in_map_iff. exists (Z.to_nat n). split; [lia|].
    apply in_seq. lia.
  - apply Z.mod_divide; [lia|assumption].
Qed.

Lemma distinctb_NoDup (l : list Z) : distinctb l = true -> NoDup l.
Proof.
  induction l as [|x l IH]; simpl; intros Hd; constructor.
  - apply andb_true_iff in Hd. destruct Hd as [Hx _].
    apply negb_true_iff in Hx. intros Hin.
    assert (existsb (Z.eqb x) l = true); [|congruence].
    apply existsb_exists. exists x. split; [assumption|apply Z.eqb_refl].
  - apply IH. apply andb_true_iff in Hd. tauto.
Qed.

Lemma valid_key_facts (priv : PrivateKey) :
  valid_key priv = true ->
  (2 <= length (Primes priv))%nat
  /\ Forall Z.prime (Primes priv)
  /\ NoDup (Primes priv)
  /\ N (Pub priv) = product (Primes priv)
  /\ 0 < E (Pub priv) /\ 0 < D priv
  /\ Forall (fun p => (E (Pub priv) * D priv) mod (p - 1) = 1) (Primes priv).
Proof.
  unfold valid_key. rewrite !andb_true_iff.
  intros [[[[[[Hl Hp] Hd] Hn] He] Hdd] Hed].
  repeat split.
  - apply Nat.leb_le. assumption.
  - apply Forall_forall. intros p Hin. apply primeb_prime.
    rewrite forallb_forall in Hp. auto.
  - apply distinctb_NoDup. assumption.
  - apply Z.eqb_eq. assumption.
  - apply Z.ltb_lt. assumption.
  - apply Z.ltb_lt. assumption.
  - apply Forall_forall. intros p Hin. apply Z.eqb_eq.
    rewrite forallb_forall in Hed. auto.
Qed.

Lemma mod_eq_divide (m x y : Z) :
  0 < m -> (x mod m = y mod m <-> (m | x - y)).
Proof.
  intros Hm. split.
  - intros Heq. exists (x / m - y / m).
    pose proof (Z.div_mod x m ltac:(lia)). pose proof (Z.div_mod y m ltac:(lia)).
    lia.
  - intros [k Hk]. replace x with (y + k * m) by lia.
    apply Z.mod_add. lia.
Qed.

Lemma pow_fermat (p c k r : Z) :
  Z.prime p -> c mod p <> 0 -> 0 <= k -> 0 <= r ->
  c ^ ((p - 1) * k + r) mod p = c ^ r mod p.
Proof.
  intros Hp Hc Hk Hr. pose proof (Z.prime_ge_2 p Hp) as Hp2.
  assert (0 <= (p - 1) * k) by (apply Z.mul_nonneg_nonneg; lia).
  rewrite Z.pow_add_r, Z.pow_mul_r by lia.
  rewrite Z.mul_mod, <- Z.mod_pow_l by lia.
  rewrite (Z.fermat_nz p c Hp Hc), Z.pow_1_l by lia.
  rewrite (Z.mod_small 1) by lia.
  rewrite Z.mul_1_l, Z.mod_mod by lia. reflexivity.
Qed.

Lemma pow_zero_mod (p c n : Z) :
  0 < p -> c mod p = 0 -> 0 < n -> c ^ n mod p = 0.
Proof.
  intros Hp Hc Hn. rewrite <- Z.mod_pow_l, Hc, Z.pow_0_l by lia.
  apply Z.mod_0_l. lia.
Qed.

Lemma rsa_mod_prime (p e d m : Z) :
  Z.prime p -> 0 < e -> 0 < d -> (e * d) mod (p - 1) = 1 ->
  m ^ (e * d) mod p = m mod p.
Proof.
  intros Hp He Hd Hed. pose proof (Z.prime_ge_2 p Hp) as Hp2.
  assert (Hp3 : 2 <= p - 1).
  { destruct (Z.eq_dec p 2) as [->|]; [|lia]. cbn in Hed. rewrite Z.mod_1_r in Hed. lia. }
  assert (0 < e * d) by (apply Z.mul_pos_pos; lia).
  destruct (Z.eq_dec (m mod p) 0) as [Hz|Hnz].
  - rewrite pow_zero_mod by lia. congruence.
  - pose proof (Z.div_mod (e * d) (p - 1) ltac:(lia)) as Hdm.
    rewrite Hed in Hdm. rewrite Hdm.
    rewrite pow_fermat, Z.pow_1_r; try lia; try assumption.
    apply Z.div_pos; lia.
Qed.

Lemma exp_reduce (p d c : Z) :
  Z.prime p -> 0 < d -> d mod (p - 1) <> 0 ->
  c ^ (d mod (p - 1)) mod p = c ^ d mod p.
Proof.
  intros Hp Hd Hdp. pose proof (Z.prime_ge_2 p Hp) as Hp2.
  assert (Hp3 : 2 <= p - 1).
  { destruct (Z.eq_dec p 2) as [->|]; [|lia]. cbn in Hdp. rewrite Z.mod_1_r in Hdp. lia. }
  pose proof (Z.mod_pos_bound d (p - 1) ltac:(lia)) as Hr.
  destruct (Z.eq_dec (c mod p) 0) as [Hz|Hnz].
  - rewrite !pow_zero_mod by lia. reflexivity.
  - pose proof (Z.div_mod d (p - 1) ltac:(lia)) as Hdm.
    rewrite Hdm at 2.
    rewrite pow_fermat; try lia; try assumption.
    apply Z.div_pos; lia.
Qed.

Lemma product_pos (ps : list Z) : Forall Z.prime ps -> 0 < product ps.
Proof.
  induction 1 as [|p ps Hp _ IH]; simpl; [lia|].
  pose proof (Z.prime_ge_2 p Hp). apply Z.mul_pos_pos; lia.
Qed.

Lemma divide_product (p : Z) (ps : list Z) : In p ps -> (p | product ps).
Proof.
  induction ps as [|q ps IH]; simpl; [tauto|].
  intros [->|Hin].
  - apply Z.divide_mul_l, Z.divide_refl.
  - apply Z.divide_mul_r, IH, Hin.
Qed.

Lemma coprime_product (p : Z) (ps : list Z) :
  Z.prime p -> Forall Z.prime ps -> ~ In p ps -> Z.coprime p (product ps).
Proof.
  intros Hp Hall Hnin. induction Hall as [|q ps Hq _ IH]; simpl.
  - apply Z.coprime_1_r.
  - apply Z.coprime_mul_r.
    + apply Z.coprime_prime_l; [assumption|].
      intros Hdiv. apply Hnin. left.
      destruct (Z.divide_prime_prime p q Hp Hq Hdiv); auto.
    + apply IH. intros Hin. apply Hnin. right. assumption.
Qed.

Lemma divide_coprime_mul (a b x : Z) :
  Z.coprime a b -> (a | x) -> (b | x) -> (a * b | x).
Proof.
  intros Hc [k Hk] Hb. subst x.
  assert (Hbk : (b | k)).
  { apply (Z.gauss b a k).
    - rewrite Z.mul_comm. assumption.
    - rewrite Z.gcd_comm. exact Hc. }
  destruct Hbk as [j ->]. exists j. ring.
Qed.

Lemma crt_unique (ps : list Z) (x y : Z) :
  Forall Z.prime ps -> NoDup ps ->
  (forall p, In p ps -> x mod p = y mod p) ->
  x mod product ps = y mod product ps.
Proof.
  intros Hall Hnd Hcong.
  apply mod_eq_divide; [apply product_pos; assumption|].
  induction ps as [|p ps IH]; simpl.
  - apply Z.divide_1_l.
  - inversion Hall as [|? ? Hp Hall']; subst.
    inversion Hnd as [|? ? Hnin Hnd']; subst.
    apply divide_coprime_mul.
    + apply coprime_product; assumption.
    + apply mod_eq_divide; [pose proof (Z.prime_ge_2 p Hp); lia|].
      apply Hcong. left. reflexivity.
    + apply IH; try assumption. intros q Hq. apply Hcong. right. assumption.
Qed.

(** The RSA identity: raising to [E*D] is the identity modulo [N]. *)
Lemma rsa_identity (priv : PrivateKey) (m : Z) :
  valid_key priv = true ->
  m ^ (E (Pub priv) * D priv) mod N (Pub priv) = m mod N (Pub priv).
Proof.
  intros Hv. destruct (valid_key_facts priv Hv)
    as (_ & Hpr & Hnd & HN & He & Hd & Hed).
  rewrite HN. apply crt_unique; try assumption.
  intros p Hin. rewrite Forall_forall in Hpr, Hed.
  apply rsa_mod_prime; auto.
Qed.

Lemma valid_key_N (priv : PrivateKey) :
  valid_key priv = true -> 6 <= N (Pub priv).
Proof.
  intros Hv. destruct (valid_key_facts priv Hv)
    as (Hl & Hpr & Hnd & HN & _).
  rewrite HN. destruct (Primes priv) as [|p [|q rest]]; simpl in Hl; try lia.
  inversion Hpr as [|? ? Hp Hpr']; subst. inversion Hpr' as [|? ? Hq Hrest]; subst.
  inversion Hnd as [|? ? Hnin _]; subst.
  pose proof (Z.prime_ge_2 p Hp). pose proof (Z.prime_ge_2 q Hq).
  pose proof (product_pos rest Hrest).
  assert (p <> q) by (intros ->; apply Hnin; left; reflexivity).
  simpl.
  assert (q <= q * product rest)
    by (rewrite <- (Z.mul_1_r q) at 1; apply Z.mul_le_mono_nonneg_l; lia).
  assert (6 <= p * q) by nia.
  assert (p * q <= p * (q * product rest))
    by (apply Z.mul_le_mono_nonneg_l; lia).
  lia.
Qed.

(** ** utils.go: decrypt *)

Lemma big_Exp_pos (x y m : Z) :
  0 < y -> 0 < m -> big_Exp x y m = x ^ y mod m.
Proof.
  intros Hy Hm. unfold big_Exp.
  destruct (Z.leb_spec y 0); [lia|]. destruct (Z.eqb_spec m 0); [lia|].
  rewrite Z.abs_eq by lia. reflexivity.
Qed.

Lemma big_Mod_pos (x m : Z) : 0 < m -> big_Mod x m = Ok (x mod m).
Proof.
  intros Hm. unfold big_Mod. destruct (Z.eqb_spec m 0); [lia|].
  rewrite Z.abs_eq by lia. reflexivity.
Qed.

Lemma product_app (l1 l2 : list Z) :
  product (l1 ++ l2) = product l1 * product l2.
Proof.
  induction l1 as [|x l1 IH]; simpl.
  - destruct (product l2); reflexivity.
  - rewrite IH. ring.
Qed.

Lemma option_eqb_eq (a : option Z) (v : Z) : option_eqb a v = true -> a = Some v.
Proof.
  destruct a as [x|]; simpl; [|discriminate].
  intros Hx. apply Z.eqb_eq in Hx. congruence.
Qed.

(** One more prime in the CRT combination. *)
Lemma crt_extend (c d m r prime coeff : Z) :
  0 < prime -> 0 < r -> 0 <= m < r -> (r * coeff) mod prime = 1 ->
  let m2 := ((c ^ d mod prime - m) * coeff) mod prime in
  0 <= m + m2 * r < r * prime
  /\ (m + m2 * r) mod prime = c ^ d mod prime
  /\ (forall p, 0 < p -> (p | r) -> (m + m2 * r) mod p = m mod p).
Proof.
  intros Hp Hr Hm Hinv m2.
  pose proof (Z.mod_pos_bound ((c ^ d mod prime - m) * coeff) prime Hp) as Hm2.
  fold m2 in Hm2.
  split; [|split].
  - assert (m2 * r <= (prime - 1) * r) by (apply Z.mul_le_mono_nonneg_r; lia).
    assert (0 <= m2 * r) by (apply Z.mul_nonneg_nonneg; lia).
    lia.
  - apply mod_eq_divide; [assumption|].
    pose proof (Z.div_mod ((c ^ d mod prime - m) * coeff) prime ltac:(lia)) as H1.
    fold m2 in H1.
    pose proof (Z.div_mod (c ^ d) prime ltac:(lia)) as H2.
    pose proof (Z.div_mod (r * coeff) prime ltac:(lia)) as H3.
    rewrite Hinv in H3.
    set (x := c ^ d mod prime) in *.
    set (k1 := (x - m) * coeff / prime) in *.
    set (k2 := c ^ d / prime) in *.
    set (k3 := r * coeff / prime) in *.
    exists ((x - m) * k3 - k1 * r - k2).
    replace (m2 * r) with (((x - m) * coeff - prime * k1) * r) by (f_equal; lia).
    replace (((x - m) * coeff - prime * k1) * r)
      with ((x - m) * (r * coeff) - prime * k1 * r) by ring.
    rewrite H3, H2. ring.
  - intros p Hp0 [k Hk].
    apply mod_eq_divide; [assumption|].
    exists (m2 * k). rewrite Hk. ring.
Qed.

Lemma crt_loop_spec (d c : Z) (values : list CRTValue) :
  forall (rest pre : list Z) (m r : Z) (i : nat),
  Forall Z.prime (pre ++ rest) ->
  length pre = (2 + i)%nat -> r = product pre -> 0 < d ->
  Forall (fun p => d mod (p - 1) <> 0) rest ->
  crt_values_ok d r rest values = true ->
  0 <= m < r -> (forall p, In p pre -> m mod p = c ^ d mod p) ->
  exists m',
    crt_loop (pre ++ rest) c i values m = Ok m'
    /\ 0 <= m' < product (pre ++ rest)
    /\ (forall p, In p (pre ++ rest) -> m' mod p = c ^ d mod p).
Proof.
  induction values as [|v values IH]; intros rest pre m r i Hpr Hlen Hr Hd Hnz Hok Hm Hcong.
  - destruct rest; [|discriminate]. rewrite app_nil_r in *.
    exists m. subst r. auto.
  - destruct rest as [|prime rest]; [discriminate|].
    cbn [crt_values_ok] in Hok. rewrite !andb_true_iff in Hok.
    destruct Hok as [[[HExp HR] Hco] Hok].
    apply Z.eqb_eq in HExp, HR, Hco.
    assert (Hprime : Z.prime prime).
    { rewrite Forall_forall in Hpr. apply Hpr, in_elt. }
    pose proof (Z.prime_ge_2 prime Hprime) as Hp2.
    inversion Hnz as [|? ? Hnz1 Hnz']; subst x l.
    assert (Hppre : 0 < product pre).
    { apply product_pos. apply Forall_app in Hpr. tauto. }
    cbn [crt_loop]. unfold prime_at.
    rewrite nth_error_app2, Hlen, Nat.sub_diag by lia. cbn [nth_error bind].
    assert (Hprime1 : 2 <= prime - 1).
    { destruct (Z.eq_dec prime 2) as [->|]; [|lia].
      cbn in Hnz1. rewrite Z.mod_1_r in Hnz1. lia. }
    pose proof (Z.mod_pos_bound d (prime - 1) ltac:(lia)) as HdBound.
    rewrite big_Exp_pos, big_Mod_pos by lia. cbn [bind].
    rewrite HExp, exp_reduce by (try assumption; lia).
    destruct (crt_extend c d m r prime (Coeff v)) as (Hrange & Hmodp & Hmodr);
      try lia.
    { rewrite <- HR. assumption. }
    match goal with
    | |- context [if ?t <? 0 then _ else _] =>
        destruct (Z.ltb_spec t 0) as [Hneg|_]
    end.
    { pose proof (Z.mod_pos_bound ((c ^ d mod prime - m) * Coeff v) prime
                    ltac:(lia)). lia. }
    rewrite HR.
    replace (pre ++ prime :: rest) with ((pre ++ [prime]) ++ rest)
      by (rewrite <- app_assoc; reflexivity).
    apply (IH rest (pre ++ [prime]) _ (r * prime) (S i)).
    + rewrite <- app_assoc. assumption.
    + rewrite length_app. simpl. lia.
    + rewrite product_app. simpl. subst r. ring.
    + assumption.
    + assumption.
    + assumption.
    + assumption.
    + intros p Hin. apply in_app_iff in Hin. destruct Hin as [Hin|[<-|[]]].
      * rewrite Hmodr.
        -- apply Hcong. assumption.
        -- rewrite Forall_forall in Hpr.
           pose proof (Z.prime_ge_2 p (Hpr p ltac:(apply in_or_app; auto))). lia.
        -- subst r. apply divide_product. assumption.
      * assumption.
Qed.

Lemma inverse_exponent_nonzero (e d k : Z) :
  0 < k -> (e * d) mod k = 1 -> 2 <= k /\ d mod k <> 0.
Proof.
  intros Hk0 Hed.
  assert (Hk : 2 <= k).
  { destruct (Z.eq_dec k 1) as [->|]; [|lia].
    rewrite Z.mod_1_r in Hed. lia. }
  split; [assumption|]. intros Hz.
  rewrite <- Z.mul_mod_idemp_r, Hz, Z.mul_0_r, Z.mod_0_l in Hed by lia. lia.
Qed.

Lemma decrypt_exp_crt (priv : PrivateKey) (c : Z) :
  valid_key priv = true -> crt_consistent priv = true ->
  decrypt_exp priv c = Ok (c ^ D priv mod N (Pub priv)).
Proof.
  intros Hv Hc.
  destruct (valid_key_facts priv Hv) as (_ & Hpr & Hnd & HN & He & Hd & Hed).
  unfold crt_consistent in Hc. unfold decrypt_exp.
  destruct (Primes priv) as [|p [|q rest]] eqn:EP; try discriminate.
  rewrite !andb_true_iff in Hc. destruct Hc as [[[HDp HDq] HQ] Hvals].
  apply option_eqb_eq in HDp, HDq.
  destruct (Qinv (Precomputed priv)) as [qinv|]; [|discriminate].
  apply Z.eqb_eq in HQ.
  rewrite HDp, HDq. cbn [prime_at nth_error deref bind].
  assert (Hnz : Forall (fun p => D priv mod (p - 1) <> 0) (p :: q :: rest)).
  { rewrite Forall_forall in *. intros x Hx.
    pose proof (Z.prime_ge_2 x (Hpr x Hx)).
    apply (inverse_exponent_nonzero (E (Pub priv))); [lia|auto]. }
  inversion Hpr as [|? ? Hp Hpr']; subst x l.
  inversion Hpr' as [|? ? Hq Hrest]; subst x l.
  inversion Hnz as [|? ? Hnzp Hnz']; subst x l.
  inversion Hnz' as [|? ? Hnzq Hnzr]; subst x l.
  pose proof (Z.prime_ge_2 p Hp) as Hp2. pose proof (Z.prime_ge_2 q Hq) as Hq2.
  destruct (inverse_exponent_nonzero (E (Pub priv)) (D priv) (p - 1)) as [Hp1 _];
    [lia | rewrite Forall_forall in Hed; apply Hed; left; reflexivity |].
  destruct (inverse_exponent_nonzero (E (Pub priv)) (D priv) (q - 1)) as [Hq1 _];
    [lia | rewrite Forall_forall in Hed; apply Hed; right; left; reflexivity |].
  pose proof (Z.mod_pos_bound (D priv) (p - 1) ltac:(lia)).
  pose proof (Z.mod_pos_bound (D priv) (q - 1) ltac:(lia)).
  rewrite !big_Exp_pos, big_Mod_pos by lia. cbn [bind].
  rewrite !exp_reduce by (try assumption; lia).
  set (d := D priv) in *.
  set (m1 := c ^ d mod p). set (m2 := c ^ d mod q).
  pose proof (Z.mod_pos_bound (c ^ d) q ltac:(lia)) as Hm2. fold m2 in Hm2.
  destruct (crt_extend c d m2 q p qinv) as (Hrange & Hmodp & Hmodq); try lia.
  fold m1 in Hrange, Hmodp, Hmodq.
  assert (Hh : (if m1 - m2 <? 0 then m1 - m2 + p else m1 - m2) * qinv mod p
               = (m1 - m2) * qinv mod p).
  { destruct (m1 - m2 <? 0); [|reflexivity].
    replace ((m1 - m2 + p) * qinv) with ((m1 - m2) * qinv + qinv * p) by ring.
    apply Z.mod_add. lia. }
  rewrite Hh.
  set (h := (m1 - m2) * qinv mod p) in *.
  replace (h * q + m2) with (m2 + h * q) by ring.
  destruct (crt_loop_spec d c (CRTValues (Precomputed priv)) rest [p; q]
              (m2 + h * q) (p * q) 0)
    as (m' & Hrun & Hm' & Hcong); try assumption; try reflexivity.
  - simpl. ring.
  - lia.
  - intros x [<-|[<-|[]]].
    + assumption.
    + rewrite (Hmodq q) by (try lia; apply Z.divide_refl).
      unfold m2. apply Z.mod_mod. lia.
  - cbn [app] in Hrun, Hm', Hcong. rewrite Hrun. f_equal.
    rewrite HN.
    rewrite <- (Z.mod_small m' (product (p :: q :: rest))) by assumption.
    apply crt_unique; assumption.
Qed.

Lemma decrypt_exp_ok (priv : PrivateKey) (c : Z) :
  valid_key priv = true -> precomputed_ok priv = true ->
  decrypt_exp priv c = Ok (c ^ D priv mod N (Pub priv)).
Proof.
  intros Hv Hpc. unfold precomputed_ok in Hpc.
  destruct (Dp (Precomputed priv)) eqn:EDp.
  - apply decrypt_exp_crt; assumption.
  - unfold decrypt_exp. rewrite EDp.
    destruct (valid_key_facts priv Hv) as (_ & _ & _ & _ & _ & Hd & _).
    pose proof (valid_key_N priv Hv).
    rewrite big_Exp_pos by lia. reflexivity.
Qed.

Lemma draw_blind_spec (rd : Reader) (n r ir : Z) :
  1 < n -> draw_blind rd n = Ok (r, ir) ->
  0 < r < n /\ 0 <= ir < n /\ (r * ir) mod n = 1.
Proof.
  intros Hn. induction rd as [|x rd IH]; cbn [draw_blind];
    destruct (Z.leb_spec n 0); try lia; try discriminate.
  set (r0 := if x mod n =? bigZero then bigOne else x mod n).
  assert (Hr0 : 0 < r0 < n).
  { unfold r0, bigZero, bigOne.
    pose proof (Z.mod_pos_bound x n ltac:(lia)).
    destruct (Z.eqb_spec (x mod n) 0); lia. }
  pose proof (modInverse_spec r0 n Hr0) as Hinv.
  destruct (modInverse r0 n) as [ir0|]; [|exact IH].
  intros Heq. inversion Heq; subst r ir. tauto.
Qed.

Lemma draw_blind_outcome (rd : Reader) (n : Z) :
  1 < n -> (exists r ir, draw_blind rd n = Ok (r, ir))
           \/ draw_blind rd n = Err ErrRandom.
Proof.
  intros Hn. induction rd as [|x rd IH]; cbn [draw_blind];
    destruct (Z.leb_spec n 0); try lia; auto.
  destruct (modInverse _ n) as [ir0|]; [|exact IH].
  left. eauto.
Qed.

Lemma unblind (priv : PrivateKey) (c r ir : Z) :
  valid_key priv = true -> (r * ir) mod N (Pub priv) = 1 ->
  let n := N (Pub priv) in
  (((c * (r ^ E (Pub priv) mod n)) mod n) ^ D priv mod n * ir) mod n
  = c ^ D priv mod n.
Proof.
  intros Hv Hinv n.
  destruct (valid_key_facts priv Hv) as (_ & _ & _ & _ & He & Hd & _).
  pose proof (valid_key_N priv Hv) as HN. fold n in HN, Hinv.
  pose proof (rsa_identity priv r Hv) as Hid. fold n in Hid.
  rewrite Z.mul_mod_idemp_r by lia.
  rewrite Z.mod_pow_l.
  rewrite Z.pow_mul_l, <- Z.pow_mul_r by lia.
  rewrite Z.mul_mod_idemp_l by lia.
  rewrite <- Z.mul_assoc, <- Z.mul_mod_idemp_r by lia.
  rewrite <- (Z.mul_mod_idemp_l (r ^ _)), Hid, Z.mul_mod_idemp_l, Hinv by lia.
  rewrite Z.mul_1_r. reflexivity.
Qed.

Lemma decrypt_unblinded (priv : PrivateKey) (c : Z) :
  valid_key priv = true -> precomputed_ok priv = true ->
  c <= N (Pub priv) ->
  decrypt None priv c = Ok (c ^ D priv mod N (Pub priv)).
Proof.
  intros Hv Hpc Hc. unfold decrypt.
  destruct (Z.gtb_spec c (N (Pub priv))); [lia|]. cbn [bind].
  rewrite decrypt_exp_ok by assumption. reflexivity.
Qed.

Lemma decrypt_blinded (priv : PrivateKey) (c : Z) (rd : Reader) :
  valid_key priv = true -> precomputed_ok priv = true ->
  c <= N (Pub priv) ->
  decrypt (Some rd) priv c = Ok (c ^ D priv mod N (Pub priv))
  \/ decrypt (Some rd) priv c = Err ErrRandom.
Proof.
  intros Hv Hpc Hc. unfold decrypt.
  destruct (Z.gtb_spec c (N (Pub priv))); [lia|].
  pose proof (valid_key_N priv Hv) as HN.
  destruct (valid_key_facts priv Hv) as (_ & _ & _ & _ & He & Hd & _).
  destruct (draw_blind_outcome rd (N (Pub priv)) ltac:(lia)) as [(r & ir & Hdraw)|Hdraw];
    rewrite Hdraw; cbn [bind]; [left|right; reflexivity].
  destruct (draw_blind_spec rd (N (Pub priv)) r ir ltac:(lia) Hdraw) as (Hr & Hir & Hinv).
  rewrite (big_Exp_pos r) by lia.
  rewrite (big_Mod_pos (c * _)) by lia. cbn [bind].
  rewrite decrypt_exp_ok by assumption. cbn [bind].
  rewrite big_Mod_pos by lia. f_equal.
  apply unblind; assumption.
Qed.

(** ** math/big: BitLen, SetBytes and Bytes *)

Lemma BitLen_nonneg (x : Z) : 0 <= BitLen x.
Proof.
  unfold BitLen. destruct (x =? 0); [lia|].
  pose proof (Z.log2_nonneg (Z.abs x)). lia.
Qed.

Lemma BitLen_spec (x : Z) :
  0 < x -> 2 ^ (BitLen x - 1) <= x < 2 ^ BitLen x.
Proof.
  intros Hx. unfold BitLen. destruct (Z.eqb_spec x 0); [lia|].
  rewrite Z.abs_eq by lia.
  replace (Z.log2 x + 1 - 1) with (Z.log2 x) by lia.
  replace (Z.log2 x + 1) with (Z.succ (Z.log2 x)) by lia.
  apply Z.log2_spec. assumption.
Qed.

Lemma BitLen_le (x n : Z) : 0 <= n -> 0 <= x < 2 ^ n -> BitLen x <= n.
Proof.
  intros Hn Hx. unfold BitLen. destruct (Z.eqb_spec x 0); [lia|].
  rewrite Z.abs_eq by lia.
  assert (Z.log2 x < n) by (apply Z.log2_lt_pow2; lia). lia.
Qed.

Lemma byte_count_bound (x : Z) :
  0 <= x -> x < 2 ^ (8 * Z.of_nat (byte_count x)).
Proof.
  intros Hx. unfold byte_count.
  pose proof (BitLen_nonneg x) as Hb.
  assert (Hq : 0 <= (BitLen x + 7) / 8) by (apply Z.div_pos; lia).
  rewrite Z2Nat.id by assumption.
  destruct (Z.eq_dec x 0) as [->|Hnz].
  - apply Z.pow_pos_nonneg; lia.
  - pose proof (BitLen_spec x ltac:(lia)) as [_ Hlt].
    eapply Z.lt_le_trans; [exact Hlt|].
    apply Z.pow_le_mono_r; [lia|].
    pose proof (Z.div_mod (BitLen x + 7) 8 ltac:(lia)).
    pose proof (Z.mod_pos_bound (BitLen x + 7) 8 ltac:(lia)). lia.
Qed.

Lemma byte_count_le (x : Z) (n : nat) :
  0 <= x < 2 ^ (8 * Z.of_nat n) -> (byte_count x <= n)%nat.
Proof.
  intros Hx. unfold byte_count.
  pose proof (BitLen_le x (8 * Z.of_nat n) ltac:(lia) Hx) as Hb.
  pose proof (BitLen_nonneg x).
  assert ((BitLen x + 7) / 8 < Z.of_nat n + 1); [|lia].
  apply Z.div_lt_upper_bound; lia.
Qed.

Lemma length_Bytes (x : Z) : length (Bytes x) = byte_count x.
Proof. unfold Bytes. rewrite length_rev, length_le_split. reflexivity. Qed.

Lemma le_split_zero (j : nat) : le_split j 0 = repeat bzero j.
Proof.
  induction j as [|j IH]; [reflexivity|].
  change (le_split (S j) 0) with (byte.of_Z 0 :: le_split j 0).
  rewrite IH. reflexivity.
Qed.

Lemma le_split_pad (n j : nat) (v : Z) :
  0 <= v < 2 ^ (8 * Z.of_nat n) ->
  le_split (n + j) v = le_split n v ++ repeat bzero j.
Proof.
  revert v. induction n as [|n IH]; intros v Hv.
  - simpl in Hv. replace v with 0 by lia. apply le_split_zero.
  - change (le_split (S n + j) v)
      with (byte.of_Z v :: le_split (n + j) (Z.shiftr v 8)).
    change (le_split (S n) v) with (byte.of_Z v :: le_split n (Z.shiftr v 8)).
    cbn [app]. f_equal. apply IH.
    rewrite Z.shiftr_div_pow2 by lia. split.
    + apply Z.div_pos; lia.
    + apply Z.div_lt_upper_bound; [lia|].
      rewrite <- Z.pow_add_r by lia.
      replace (8 + 8 * Z.of_nat n) with (8 * Z.of_nat (S n)) by lia. lia.
Qed.

Lemma rev_repeat (x : byte) (n : nat) : rev (repeat x n) = repeat x n.
Proof.
  induction n as [|n IH]; [reflexivity|].
  simpl. rewrite IH. symmetry. apply repeat_cons.
Qed.

Lemma leftpad_Bytes (n : nat) (x : Z) :
  0 <= x < 2 ^ (8 * Z.of_nat n) -> leftpad n (Bytes x) = rev (le_split n x).
Proof.
  intros Hx. unfold leftpad. rewrite length_Bytes. unfold Bytes.
  fold (byte_count x). rewrite Z.abs_eq by lia.
  pose proof (byte_count_le x n Hx) as Hle.
  replace n with (byte_count x + (n - byte_count x))%nat at 2 by lia.
  rewrite le_split_pad by (split; [lia|apply byte_count_bound; lia]).
  rewrite rev_app_distr, rev_repeat. reflexivity.
Qed.

Lemma SetBytes_leftpad (n : nat) (x : Z) :
  0 <= x < 2 ^ (8 * Z.of_nat n) -> SetBytes (leftpad n (Bytes x)) = x.
Proof.
  intros Hx. rewrite leftpad_Bytes by assumption. unfold SetBytes.
  rewrite rev_involutive, le_combine_split.
  apply Z.mod_small. replace (Z.of_nat n * 8) with (8 * Z.of_nat n) by lia.
  assumption.
Qed.

Lemma SetBytes_bound (b : list byte) : 0 <= SetBytes b < 2 ^ (8 * len b).
Proof.
  unfold SetBytes, len. pose proof (le_combine_bound (rev b)) as Hb.
  rewrite length_rev in Hb. exact Hb.
Qed.

Lemma leftpad_SetBytes (b : list byte) :
  leftpad (length b) (Bytes (SetBytes b)) = b.
Proof.
  rewrite leftpad_Bytes by apply SetBytes_bound.
  unfold SetBytes. rewrite <- (length_rev b), split_le_combine.
  apply rev_involutive.
Qed.

Lemma copyWithLeftPad_spec (n : nat) (src : list byte) :
  (length src <= n)%nat ->
  copyWithLeftPad (repeat bzero n) src = Ok (leftpad n src).
Proof.
  intros Hl. unfold copyWithLeftPad, leftpad, len. rewrite repeat_length.
  destruct (Z.ltb_spec (Z.of_nat n - Z.of_nat (length src)) 0); [lia|].
  f_equal.
  replace (Z.to_nat (Z.of_nat n - Z.of_nat (length src)))
    with (n - length src)%nat by lia.
  replace (repeat bzero n)
    with ([] ++ repeat bzero (n - length src) ++ repeat bzero (length src)) at 1.
  2:{ cbn [app]. rewrite <- repeat_app. f_equal. lia. }
  rewrite store_at by reflexivity. cbn [app].
  replace (repeat bzero (n - length src) ++ repeat bzero (length src))
    with (repeat bzero (n - length src) ++ repeat bzero (length src) ++ [])
    by (rewrite app_nil_r; reflexivity).
  rewrite store_at.
  - rewrite app_nil_r. reflexivity.
  - unfold len. rewrite repeat_length. lia.
  - rewrite repeat_length. reflexivity.
Qed.

(** ** pss.go: SignPSS and VerifyPSS *)

Lemma lor_bound (a b n : Z) :
  0 <= n -> 0 <= a < 2 ^ n -> 0 <= b < 2 ^ n -> 0 <= Z.lor a b < 2 ^ n.
Proof.
  intros Hn Ha Hb.
  assert (H0 : 0 <= Z.lor a b) by (apply Z.lor_nonneg; lia).
  split; [assumption|].
  destruct (Z.eq_dec (Z.lor a b) 0) as [->|Hnz]; [apply Z.pow_pos_nonneg; lia|].
  apply Z.log2_lt_pow2; [lia|].
  rewrite Z.log2_lor by lia.
  apply Z.max_lub_lt.
  - destruct (Z.eq_dec a 0) as [->|]; [simpl|apply Z.log2_lt_pow2; lia].
    destruct (Z.eq_dec n 0) as [->|]; [|lia].
    assert (b = 0) by (simpl in Hb; lia). subst b. simpl in Hnz. lia.
  - destruct (Z.eq_dec b 0) as [->|]; [simpl|apply Z.log2_lt_pow2; lia].
    destruct (Z.eq_dec n 0) as [->|]; [|lia].
    assert (a = 0) by (simpl in Ha; lia). subst a. simpl in Hnz. lia.
Qed.

Lemma SetBytes_top (b : byte) (rest : list byte) (j : Z) :
  0 <= j -> byte.unsigned b < 2 ^ j ->
  0 <= SetBytes (b :: rest) < 2 ^ (8 * len rest + j).
Proof.
  intros Hj Hb. unfold SetBytes. cbn [rev].
  rewrite le_combine_app, le_combine_1, length_rev.
  pose proof (le_combine_bound (rev rest)) as Hr. rewrite length_rev in Hr.
  pose proof (byte.unsigned_range b) as Hb0.
  pose proof (len_nonneg rest) as Hl. unfold len in *.
  apply lor_bound; [lia| |].
  - split; [lia|]. eapply Z.lt_le_trans; [apply Hr|].
    apply Z.pow_le_mono_r; lia.
  - rewrite Z.shiftl_mul_pow2 by lia. split.
    + apply Z.mul_nonneg_nonneg; [lia|]. apply Z.pow_nonneg. lia.
    + replace (8 * Z.of_nat (length rest) + j)
        with (j + Z.of_nat (length rest) * 8) by lia.
      rewrite Z.pow_add_r by lia.
      apply Z.mul_lt_mono_pos_r; [apply Z.pow_pos_nonneg; lia|assumption].
Qed.

Lemma unsigned_shr_xFF (k : Z) :
  0 <= k <= 7 -> byte.unsigned (byte_shr xFF k) = Z.ones (8 - k).
Proof.
  intros Hk.
  destruct (topbits_cases k Hk) as [->|[->|[->|[->|[->|[->|[->| ->]]]]]]];
    reflexivity.
Qed.

Lemma clear_top_bound (k : Z) (b : byte) :
  0 <= k <= 7 -> byte.unsigned (byte.and b (byte_shr xFF k)) < 2 ^ (8 - k).
Proof.
  intros Hk. rewrite unsigned_and, unsigned_shr_xFF, Z.land_ones by lia.
  apply Z.mod_pos_bound. apply Z.pow_pos_nonneg; lia.
Qed.

Section Sign_Verify.
Context {HF : Hash}.

Lemma length_pss_encoding (mHash salt : list byte) (emBits : Z) (st : hstate) :
  Z.of_nat Size + len salt + 2 <= (emBits + 7) ÷ 8 ->
  len (pss_encoding mHash emBits salt st) = (emBits + 7) ÷ 8.
Proof.
  intros Hfit. unfold pss_encoding.
  rewrite !len_app. unfold len at 1 2 3.
  rewrite length_clear_top, length_xor_bytes, length_mgf1_mask, Nat.min_id.
  rewrite pss_DB_length by (unfold len in *; lia).
  unfold pss_H. rewrite Sum_length. cbn [length]. unfold len in *. lia.
Qed.

Lemma pss_encoding_bound (mHash salt : list byte) (emBits : Z) (st : hstate) :
  Z.of_nat Size + len salt + 2 <= (emBits + 7) ÷ 8 ->
  0 <= SetBytes (pss_encoding mHash emBits salt st) < 2 ^ emBits.
Proof.
  intros Hfit.
  pose proof (length_pss_encoding mHash salt emBits st Hfit) as Hlen.
  pose proof (len_nonneg salt) as Hs0.
  destruct (emBits_bounds emBits ltac:(lia)) as [Hbits Htop].
  unfold pss_encoding in *.
  set (emLen := (emBits + 7) ÷ 8) in *.
  rewrite Z2Nat.id in * by lia.
  set (k := 8 * emLen - emBits) in *.
  set (db := xor_bytes _ _) in *.
  destruct db as [|d tl] eqn:Edb.
  { exfalso. apply (f_equal (@length _)) in Edb. subst db.
    rewrite length_xor_bytes, length_mgf1_mask, Nat.min_id, pss_DB_length in Edb
      by (unfold len in *; lia).
    simpl in Edb. unfold len in *. lia. }
  cbn [clear_top app] in *.
  replace emBits with (8 * len (tl ++ pss_H mHash salt st ++ [xBC]) + (8 - k)).
  - apply SetBytes_top; [lia|]. apply clear_top_bound. lia.
  - unfold len in *. cbn [length] in Hlen. lia.
Qed.

Lemma SignPSS_spec (rand : option Reader) (priv : PrivateKey)
    (hashed salt : list byte) :
  valid_key priv = true -> precomputed_ok priv = true ->
  len hashed = Z.of_nat Size ->
  Z.of_nat Size + len salt + 2 <= (BitLen (N (Pub priv)) - 1 + 7) / 8 ->
  let n := N (Pub priv) in
  let em := pss_encoding hashed (BitLen n - 1) salt hash_New in
  let sg := leftpad (byte_count n) (Bytes (SetBytes em ^ D priv mod n)) in
  (SignPSS rand priv hashed salt = Ok sg
   \/ (rand <> None /\ SignPSS rand priv hashed salt = Err ErrRandom))
  /\ SetBytes sg = SetBytes em ^ D priv mod n
  /\ 0 <= SetBytes em < n
  /\ len em = (BitLen n - 1 + 7) ÷ 8.
Proof.
  intros Hv Hpc Hh Hfit n em sg.
  pose proof (valid_key_N priv Hv) as HN. fold n in HN.
  pose proof (BitLen_spec n ltac:(lia)) as [Hlo Hhi].
  pose proof (BitLen_nonneg n) as Hbl.
  pose proof (len_nonneg salt) as Hs0.
  assert (Hq : (BitLen n - 1 + 7) ÷ 8 = (BitLen n - 1 + 7) / 8).
  { apply Z.quot_div_nonneg; [|lia].
    destruct (Z.le_gt_cases 0 (BitLen n - 1 + 7)); [assumption|].
    exfalso. fold n in Hfit.
    assert ((BitLen n - 1 + 7) / 8 < 0) by (apply Z.div_lt_upper_bound; lia). lia. }
  fold n in Hfit. rewrite <- Hq in Hfit.
  pose proof (pss_encoding_bound hashed salt (BitLen n - 1) hash_New Hfit) as Hem.
  fold em in Hem.
  assert (Hm : 0 <= SetBytes em < n) by lia.
  set (c := SetBytes em ^ D priv mod n) in *.
  assert (Hc : 0 <= c < n) by (apply Z.mod_pos_bound; lia).
  assert (Hc8 : 0 <= c < 2 ^ (8 * Z.of_nat (byte_count n))).
  { split; [lia|]. pose proof (byte_count_bound n ltac:(lia)). lia. }
  split; [|split; [|split]].
  - unfold SignPSS. fold n.
    rewrite emsaPSSEncode_spec by assumption. cbn [bind]. fold em.
    assert (Hmk : make ((BitLen n + 7) ÷ 8) = Ok (repeat bzero (byte_count n))).
    { rewrite Z.quot_div_nonneg by lia. apply make_ok. apply Z.div_pos; lia. }
    assert (Hcp : copyWithLeftPad (repeat bzero (byte_count n)) (Bytes c) = Ok sg).
    { apply copyWithLeftPad_spec. rewrite length_Bytes.
      apply byte_count_le. assumption. }
    destruct rand as [rd|].
    + destruct (decrypt_blinded priv (SetBytes em) rd Hv Hpc ltac:(lia)) as [Hd|Hd];
        rewrite Hd; cbn [bind]; [left|right; split; [discriminate|reflexivity]].
      fold n. fold c. rewrite Hmk. cbn [bind]. exact Hcp.
    + left. rewrite decrypt_unblinded by (try assumption; lia). cbn [bind].
      fold n. fold c. rewrite Hmk. cbn [bind]. exact Hcp.
  - apply SetBytes_leftpad. assumption.
  - assumption.
  - apply length_pss_encoding. assumption.
Qed.

Lemma VerifyPSS_of_signature (priv : PrivateKey) (hashed salt sg : list byte) :
  valid_key priv = true ->
  len hashed = Z.of_nat Size ->
  Z.of_nat Size + len salt + 2 <= (BitLen (N (Pub priv)) - 1 + 7) / 8 ->
  let n := N (Pub priv) in
  let em := pss_encoding hashed (BitLen n - 1) salt hash_New in
  SetBytes sg = SetBytes em ^ D priv mod n ->
  VerifyPSS (Pub priv) hashed sg (len salt) = Ok tt.
Proof.
  intros Hv Hh Hfit n em Hsg.
  pose proof (valid_key_N priv Hv) as HN. fold n in HN.
  destruct (valid_key_facts priv Hv) as (_ & _ & _ & _ & He & Hd & _).
  pose proof (BitLen_spec n ltac:(lia)) as [Hlo Hhi].
  pose proof (BitLen_nonneg n) as Hbl.
  pose proof (len_nonneg salt) as Hs0.
  assert (Hq : (BitLen n - 1 + 7) ÷ 8 = (BitLen n - 1 + 7) / 8).
  { apply Z.quot_div_nonneg; [|lia].
    destruct (Z.le_gt_cases 0 (BitLen n - 1 + 7)); [assumption|].
    exfalso. fold n in Hfit.
    assert ((BitLen n - 1 + 7) / 8 < 0) by (apply Z.div_lt_upper_bound; lia). lia. }
  fold n in Hfit. rewrite <- Hq in Hfit.
  pose proof (pss_encoding_bound hashed salt (BitLen n - 1) hash_New Hfit) as Hem.
  pose proof (length_pss_encoding hashed salt (BitLen n - 1) hash_New Hfit) as Hlen.
  fold em in Hem, Hlen.
  unfold VerifyPSS, encrypt. fold n. rewrite Hsg.
  rewrite big_Exp_pos by lia.
  rewrite Z.mod_pow_l, <- Z.pow_mul_r by lia.
  rewrite (Z.mul_comm (D priv)).
  pose proof (rsa_identity priv (SetBytes em) Hv) as Hid. fold n in Hid.
  rewrite Hid, Z.mod_small by lia.
  set (emLen := (BitLen n - 1 + 7) ÷ 8) in *.
  assert (HemLen : emLen = Z.of_nat (length em)) by (unfold len in Hlen; lia).
  assert (Hbc : (byte_count (SetBytes em) <= length em)%nat).
  { apply byte_count_le. pose proof (SetBytes_bound em). unfold len in *. lia. }
  unfold len at 1. rewrite length_Bytes.
  destruct (Z.ltb_spec emLen (Z.of_nat (byte_count (SetBytes em)))); [lia|].
  rewrite make_ok by lia. cbn [bind].
  rewrite HemLen, Nat2Z.id.
  rewrite copyWithLeftPad_spec by (rewrite length_Bytes; assumption). cbn [bind].
  rewrite leftpad_SetBytes.
  apply emsaPSS_roundtrip; assumption.
Qed.

End Sign_Verify.

(** ** emsaPSSEncode over the store *)

Lemma upd_last_array (hp : heap) (buf buf' : list byte) :
  List.upd (hp ++ [buf]) (length hp) buf' = hp ++ [buf'].
Proof.
  rewrite List.upd_firstn_skipn by (rewrite length_app; simpl; lia).
  rewrite firstn_app, firstn_all, Nat.sub_diag, firstn_O, app_nil_r.
  f_equal. rewrite skipn_all2 by (rewrite length_app; simpl; lia).
  reflexivity.
Qed.

Lemma nth_last_array (hp : heap) (buf : list byte) :
  nth (length hp) (hp ++ [buf]) [] = buf.
Proof. rewrite app_nth2, Nat.sub_diag by lia. reflexivity. Qed.

Lemma heap_load_old (hp : heap) (buf : list byte) (s : sliceref) :
  (s_arr s < length hp)%nat -> heap_load (hp ++ [buf]) s = heap_load hp s.
Proof. intros Hs. unfold heap_load. rewrite app_nth1 by assumption. reflexivity. Qed.

Lemma heap_load_new (hp : heap) (buf : list byte) (off n : nat) :
  heap_load (hp ++ [buf]) {| s_arr := length hp; s_off := off; s_len := n |}
  = firstn n (skipn off buf).
Proof. unfold heap_load. cbn [s_arr s_off s_len]. rewrite nth_last_array. reflexivity. Qed.

Lemma heap_get_new (hp : heap) (buf : list byte) (off n i : nat) :
  heap_get (hp ++ [buf]) {| s_arr := length hp; s_off := off; s_len := n |} i
  = nth (off + i) buf bzero.
Proof. unfold heap_get. cbn [s_arr s_off s_len]. rewrite nth_last_array. reflexivity. Qed.

Lemma heap_set_new (hp : heap) (buf : list byte) (off n i : nat) (b : byte) :
  heap_set (hp ++ [buf]) {| s_arr := length hp; s_off := off; s_len := n |} i b
  = hp ++ [List.upd buf (off + i) b].
Proof.
  unfold heap_set. cbn [s_arr s_off s_len].
  rewrite nth_last_array. apply upd_last_array.
Qed.

Lemma heap_copy_new (hp : heap) (buf bs : list byte) (off n : nat) :
  heap_copy (hp ++ [buf]) {| s_arr := length hp; s_off := off; s_len := n |} bs
  = hp ++ [List.upds buf off (firstn n bs)].
Proof.
  unfold heap_copy. cbn [s_arr s_off s_len].
  rewrite nth_last_array. apply upd_last_array.
Qed.

Lemma length_heap_load (hp : heap) (s : sliceref) :
  in_heap hp s -> length (heap_load hp s) = s_len s.
Proof.
  intros [_ Hb]. unfold heap_load. rewrite length_firstn, length_skipn. lia.
Qed.

Section Heap_facts.
Context {HF : Hash}.

Lemma length_xor_digest (digest out : list byte) (done : nat) :
  length (fst (xor_digest out done digest)) = length out.
Proof.
  revert out done. induction digest as [|d digest IH]; intros out done; simpl.
  - reflexivity.
  - destruct (done <? length out)%nat; [|reflexivity].
    rewrite IH. apply List.upd_length.
Qed.

Lemma xor_digest_h_sim (hp : heap) (tail digest : list byte) :
  forall (out : list byte) (done L : nat),
  L = length out ->
  xor_digest_h (hp ++ [out ++ tail])
    {| s_arr := length hp; s_off := 0; s_len := L |} done digest
  = (hp ++ [fst (xor_digest out done digest) ++ tail],
     snd (xor_digest out done digest)).
Proof.
  induction digest as [|d digest IH]; intros out done L HL; cbn [xor_digest_h xor_digest].
  - reflexivity.
  - cbn [s_len]. subst L.
    destruct (Nat.ltb_spec done (length out)) as [Hlt|Hge]; [|reflexivity].
    rewrite heap_get_new, heap_set_new. cbn [Nat.add].
    rewrite app_nth1 by assumption.
    unfold List.upd at 1. rewrite List.upds_app1 by (simpl; lia).
    fold (List.upd out done (byte.xor (nth done out bzero) d)).
    apply IH. symmetry. apply List.upd_length.
Qed.

Lemma mgf1_loop_h_sim (hp : heap) (h rest : list byte) (fuel : nat) :
  forall (out : list byte) (st : hstate) (c : counter) (done L : nat),
  L = length out ->
  mgf1_loop_h fuel (hp ++ [out ++ h ++ rest])
    {| s_arr := length hp; s_off := 0; s_len := L |} st
    {| s_arr := length hp; s_off := L; s_len := length h |} c done
  = match mgf1_loop fuel out st h c done with
    | Some (out', st') => Some (hp ++ [out' ++ h ++ rest], st')
    | None => None
    end.
Proof.
  induction fuel as [|fuel IH]; intros out st c done L HL;
    cbn [mgf1_loop_h mgf1_loop s_len]; subst L;
    destruct (length out <=? done)%nat; try reflexivity.
  rewrite heap_load_new, skipn_app, skipn_all2, Nat.sub_diag by lia.
  cbn [app skipn]. rewrite firstn_app, firstn_all, Nat.sub_diag, firstn_O, app_nil_r.
  rewrite xor_digest_h_sim by reflexivity.
  destruct (xor_digest out done _) as [out' done'] eqn:Ex. cbn [fst snd].
  assert (Hl : length out' = length out).
  { pose proof (length_xor_digest (Sum (hash_Write (hash_Write st h) (counter_bytes c)))
                  out done) as Hlx.
    rewrite Ex in Hlx. exact Hlx. }
  rewrite <- Hl. apply IH. reflexivity.
Qed.

Lemma emsaPSSEncode_h_spec (hp : heap) (mHash salt : sliceref) (emBits : Z)
    (st : hstate) :
  in_heap hp mHash -> in_heap hp salt ->
  Z.of_nat (s_len mHash) = Z.of_nat Size ->
  Z.of_nat Size + Z.of_nat (s_len salt) + 2 <= (emBits + 7) ÷ 8 ->
  emsaPSSEncode_h hp mHash emBits salt st
  = (Ok {| s_arr := length hp; s_off := 0;
           s_len := Z.to_nat ((emBits + 7) ÷ 8) |},
     hp ++ [pss_encoding (heap_load hp mHash) emBits (heap_load hp salt) st]).
Proof.
  intros HmH HsH Hm Hfit. unfold emsaPSSEncode_h, pss_encoding.
  set (emLen := (emBits + 7) ÷ 8) in *.
  destruct (emBits_bounds emBits ltac:(fold emLen; lia)) as [Hbits Htop].
  fold emLen in Htop.
  rewrite Hm, Z.eqb_refl. cbn [negb].
  destruct (Z.ltb_spec emLen (Z.of_nat Size + Z.of_nat (s_len salt) + 2)) as [|_];
    [lia|].
  unfold heap_make, subslice. cbn [s_arr s_off s_len Nat.add].
  pose proof (length_heap_load hp salt HsH) as Hsl.
  pose proof (length_heap_load hp mHash HmH) as Hml.
  destruct HmH as [HmA _]. destruct HsH as [HsA _].
  rewrite !heap_load_old by assumption.
  set (saltv := heap_load hp salt) in *. set (mv := heap_load hp mHash) in *.
  unfold hash_Write, hash_Reset. rewrite (firstn_all2 (n := 8) prefix) by reflexivity.
  rewrite <- !app_assoc. fold (pss_H mv saltv st).
  set (h := pss_H mv saltv st).
  assert (Hh : length h = Size) by apply Sum_length.
  set (ps := (Z.to_nat emLen - length saltv - Size - 2)%nat).
  assert (HemLen : Z.to_nat emLen = (ps + 1 + length saltv + Size + 1)%nat) by lia.
  replace (Z.to_nat (emLen - Z.of_nat (s_len salt) - Z.of_nat Size - 2 + 1
                     + Z.of_nat (s_len salt)))
    with (ps + 1 + length saltv)%nat by lia.
  replace (Z.to_nat (emLen - Z.of_nat (s_len salt) - Z.of_nat Size - 2))
    with ps by lia.
  replace (Z.to_nat (emLen - Z.of_nat (s_len salt) - Z.of_nat Size - 1))
    with (ps + 1)%nat by lia.
  replace (Z.to_nat (emLen - 1)) with (ps + 1 + length saltv + Size)%nat by lia.
  set (zs := repeat bzero (length saltv)).
  assert (Hzs : length zs = length saltv) by apply repeat_length.
  set (PS := repeat bzero ps).
  assert (HPS : length PS = ps) by apply repeat_length.
  replace (repeat bzero (Z.to_nat emLen))
    with ((PS ++ [bzero] ++ zs) ++ repeat bzero Size ++ [bzero]).
  2:{ rewrite HemLen, !repeat_app, <- !app_assoc. reflexivity. }
  rewrite heap_copy_new.
  replace (ps + 1 + length saltv + Size - (ps + 1 + length saltv))%nat
    with Size by lia.
  rewrite (firstn_all2 (n := Size) h) by lia.
  pose proof (store_at (PS ++ [bzero] ++ zs) (repeat bzero Size) [bzero] h
                (Z.of_nat (ps + 1 + length saltv))) as Hs1.
  unfold store in Hs1. rewrite Nat2Z.id in Hs1. rewrite Hs1; clear Hs1.
  2:{ rewrite !len_app. unfold len. cbn [length]. lia. }
  2:{ rewrite repeat_length. exact Hh. }
  rewrite heap_set_new. cbn [Nat.add].
  replace ((PS ++ [bzero] ++ zs) ++ h ++ [bzero])
    with (PS ++ bzero :: (zs ++ h ++ [bzero]))
    by (rewrite <- !app_assoc; reflexivity).
  pose proof (upd_middle PS (zs ++ h ++ [bzero]) bzero x01) as Hu.
  rewrite HPS in Hu. rewrite Hu; clear Hu.
  rewrite !heap_load_old by assumption. fold saltv.
  rewrite heap_copy_new, !Nat.sub_0_r.
  replace (ps + 1 + length saltv - (ps + 1))%nat with (length saltv) by lia.
  rewrite firstn_all.
  replace (PS ++ x01 :: zs ++ h ++ [bzero])
    with ((PS ++ [x01]) ++ zs ++ (h ++ [bzero]))
    by (rewrite <- !app_assoc; reflexivity).
  pose proof (store_at (PS ++ [x01]) zs (h ++ [bzero]) saltv
                (Z.of_nat (ps + 1))) as Hs2.
  unfold store in Hs2. rewrite Nat2Z.id in Hs2. rewrite Hs2; clear Hs2.
  2:{ rewrite len_app. unfold len. cbn [length]. lia. }
  2:{ lia. }
  replace ((PS ++ [x01]) ++ saltv ++ h ++ [bzero])
    with (pss_DB (Z.to_nat emLen) saltv ++ h ++ [bzero])
    by (unfold pss_DB; fold ps; fold PS; rewrite <- !app_assoc; reflexivity).
  set (DB := pss_DB (Z.to_nat emLen) saltv).
  assert (HDB : length DB = (ps + 1 + length saltv)%nat).
  { unfold DB, pss_DB. fold ps. rewrite !length_app, repeat_length.
    cbn [length]. lia. }
  unfold mgf1XOR_h. cbn [s_len].
  rewrite <- HDB at 1 2 3. rewrite <- Hh at 1.
  rewrite mgf1_loop_h_sim by reflexivity.
  fold (mgf1XOR DB [] h). rewrite mgf1XOR_spec.
  set (db := xor_bytes DB (mgf1_mask [] h (length DB))).
  assert (Hdb : length db = length DB).
  { unfold db. rewrite length_xor_bytes, length_mgf1_mask. lia. }
  destruct db as [|b tl]; [simpl in Hdb; lia|].
  rewrite heap_get_new, heap_set_new. cbn [app Nat.add nth].
  rewrite to_uint_small by lia.
  pose proof (upd_middle [] (tl ++ h ++ [bzero]) b) as Hu. cbn [app length] in Hu.
  rewrite Hu; clear Hu.
  rewrite heap_set_new. cbn [Nat.add].
  rewrite app_comm_cons, app_assoc.
  replace (ps + 1 + length saltv + Size)%nat
    with (length ((byte.and b (byte_shr xFF (8 * emLen - emBits)) :: tl) ++ h)).
  2:{ rewrite length_app. cbn [length]. simpl in Hdb. lia. }
  rewrite upd_middle, <- app_assoc.
  cbn [clear_top app]. rewrite Z2Nat.id by lia. reflexivity.
Qed.

End Heap_facts.

(** ** Outcomes of emsaPSSVerify *)

Section Verify_outcomes.
Context {HF : Hash}.



Lemma split_em (em : list byte) (a hl : nat) :
  length em = (a + hl + 1)%nat ->
  em = firstn a em ++ firstn hl (skipn a em) ++ [last em bzero].
Proof.
  intros Hl.
  rewrite <- (firstn_skipn a em) at 1. f_equal.
  rewrite <- (firstn_skipn hl (skipn a em)) at 1. f_equal.
  assert (Hl1 : length (skipn hl (skipn a em)) = 1%nat)
    by (rewrite !length_skipn; lia).
  rewrite <- (firstn_skipn a em) at 2.
  rewrite <- (firstn_skipn hl (skipn a em)) at 2.
  destruct (skipn hl (skipn a em)) as [|x [|y l]]; simpl in Hl1; try lia.
  rewrite app_assoc, last_last. reflexivity.
Qed.


End Verify_outcomes.

(** ** Errors of emsaPSSEncode *)

Section Encode_errors.
Context {HF : Hash}.

Lemma emsaPSSEncode_wrong_digest (mHash : list byte) (emBits : Z)
    (salt : list byte) (st : hstate) :
  len mHash <> Z.of_nat Size ->
  emsaPSSEncode mHash emBits salt st = Err ErrHashedMessage.
Proof.
  intros Hm. unfold emsaPSSEncode.
  destruct (Z.eqb_spec (len mHash) (Z.of_nat Size)); [contradiction|reflexivity].
Qed.

Lemma emsaPSSEncode_too_small (mHash : list byte) (emBits : Z)
    (salt : list byte) (st : hstate) :
  len mHash = Z.of_nat Size ->
  (emBits + 7) ÷ 8 < Z.of_nat Size + len salt + 2 ->
  emsaPSSEncode mHash emBits salt st = Err ErrEncoding.
Proof.
  intros Hm Hfit. unfold emsaPSSEncode. rewrite Hm, Z.eqb_refl. cbn [negb].
  destruct (Z.ltb_spec ((emBits + 7) ÷ 8) (Z.of_nat Size + len salt + 2));
    [reflexivity|lia].
Qed.

(** [(emBits+7)/8] as Go computes it (truncating) against the ceiling of
    [emBits/8]: they differ only when both are at most 0. *)
Lemma emLen_ceiling (emBits x : Z) :
  2 <= x -> ((emBits + 7) ÷ 8 < x <-> (emBits + 7) / 8 < x).
Proof.
  intros Hx. destruct (Z.le_gt_cases 0 (emBits + 7)) as [Hnn|Hneg].
  - rewrite Z.quot_div_nonneg by lia. reflexivity.
  - assert ((emBits + 7) / 8 < 0) by (apply Z.div_lt_upper_bound; lia).
    assert ((emBits + 7) ÷ 8 <= 0).
    { rewrite <- (Z.opp_involutive (emBits + 7)), Z.quot_opp_l by lia.
      assert (0 <= (- (emBits + 7)) ÷ 8) by (apply Z.quot_pos; lia). lia. }
    split; lia.
Qed.

End Encode_errors.

(** ** Blinding and the range check of decrypt *)

Lemma decrypt_blinded_ok (priv : PrivateKey) (c r ir : Z) (rd : Reader) :
  valid_key priv = true -> precomputed_ok priv = true ->
  c <= N (Pub priv) ->
  draw_blind rd (N (Pub priv)) = Ok (r, ir) ->
  decrypt (Some rd) priv c = Ok (c ^ D priv mod N (Pub priv)).
Proof.
  intros Hv Hpc Hc Hdraw.
  destruct (decrypt_blinded priv c rd Hv Hpc Hc) as [Hd|Hd]; [exact Hd|].
  exfalso. unfold decrypt in Hd.
  destruct (Z.gtb_spec c (N (Pub priv))); [lia|].
  rewrite Hdraw in Hd. cbn [bind] in Hd.
  pose proof (valid_key_N priv Hv) as HN.
  rewrite (big_Mod_pos (c * _)) in Hd by lia. cbn [bind] in Hd.
  rewrite decrypt_exp_ok in Hd by assumption. cbn [bind] in Hd.
  rewrite big_Mod_pos in Hd by lia. discriminate.
Qed.

Lemma decrypt_blind_eq (priv : PrivateKey) (c r ir : Z) (rd : Reader) :
  valid_key priv = true -> precomputed_ok priv = true ->
  draw_blind rd (N (Pub priv)) = Ok (r, ir) ->
  decrypt (Some rd) priv c = decrypt None priv c.
Proof.
  intros Hv Hpc Hdraw.
  destruct (Z.le_gt_cases c (N (Pub priv))) as [Hc|Hc].
  - rewrite (decrypt_blinded_ok priv c r ir rd), decrypt_unblinded by assumption.
    reflexivity.
  - unfold decrypt. destruct (Z.gtb_spec c (N (Pub priv))); [reflexivity|lia].
Qed.

Lemma crt_loop_outcome (ps : list Z) (c : Z) (values : list CRTValue) :
  forall (i : nat) (m : Z),
  (exists m', crt_loop ps c i values m = Ok m') \/ crt_loop ps c i values m = Panic.
Proof.
  induction values as [|v values IH]; intros i m; cbn [crt_loop].
  - left. eauto.
  - unfold prime_at, big_Mod.
    destruct (nth_error ps (2 + i)) as [prime|]; cbn [bind]; [|auto].
    destruct (prime =? 0); cbn [bind]; [auto|]. apply IH.
Qed.

Lemma decrypt_exp_outcome (priv : PrivateKey) (c : Z) :
  (exists m, decrypt_exp priv c = Ok m) \/ decrypt_exp priv c = Panic.
Proof.
  unfold decrypt_exp, prime_at, deref, big_Mod.
  destruct (Dp (Precomputed priv)); [|left; eauto].
  destruct (nth_error (Primes priv) 0) as [p|]; cbn [bind]; [|auto].
  destruct (Dq (Precomputed priv)); cbn [bind]; [|auto].
  destruct (nth_error (Primes priv) 1) as [q|]; cbn [bind]; [|auto].
  destruct (Qinv (Precomputed priv)); cbn [bind]; [|auto].
  destruct (p =? 0); cbn [bind]; [auto|]. apply crt_loop_outcome.
Qed.

Lemma draw_blind_error (rd : Reader) (n : Z) (e : error) :
  draw_blind rd n = Err e -> e = ErrRandom.
Proof.
  induction rd as [|x rd IH]; cbn [draw_blind]; destruct (n <=? 0);
    try discriminate; try congruence.
  destruct (modInverse _ n); [discriminate|exact IH].
Qed.

(** The guard of [decrypt] is [c > N]: it is the only source of
    [ErrDecryption], and it lets [c = N] through. *)
Lemma decrypt_range (random : option Reader) (priv : PrivateKey) (c : Z) :
  decrypt random priv c = Err ErrDecryption <-> N (Pub priv) < c.
Proof.
  unfold decrypt. destruct (Z.gtb_spec c (N (Pub priv))) as [Hgt|Hle].
  - split; [lia|reflexivity].
  - split; [|lia]. intros Hd. exfalso.
    destruct random as [rd|]; cbn [bind] in Hd.
    + destruct (draw_blind rd (N (Pub priv))) as [[r ir]|e| |] eqn:Edraw;
        cbn [bind] in Hd; try discriminate.
      * unfold big_Mod in Hd.
        destruct (N (Pub priv) =? 0); cbn [bind] in Hd; [discriminate|].
        destruct (decrypt_exp_outcome priv
                    (c * big_Exp r (E (Pub priv)) (N (Pub priv))
                     mod Z.abs (N (Pub priv)))) as [[m Hm]|Hm];
          rewrite Hm in Hd; cbn [bind] in Hd; discriminate.
      * apply draw_blind_error in Edraw. congruence.
    + destruct (decrypt_exp_outcome priv c) as [[m Hm]|Hm];
        rewrite Hm in Hd; cbn [bind] in Hd; discriminate.
Qed.

(** ** The signature integer is only used modulo N *)

Section Verify_residue.
Context {HF : Hash}.

Lemma VerifyPSS_residue (pub : PublicKey) (hashed sg sg' : list byte) (sLen : Z) :
  0 < N pub ->
  SetBytes sg' mod N pub = SetBytes sg mod N pub ->
  VerifyPSS pub hashed sg' sLen = VerifyPSS pub hashed sg sLen.
Proof.
  intros HN Hres. unfold VerifyPSS.
  assert (He : encrypt pub (SetBytes sg') = encrypt pub (SetBytes sg)).
  { unfold encrypt, big_Exp.
    destruct (E pub <=? 0); [reflexivity|].
    destruct (Z.eqb_spec (N pub) 0); [lia|].
    rewrite Z.abs_eq by lia.
    rewrite <- (Z.mod_pow_l (SetBytes sg')), <- (Z.mod_pow_l (SetBytes sg)).
    rewrite Hres. reflexivity. }
  rewrite He. reflexivity.
Qed.

(** A signature plus the modulus is accepted whenever the signature is. *)
Lemma VerifyPSS_plus_modulus (pub : PublicKey) (hashed sg : list byte) (sLen : Z) :
  0 < N pub ->
  VerifyPSS pub hashed (Bytes (SetBytes sg + N pub)) sLen
  = VerifyPSS pub hashed sg sLen.
Proof.
  intros HN. apply VerifyPSS_residue; [assumption|].
  pose proof (SetBytes_bound sg) as Hb.
  set (x := SetBytes sg + N pub).
  assert (Hx : 0 <= x) by (unfold x; lia).
  assert (Hround : SetBytes (Bytes x) = x).
  { pose proof (SetBytes_leftpad (byte_count x) x
                  (conj Hx (byte_count_bound x Hx))) as Hl.
    unfold leftpad in Hl. rewrite length_Bytes, Nat.sub_diag in Hl.
    exact Hl. }
  rewrite Hround. unfold x.
  rewrite <- (Z.mul_1_l (N pub)) at 1. apply Z.mod_add. lia.
Qed.

End Verify_residue.

(** ** Shape of the encoded message *)

Lemma pss_encoding_shape {HF : Hash} (mHash salt : list byte) (emBits : Z)
    (st : hstate) :
  Z.of_nat Size + len salt + 2 <= (emBits + 7) ÷ 8 ->
  let em := pss_encoding mHash emBits salt st in
  last em bzero = xBC
  /\ byte.unsigned (hd bzero em) < 2 ^ (8 - (8 * ((emBits + 7) ÷ 8) - emBits)).
Proof.
  intros Hfit em. subst em. unfold pss_encoding.
  pose proof (len_nonneg salt) as Hs0.
  destruct (emBits_bounds emBits ltac:(lia)) as [Hbits Htop].
  set (emLen := (emBits + 7) ÷ 8) in *.
  rewrite Z2Nat.id by lia.
  split.
  - rewrite app_assoc. apply last_last.
  - set (db := xor_bytes _ _).
    destruct db as [|d tl] eqn:Edb.
    { exfalso. apply (f_equal (@length _)) in Edb. subst db.
      rewrite length_xor_bytes, length_mgf1_mask, Nat.min_id, pss_DB_length in Edb
        by (unfold len in *; lia).
      simpl in Edb. unfold len in *. lia. }
    cbn [clear_top app hd]. apply clear_top_bound. lia.
Qed.


(** ** incCounter *)

Lemma unsigned_byte_incr (b : byte) :
  byte.unsigned (byte_incr b)
  = if byte.unsigned b =? 255 then 0 else byte.unsigned b + 1.
Proof.
  unfold byte_incr. rewrite byte.unsigned_of_Z. unfold byte.wrap.
  pose proof (byte.unsigned_range b) as Hb.
  destruct (Z.eqb_spec (byte.unsigned b) 255) as [->|Hne]; [reflexivity|].
  apply Z.mod_small. change (2 ^ 8) with 256 in *. lia.
Qed.

Lemma byte_incr_zero (b : byte) :
  byte_eqb (byte_incr b) bzero = (byte.unsigned b =? 255).
Proof.
  unfold byte_eqb. rewrite unsigned_byte_incr.
  pose proof (byte.unsigned_range b) as Hb.
  change (byte.unsigned bzero) with 0.
  destruct (Z.eqb_spec (byte.unsigned b) 255); [reflexivity|].
  apply Z.eqb_neq. lia.
Qed.

(** [incCounter] adds one to the big-endian value of the four bytes,
    wrapping at [2^32]. *)
Lemma incCounter_value (c : counter) :
  counter_value (incCounter c) = (counter_value c + 1) mod 2 ^ 32.
Proof.
  destruct c as [[[c0 c1] c2] c3]. unfold incCounter, counter_value.
  pose proof (byte.unsigned_range c0) as H0.
  pose proof (byte.unsigned_range c1) as H1.
  pose proof (byte.unsigned_range c2) as H2.
  pose proof (byte.unsigned_range c3) as H3.
  change (2 ^ 8) with 256 in *. change (2 ^ 32) with 4294967296.
  rewrite !byte_incr_zero.
  destruct (Z.eqb_spec (byte.unsigned c3) 255) as [E3|E3]; cbn [negb].
  2:{ rewrite unsigned_byte_incr.
      destruct (Z.eqb_spec (byte.unsigned c3) 255); [contradiction|].
      rewrite Z.mod_small; lia. }
  destruct (Z.eqb_spec (byte.unsigned c2) 255) as [E2|E2]; cbn [negb].
  2:{ rewrite !unsigned_byte_incr, E3.
      destruct (Z.eqb_spec (byte.unsigned c2) 255); [contradiction|].
      cbn [Z.eqb Pos.eqb]. rewrite Z.mod_small; lia. }
  destruct (Z.eqb_spec (byte.unsigned c1) 255) as [E1|E1]; cbn [negb].
  2:{ rewrite !unsigned_byte_incr, E3, E2.
      destruct (Z.eqb_spec (byte.unsigned c1) 255); [contradiction|].
      cbn [Z.eqb Pos.eqb]. rewrite Z.mod_small; lia. }
  rewrite !unsigned_byte_incr, E3, E2, E1. cbn [Z.eqb Pos.eqb].
  destruct (Z.eqb_spec (byte.unsigned c0) 255) as [E0|E0].
  - rewrite E0. reflexivity.
  - rewrite Z.mod_small; lia.
Qed.

Lemma counter_value_iter (i : nat) :
  counter_value (Nat.iter i incCounter counter_zero) = Z.of_nat i mod 2 ^ 32.
Proof.
  induction i as [|i IH].
  - reflexivity.
  - rewrite Nat.iter_succ, incCounter_value, IH.
    rewrite Z.add_mod_idemp_l by (apply Z.pow_nonzero; lia).
    f_equal. lia.
Qed.

Lemma flat_map_seq_shift {A : Type} (f : nat -> list A) (a k : nat) :
  flat_map f (seq (S a) k) = flat_map (fun i => f (S i)) (seq a k).
Proof.
  revert a. induction k as [|k IH]; intros a; [reflexivity|].
  cbn [seq flat_map]. rewrite IH. reflexivity.
Qed.

Section MGF1_blocks.
Context {HF : Hash}.

(** With a freshly reset instance the mask is
    [Hash(seed || C_0) || Hash(seed || C_1) || ...], truncated. *)
Lemma mgf1_blocks_counters (seed : list byte) (k : nat) (c : counter) :
  mgf1_blocks [] seed c k
  = flat_map (fun i => Sum (seed ++ counter_bytes (Nat.iter i incCounter c)))
             (seq 0 k).
Proof.
  revert c. induction k as [|k IH]; intros c; [reflexivity|].
  cbn [mgf1_blocks seq flat_map app]. f_equal.
  rewrite IH, flat_map_seq_shift.
  apply flat_map_ext. intros i. rewrite Nat.iter_succ_r. reflexivity.
Qed.

End MGF1_blocks.

Example incCounter_carry :
  incCounter (Byte.x00, Byte.x00, Byte.xff, Byte.xff)
  = (Byte.x00, Byte.x01, Byte.x00, Byte.x00)
  /\ incCounter (Byte.xff, Byte.xff, Byte.xff, Byte.xff) = counter_zero.
Proof. split; reflexivity. Qed.

Example mgf1XOR_toy :
  mgf1XOR (HF := toy_hash) [Byte.x00; Byte.x00; Byte.x00] [] [Byte.x01]
  = Some ([Byte.x40; Byte.xe3; Byte.x40], []).
Proof. vm_compute. reflexivity. Qed.

(** ** The model at work *)

Example toy_keys_valid :
  valid_key key9 = true /\ valid_key key9_crt = true
  /\ crt_consistent key9_crt = true
  /\ valid_key key91 = true /\ crt_consistent key91_crt = true.
Proof. vm_compute. repeat split; reflexivity. Qed.

Example toy_signature :
  SignPSS (HF := toy_hash) None key9 toy_digest_ab toy_salt
  = Ok [Byte.x04; Byte.x8b; Byte.x35; Byte.x79; Byte.x36].
Proof. vm_compute. reflexivity. Qed.

(** The first draw shares a factor with [N] and is given up. *)
Example toy_signature_blinded :
  SignPSS (HF := toy_hash) (Some [12345; 1000003]) key9_crt toy_digest_ab toy_salt
  = Ok [Byte.x04; Byte.x8b; Byte.x35; Byte.x79; Byte.x36]
  /\ SignPSS (HF := toy_hash) (Some [12345]) key9_crt toy_digest_ab toy_salt
     = Err ErrRandom.
Proof. vm_compute. split; reflexivity. Qed.

Example toy_verification :
  VerifyPSS (HF := toy_hash) key9_pub toy_digest_ab
    [Byte.x04; Byte.x8b; Byte.x35; Byte.x79; Byte.x36] 1 = Ok tt
  /\ VerifyPSS (HF := toy_hash) key9_pub toy_digest_ab
       [Byte.x04; Byte.x8b; Byte.x35; Byte.x79; Byte.x37] 1 = Err ErrVerification
  /\ VerifyPSS (HF := toy_hash) key9_pub toy_digest_ab
       [Byte.x04; Byte.x8b; Byte.x35; Byte.x79; Byte.x36] 0 = Err ErrVerification.
Proof. vm_compute. repeat split; reflexivity. Qed.

(** A salt that does not fit, and an encoded message that is too short for
    its [emBits] (an index out of range in Go). *)
Example toy_failures :
  SignPSS (HF := toy_hash) None key9 toy_digest_ab [Byte.x01; Byte.x02]
  = Err ErrEncoding
  /\ emsaPSSVerify (HF := toy_hash) toy_digest_ab [] 34 (-4) [] = Panic.
Proof. vm_compute. split; reflexivity. Qed.

(** * Main results *)

(** C1. Round trip.  For a valid key pair over one modulus [N], a digest of
    [hLen] bytes and a salt with [emLen >= hLen + sLen + 2], where
    [emLen = ceil((bitlen(N) - 1)/8)]: signing without a random source
    returns a signature, and every signature that [SignPSS] returns, with
    any random source, is accepted by [VerifyPSS] for [len(salt)]. *)
Theorem C1_sign_verify_roundtrip {HF : Hash} (pub : PublicKey)
    (priv : PrivateKey) (hashed salt : list byte) :
  valid_key priv = true -> precomputed_ok priv = true ->
  N pub = N (Pub priv) -> E pub = E (Pub priv) ->
  len hashed = Z.of_nat Size ->
  Z.of_nat Size + len salt + 2 <= (BitLen (N pub) - 1 + 7) / 8 ->
  (exists sg, SignPSS None priv hashed salt = Ok sg)
  /\ (forall rand sg,
        SignPSS rand priv hashed salt = Ok sg ->
        VerifyPSS pub hashed sg (len salt) = Ok tt).
Proof.
  intros Hv Hpc HN HE Hh Hfit.
  assert (Hpub : pub = Pub priv).
  { destruct pub as [n e], (Pub priv) as [n' e']. simpl in *. congruence. }
  subst pub. clear HN HE.
  split.
  - destruct (SignPSS_spec None priv hashed salt Hv Hpc Hh Hfit)
      as ([Hs|[Hr _]] & _); [eauto|congruence].
  - intros rand sg Hsg.
    destruct (SignPSS_spec rand priv hashed salt Hv Hpc Hh Hfit)
      as ([Hs|[_ Hs]] & Hint & _); [|congruence].
    rewrite Hs in Hsg. inversion Hsg; subst sg.
    apply (VerifyPSS_of_signature priv hashed salt); assumption.
Qed.

Lemma C1_witness :
  valid_key key9_crt = true /\ precomputed_ok key9_crt = true
  /\ len toy_digest_ab = Z.of_nat (@Size toy_hash)
  /\ Z.of_nat (@Size toy_hash) + len toy_salt + 2
     <= (BitLen (N key9_pub) - 1 + 7) / 8
  /\ (exists sg, SignPSS (HF := toy_hash) None key9_crt toy_digest_ab toy_salt = Ok sg)
  /\ (forall rand sg,
        SignPSS (HF := toy_hash) rand key9_crt toy_digest_ab toy_salt = Ok sg ->
        VerifyPSS (HF := toy_hash) key9_pub toy_digest_ab sg (len toy_salt) = Ok tt).
Proof.
  assert (H1 : valid_key key9_crt = true) by (vm_compute; reflexivity).
  assert (H2 : precomputed_ok key9_crt = true) by (vm_compute; reflexivity).
  assert (H3 : len toy_digest_ab = Z.of_nat (@Size toy_hash)) by reflexivity.
  assert (H4 : Z.of_nat (@Size toy_hash) + len toy_salt + 2
               <= (BitLen (N key9_pub) - 1 + 7) / 8)
    by (vm_compute; discriminate).
  repeat (split; [assumption|]).
  exact (C1_sign_verify_roundtrip (HF := toy_hash) key9_pub key9_crt
           toy_digest_ab toy_salt H1 H2 eq_refl eq_refl H3 H4).
Defined.


(** C3.  [VerifyPSS] never compares the signature with the
    modulus: the signature of [toy_digest_ab] under the nine-prime key is
    [04 8b 35 79 36], and the byte string of that integer plus [N],
    [09 30 f3 13 61], exceeds [N] and is accepted as well. *)
Theorem C3_VerifyPSS_accepts_signature_above_modulus :
  let sg := [Byte.x04; Byte.x8b; Byte.x35; Byte.x79; Byte.x36] in
  let sg' := [Byte.x09; Byte.x30; Byte.xf3; Byte.x13; Byte.x61] in
  SignPSS (HF := toy_hash) None key9 toy_digest_ab toy_salt = Ok sg
  /\ SetBytes sg' = SetBytes sg + N key9_pub
  /\ N key9_pub < SetBytes sg'
  /\ VerifyPSS (HF := toy_hash) key9_pub toy_digest_ab sg' 1 = Ok tt.
Proof. vm_compute. repeat split; reflexivity. Qed.

(** C4.  CRT against direct exponentiation.  For a valid key whose
    precomputed values are consistent and a ciphertext [0 <= c < N], the
    CRT branch of [decrypt] is the one taken and returns [c^D mod N], which
    is what the direct branch returns for the same key without precomputed
    values; so [decrypt] gives the same result on both keys, whatever the
    random source. *)
Theorem C4_crt_equals_direct (priv : PrivateKey) (c : Z) :
  valid_key priv = true -> crt_consistent priv = true ->
  0 <= c < N (Pub priv) ->
  Dp (Precomputed priv) <> None
  /\ decrypt_exp priv c = Ok (c ^ D priv mod N (Pub priv))
  /\ decrypt_exp (without_precomputed priv) c = Ok (c ^ D priv mod N (Pub priv))
  /\ (forall random,
        decrypt random priv c = decrypt random (without_precomputed priv) c).
Proof.
  intros Hv Hc Hrange.
  assert (HDp : Dp (Precomputed priv) <> None).
  { unfold crt_consistent in Hc.
    destruct (Primes priv) as [|p [|q rest]]; try discriminate.
    rewrite !andb_true_iff in Hc. destruct Hc as [[[HDp _] _] _].
    apply option_eqb_eq in HDp. congruence. }
  assert (Hpc : precomputed_ok priv = true).
  { unfold precomputed_ok. destruct (Dp (Precomputed priv)); [assumption|reflexivity]. }
  assert (Hv' : valid_key (without_precomputed priv) = true) by exact Hv.
  assert (Hpc' : precomputed_ok (without_precomputed priv) = true) by reflexivity.
  split; [assumption|].
  split; [apply decrypt_exp_crt; assumption|].
  split; [apply (decrypt_exp_ok (without_precomputed priv)); assumption|].
  intros [rd|].
  - pose proof (valid_key_N priv Hv) as HN.
    destruct (draw_blind_outcome rd (N (Pub priv)) ltac:(lia))
      as [(r & ir & Hdraw)|Hdraw].
    + rewrite (decrypt_blinded_ok priv c r ir rd) by (try assumption; lia).
      rewrite (decrypt_blinded_ok (without_precomputed priv) c r ir rd)
        by (try assumption; cbn; lia).
      reflexivity.
    + unfold decrypt. cbn [without_precomputed Pub].
      rewrite Hdraw. reflexivity.
  - rewrite decrypt_unblinded by (try assumption; lia).
    rewrite (decrypt_unblinded (without_precomputed priv))
      by (try assumption; cbn; lia).
    reflexivity.
Qed.

Lemma C4_witness :
  valid_key key9_crt = true /\ crt_consistent key9_crt = true
  /\ 0 <= 1234567 < N (Pub key9_crt)
  /\ Dp (Precomputed key9_crt) <> None
  /\ decrypt_exp key9_crt 1234567 = Ok (1234567 ^ D key9_crt mod N (Pub key9_crt))
  /\ decrypt_exp (without_precomputed key9_crt) 1234567
     = Ok (1234567 ^ D key9_crt mod N (Pub key9_crt))
  /\ (forall random,
        decrypt random key9_crt 1234567
        = decrypt random (without_precomputed key9_crt) 1234567).
Proof.
  assert (H1 : valid_key key9_crt = true) by (vm_compute; reflexivity).
  assert (H2 : crt_consistent key9_crt = true) by (vm_compute; reflexivity).
  assert (H3 : 0 <= 1234567 < N (Pub key9_crt)) by (cbn; lia).
  repeat (split; [assumption|]).
  exact (C4_crt_equals_direct key9_crt 1234567 H1 H2 H3).
Defined.

(** C5.  Blinding equivalence.  For a valid key, a ciphertext
    [0 <= c < N] and a random source whose draws give [decrypt] an
    invertible blinding factor [r] (with inverse [ir]), [decrypt] with
    blinding returns what it returns without, a plaintext; and [SignPSS]
    returns the same signature bytes in both modes. *)
Theorem C5_blinding_equivalence {HF : Hash} (priv : PrivateKey) (c : Z)
    (rd : Reader) (r ir : Z) :
  valid_key priv = true -> precomputed_ok priv = true ->
  0 <= c < N (Pub priv) ->
  draw_blind rd (N (Pub priv)) = Ok (r, ir) ->
  decrypt (Some rd) priv c = decrypt None priv c
  /\ decrypt None priv c = Ok (c ^ D priv mod N (Pub priv))
  /\ (forall hashed salt,
        SignPSS (Some rd) priv hashed salt = SignPSS None priv hashed salt).
Proof.
  intros Hv Hpc Hc Hdraw. split; [|split].
  - apply (decrypt_blind_eq priv c r ir rd); assumption.
  - apply decrypt_unblinded; try assumption. lia.
  - intros hashed salt. unfold SignPSS.
    destruct (emsaPSSEncode hashed _ salt hash_New) as [em|e| |]; cbn [bind];
      try reflexivity.
    rewrite (decrypt_blind_eq priv (SetBytes em) r ir rd) by assumption.
    reflexivity.
Qed.

Lemma C5_witness :
  valid_key key9_crt = true /\ precomputed_ok key9_crt = true
  /\ 0 <= 1234567 < N (Pub key9_crt)
  /\ draw_blind [12345; 1000003] (N (Pub key9_crt)) = Ok (1000003, 15960456262)
  /\ decrypt (Some [12345; 1000003]) key9_crt 1234567
     = decrypt None key9_crt 1234567
  /\ decrypt None key9_crt 1234567
     = Ok (1234567 ^ D key9_crt mod N (Pub key9_crt))
  /\ (forall hashed salt,
        SignPSS (HF := toy_hash) (Some [12345; 1000003]) key9_crt hashed salt
        = SignPSS (HF := toy_hash) None key9_crt hashed salt).
Proof.
  assert (H1 : valid_key key9_crt = true) by (vm_compute; reflexivity).
  assert (H2 : precomputed_ok key9_crt = true) by (vm_compute; reflexivity).
  assert (H3 : 0 <= 1234567 < N (Pub key9_crt)) by (cbn; lia).
  assert (H4 : draw_blind [12345; 1000003] (N (Pub key9_crt))
               = Ok (1000003, 15960456262)) by (vm_compute; reflexivity).
  repeat (split; [assumption|]).
  exact (C5_blinding_equivalence (HF := toy_hash) key9_crt 1234567
           [12345; 1000003] 1000003 15960456262 H1 H2 H3 H4).
Defined.



(** C7.  Errors of the encoder.  With [emLen = ceil(emBits/8)],
    [emsaPSSEncode] returns an error exactly when [len(digest) <> hLen] or
    [emLen < hLen + sLen + 2]: the "input must be hashed message" error in
    the first case, the "encoding error" otherwise; in every other case it
    returns an encoded message.  For a digest of [hLen] bytes,
    [emLen = hLen + sLen + 2] succeeds and [emLen = hLen + sLen + 1]
    fails. *)
Theorem C7_encode_error_conditions {HF : Hash} (mHash : list byte) (emBits : Z)
    (salt : list byte) (st : hstate) :
  let emLen := (emBits + 7) / 8 in
  let hLen := Z.of_nat Size in
  let sLen := len salt in
  ((exists e, emsaPSSEncode mHash emBits salt st = Err e)
   <-> (len mHash <> hLen \/ emLen < hLen + sLen + 2))
  /\ (len mHash <> hLen ->
      emsaPSSEncode mHash emBits salt st = Err ErrHashedMessage)
  /\ (len mHash = hLen -> emLen < hLen + sLen + 2 ->
      emsaPSSEncode mHash emBits salt st = Err ErrEncoding)
  /\ (len mHash = hLen -> hLen + sLen + 2 <= emLen ->
      exists em, emsaPSSEncode mHash emBits salt st = Ok em)
  /\ (len mHash = hLen -> emLen = hLen + sLen + 2 ->
      exists em, emsaPSSEncode mHash emBits salt st = Ok em)
  /\ (len mHash = hLen -> emLen = hLen + sLen + 1 ->
      emsaPSSEncode mHash emBits salt st = Err ErrEncoding).
Proof.
  intros emLen hLen sLen.
  pose proof (len_nonneg salt) as Hs0. fold sLen in Hs0.
  assert (Hx : 2 <= hLen + sLen + 2) by (unfold hLen; lia).
  pose proof (emLen_ceiling emBits (hLen + sLen + 2) Hx) as Hceil.
  fold emLen in Hceil.
  assert (Hbad : len mHash <> hLen ->
                 emsaPSSEncode mHash emBits salt st = Err ErrHashedMessage)
    by apply emsaPSSEncode_wrong_digest.
  assert (Hsmall : len mHash = hLen -> emLen < hLen + sLen + 2 ->
                   emsaPSSEncode mHash emBits salt st = Err ErrEncoding).
  { intros Hm Hlt. apply emsaPSSEncode_too_small; [assumption|].
    apply Hceil. assumption. }
  assert (Hgood : len mHash = hLen -> hLen + sLen + 2 <= emLen ->
                  exists em, emsaPSSEncode mHash emBits salt st = Ok em).
  { intros Hm Hfit. eexists. apply emsaPSSEncode_spec; [assumption|].
    fold hLen sLen.
    destruct (Z.lt_ge_cases ((emBits + 7) ÷ 8) (hLen + sLen + 2)) as [Hlt|Hge];
      [apply Hceil in Hlt; lia | lia]. }
  repeat split; try assumption.
  - intros [e He].
    destruct (Z.eq_dec (len mHash) hLen) as [Hm|Hm]; [|left; assumption].
    right. destruct (Z.lt_ge_cases emLen (hLen + sLen + 2)) as [|Hfit];
      [assumption|].
    destruct (Hgood Hm Hfit) as [em Hem]. congruence.
  - intros [Hm|Hlt].
    + eexists. apply Hbad. assumption.
    + destruct (Z.eq_dec (len mHash) hLen) as [Hm|Hm].
      * eexists. apply Hsmall; assumption.
      * eexists. apply Hbad. assumption.
  - intros Hm He. apply Hgood; [assumption|lia].
  - intros Hm He. apply Hsmall; [assumption|lia].
Qed.

Lemma C7_witness :
  len toy_digest_ab = Z.of_nat (@Size toy_hash)
  /\ (34 + 7) / 8 = Z.of_nat (@Size toy_hash) + len toy_salt + 2
  /\ (26 + 7) / 8 = Z.of_nat (@Size toy_hash) + len toy_salt + 1
  /\ (exists em, emsaPSSEncode (HF := toy_hash) toy_digest_ab 34 toy_salt [] = Ok em)
  /\ emsaPSSEncode (HF := toy_hash) toy_digest_ab 26 toy_salt [] = Err ErrEncoding.
Proof.
  assert (H1 : len toy_digest_ab = Z.of_nat (@Size toy_hash)) by reflexivity.
  assert (H2 : (34 + 7) / 8 = Z.of_nat (@Size toy_hash) + len toy_salt + 2)
    by reflexivity.
  assert (H3 : (26 + 7) / 8 = Z.of_nat (@Size toy_hash) + len toy_salt + 1)
    by reflexivity.
  repeat (split; [assumption|]).
  split.
  - exact (proj1 (proj2 (proj2 (proj2 (proj2
             (C7_encode_error_conditions (HF := toy_hash) toy_digest_ab 34
                toy_salt []))))) H1 H2).
  - exact (proj2 (proj2 (proj2 (proj2 (proj2
             (C7_encode_error_conditions (HF := toy_hash) toy_digest_ab 26
                toy_salt []))))) H1 H3).
Defined.

(** C8.  The result of the encoder.  When [emsaPSSEncode], run on a store
    that holds its two input slices, returns [em]: the bytes of [em] are
    the ones the function computes from the contents of its inputs; they
    are [emLen] octets, the last one 0xBC and the leftmost
    [8*emLen - emBits] bits zero; [em] is the whole of an array that was
    not in the store before the call, so it shares no byte with the inputs
    or with any older slice, and the call leaves every older array as it
    was. *)
Theorem C8_encode_result {HF : Hash} (hp hp' : heap) (mHash salt em : sliceref)
    (emBits : Z) (st : hstate) :
  in_heap hp mHash -> in_heap hp salt ->
  emsaPSSEncode_h hp mHash emBits salt st = (Ok em, hp') ->
  let emLen := (emBits + 7) / 8 in
  let bytes := heap_load hp' em in
  emsaPSSEncode (heap_load hp mHash) emBits (heap_load hp salt) st = Ok bytes
  /\ len bytes = emLen
  /\ last bytes bzero = xBC
  /\ byte.unsigned (hd bzero bytes) < 2 ^ (8 - (8 * emLen - emBits))
  /\ 0 <= SetBytes bytes < 2 ^ emBits
  /\ s_arr em = length hp /\ s_off em = 0%nat /\ ~ in_heap hp em
  /\ hp' = hp ++ [bytes]
  /\ (forall s, in_heap hp s ->
        s_arr s <> s_arr em /\ heap_load hp' s = heap_load hp s).
Proof.
  intros HmH HsH Hrun emLen bytes.
  pose proof (length_heap_load hp mHash HmH) as Hml.
  pose proof (length_heap_load hp salt HsH) as Hsl.
  assert (Hm : Z.of_nat (s_len mHash) = Z.of_nat Size).
  { destruct (Z.eq_dec (Z.of_nat (s_len mHash)) (Z.of_nat Size)) as [|Hne];
      [assumption|].
    exfalso. unfold emsaPSSEncode_h in Hrun.
    destruct (Z.eqb_spec (Z.of_nat (s_len mHash)) (Z.of_nat Size));
      [contradiction|discriminate]. }
  assert (Hfit : Z.of_nat Size + Z.of_nat (s_len salt) + 2 <= (emBits + 7) ÷ 8).
  { destruct (Z.le_gt_cases (Z.of_nat Size + Z.of_nat (s_len salt) + 2)
                ((emBits + 7) ÷ 8)) as [|Hlt]; [assumption|].
    exfalso. unfold emsaPSSEncode_h in Hrun.
    rewrite Hm, Z.eqb_refl in Hrun. cbn [negb] in Hrun.
    destruct (Z.ltb_spec ((emBits + 7) ÷ 8)
                (Z.of_nat Size + Z.of_nat (s_len salt) + 2));
      [discriminate|lia]. }
  rewrite emsaPSSEncode_h_spec in Hrun by assumption.
  inversion Hrun as [[Hem Hhp]]. clear Hrun.
  set (enc := pss_encoding (heap_load hp mHash) emBits (heap_load hp salt) st) in *.
  assert (Hfit' : Z.of_nat Size + len (heap_load hp salt) + 2 <= (emBits + 7) ÷ 8)
    by (unfold len; lia).
  pose proof (length_pss_encoding (heap_load hp mHash) (heap_load hp salt)
                emBits st Hfit') as Hlen. fold enc in Hlen.
  destruct (emBits_bounds emBits ltac:(lia)) as [Hbits _].
  assert (HemLen : emLen = (emBits + 7) ÷ 8)
    by (unfold emLen; symmetry; apply Z.quot_div_nonneg; lia).
  assert (Hbytes : bytes = enc).
  { unfold bytes. rewrite <- Hem, <- Hhp. fold enc.
    rewrite heap_load_new. cbn [skipn].
    apply firstn_all2. unfold len in Hlen. lia. }
  rewrite Hbytes, HemLen.
  destruct (pss_encoding_shape (heap_load hp mHash) (heap_load hp salt)
              emBits st Hfit') as [Hlast Hhd]. fold enc in Hlast, Hhd.
  repeat split; try assumption.
  - apply emsaPSSEncode_spec; [unfold len; lia | assumption].
  - apply (pss_encoding_bound (heap_load hp mHash) (heap_load hp salt) emBits st Hfit').
  - apply (pss_encoding_bound (heap_load hp mHash) (heap_load hp salt) emBits st Hfit').
  - intros [Hin _]. cbn [s_arr] in Hin. lia.
  - destruct H as [Hin _]. cbn [s_arr]. lia.
  - apply heap_load_old. destruct H as [Hin _]. assumption.
Qed.

Lemma C8_witness :
  in_heap toy_heap toy_digest_ref /\ in_heap toy_heap toy_salt_ref
  /\ emsaPSSEncode_h (HF := toy_hash) toy_heap toy_digest_ref 34 toy_salt_ref []
     = (Ok toy_em_ref, toy_heap ++ [toy_em])
  /\ emsaPSSEncode (HF := toy_hash) toy_digest_ab 34 toy_salt [] = Ok toy_em
  /\ len toy_em = (34 + 7) / 8
  /\ s_arr toy_em_ref = length toy_heap.
Proof.
  assert (H1 : in_heap toy_heap toy_digest_ref) by (split; cbn; lia).
  assert (H2 : in_heap toy_heap toy_salt_ref) by (split; cbn; lia).
  assert (H3 : emsaPSSEncode_h (HF := toy_hash) toy_heap toy_digest_ref 34
                 toy_salt_ref [] = (Ok toy_em_ref, toy_heap ++ [toy_em]))
    by (vm_compute; reflexivity).
  repeat (split; [assumption|]).
  pose proof (C8_encode_result (HF := toy_hash) toy_heap (toy_heap ++ [toy_em])
                toy_digest_ref toy_salt_ref toy_em_ref 34 [] H1 H2 H3) as H.
  cbv zeta in H. destruct H as (Ha & Hb & _ & _ & _ & Hc & _).
  repeat split; assumption.
Defined.

(** C9.  [mgf1XOR] is a function of its arguments: it returns the buffer
    XORed with [mgf1_mask], a mask that is computed from the hash (the
    function and what the instance holds on entry), the seed and the
    length of the buffer alone, and never from the bytes of the buffer.
    Two runs on equal buffers with the same seed and hash therefore end
    with the same buffer. *)
Theorem C9_mgf1XOR_deterministic {HF : Hash} (out st seed : list byte) :
  mgf1XOR out st seed
  = Some (xor_bytes out (mgf1_mask st seed (length out)),
          match out with [] => st | _ => [] end)
  /\ length (mgf1_mask st seed (length out)) = length out.
Proof. split; [apply mgf1XOR_spec | apply length_mgf1_mask]. Qed.

(** C10.  [modInverse].  For [0 < a < n]: [ok] is true exactly when
    [gcd(a, n) = 1]; the value returned then is in [[0, n)] and is an
    inverse of [a] modulo [n]; when [gcd(a, n) <> 1] no inverse is
    returned. *)
Theorem C10_modInverse (a n : Z) :
  0 < a < n ->
  (modInverse a n <> None <-> Z.gcd a n = 1)
  /\ (forall ia, modInverse a n = Some ia ->
        0 <= ia < n /\ (a * ia) mod n = 1)
  /\ (Z.gcd a n <> 1 -> modInverse a n = None).
Proof.
  intros Han. pose proof (modInverse_spec a n Han) as Hs.
  destruct (modInverse a n) as [ia|].
  - destruct Hs as (Hg & Hr & Hinv). split; [|split].
    + split; [intros _; exact Hg | discriminate].
    + intros ia' Hia. inversion Hia; subst ia'. split; assumption.
    + intros Hng. contradiction.
  - split; [|split].
    + split; [congruence | intros Hg; contradiction].
    + discriminate.
    + reflexivity.
Qed.

Lemma C10_witness :
  0 < 3 < 91 /\ modInverse 3 91 = Some 61 /\ 0 <= 61 < 91 /\ (3 * 61) mod 91 = 1.
Proof.
  assert (H1 : 0 < 3 < 91) by lia.
  assert (H2 : modInverse 3 91 = Some 61) by (vm_compute; reflexivity).
  repeat (split; [assumption|]).
  exact (proj1 (proj2 (C10_modInverse 3 91 H1)) 61 H2).
Defined.

(** * Further properties *)

(** ** incCounter as a big-endian counter *)

Lemma lor_shiftl_add (a b : Z) :
  0 <= a < 256 -> Z.lor a (Z.shiftl b 8) = a + b * 256.
Proof.
  intros Ha.
  assert (Hl : Z.land a (Z.shiftl b 8) = 0).
  { apply Z.bits_inj'. intros n Hn. rewrite Z.land_spec, Z.bits_0.
    destruct (Z.lt_ge_cases n 8) as [Hlt|Hge].
    - rewrite Z.shiftl_spec_low by lia. apply andb_false_r.
    - replace (Z.testbit a n) with false; [reflexivity|].
      symmetry. destruct (Z.eq_dec a 0) as [->|Hnz]; [apply Z.bits_0|].
      apply Z.bits_above_log2; [lia|].
      assert (Z.log2 a < 8) by (apply Z.log2_lt_pow2; lia). lia. }
  rewrite <- Z.lxor_lor by exact Hl.
  rewrite <- Z.add_nocarry_lxor by exact Hl.
  rewrite Z.shiftl_mul_pow2 by lia. reflexivity.
Qed.

Lemma le_combine_cons (b : byte) (l : list byte) :
  le_combine (b :: l) = Z.lor (byte.unsigned b) (Z.shiftl (le_combine l) 8).
Proof. reflexivity. Qed.

Lemma SetBytes_counter (c : counter) :
  SetBytes (counter_bytes c) = counter_value c.
Proof.
  destruct c as [[[c0 c1] c2] c3]. unfold SetBytes, counter_bytes, counter_value.
  cbn [rev app]. rewrite !le_combine_cons.
  change (le_combine []) with 0.
  pose proof (byte.unsigned_range c0). pose proof (byte.unsigned_range c1).
  pose proof (byte.unsigned_range c2). pose proof (byte.unsigned_range c3).
  rewrite !lor_shiftl_add by lia. lia.
Qed.

(** X1.  [incCounter] adds one to the counter read as a four-byte
    big-endian integer, and wraps from [2^32 - 1] to 0. *)
Theorem incCounter_big_endian (c : counter) :
  SetBytes (counter_bytes (incCounter c))
  = (SetBytes (counter_bytes c) + 1) mod 2 ^ 32.
Proof. rewrite !SetBytes_counter. apply incCounter_value. Qed.

(** ** MGF1 byte by byte *)

Lemma counter_bytes_split (c : counter) :
  counter_bytes c = rev (le_split 4 (counter_value c)).
Proof.
  rewrite <- SetBytes_counter. unfold SetBytes.
  rewrite split_le_combine' by (destruct c as [[[? ?] ?] ?]; reflexivity).
  symmetry. apply rev_involutive.
Qed.

Lemma counter_bytes_iter (j : nat) :
  counter_bytes (Nat.iter j incCounter counter_zero)
  = rev (le_split 4 (Z.of_nat j)).
Proof.
  rewrite counter_bytes_split, counter_value_iter.
  rewrite (le_split_mod (Z.of_nat j) 4). reflexivity.
Qed.

Lemma nth_flat_map_blocks {A : Type} (f : nat -> list A) (s : nat) (d : A) :
  (forall i, length (f i) = s) -> (0 < s)%nat ->
  forall (k a i : nat), (i < k * s)%nat ->
  nth i (flat_map f (seq a k)) d = nth (i mod s) (f (a + i / s)%nat) d.
Proof.
  intros Hf Hs. induction k as [|k IH]; intros a i Hi; [lia|].
  cbn [seq flat_map].
  destruct (Nat.lt_ge_cases i s) as [Hlt|Hge].
  - rewrite app_nth1 by (rewrite Hf; exact Hlt).
    rewrite Nat.mod_small, Nat.div_small, Nat.add_0_r by exact Hlt. reflexivity.
  - rewrite app_nth2, Hf by (rewrite Hf; exact Hge).
    rewrite IH by (simpl in Hi; lia).
    replace i with ((i - s) + 1 * s)%nat at 3 4 by lia.
    rewrite Nat.Div0.mod_add, Nat.div_add by lia.
    f_equal. f_equal. lia.
Qed.

Lemma nth_xor_bytes (a b : list byte) (i : nat) :
  (i < length a)%nat -> (i < length b)%nat ->
  nth i (xor_bytes a b) bzero = byte.xor (nth i a bzero) (nth i b bzero).
Proof.
  revert a b. induction i as [|i IH]; intros [|x a] [|y b] Ha Hb;
    simpl in Ha, Hb; try lia.
  - reflexivity.
  - rewrite xor_bytes_cons. cbn [nth]. apply IH; lia.
Qed.

Lemma nth_firstn_lt {A : Type} (l : list A) (n i : nat) (d : A) :
  (i < n)%nat -> nth i (firstn n l) d = nth i l d.
Proof.
  revert l i. induction n as [|n IH]; intros l i Hi; [lia|].
  destruct l as [|x l]; [destruct i; reflexivity|].
  destruct i as [|i]; [reflexivity|]. cbn [firstn nth]. apply IH. lia.
Qed.

Section MGF1_bytes.
Context {HF : Hash}.

Lemma nth_mgf1_mask (seed : list byte) (n i : nat) :
  (i < n)%nat ->
  nth i (mgf1_mask [] seed n) bzero
  = nth (i mod Size)
        (Sum (seed ++ rev (le_split 4 (Z.of_nat (i / Size))))) bzero.
Proof.
  intros Hi. unfold mgf1_mask. rewrite nth_firstn_lt by exact Hi.
  rewrite mgf1_blocks_counters.
  pose proof Size_pos as Hs.
  rewrite (nth_flat_map_blocks _ Size bzero) by (auto using Sum_length; nia).
  cbn [Nat.add]. rewrite counter_bytes_iter. reflexivity.
Qed.

(** X2.  On a hash instance that holds nothing, [mgf1XOR] replaces byte [i]
    of [out] by its XOR with byte [i mod hLen] of [Hash(seed || C)], where
    [C] is [i / hLen] as four big-endian bytes: the MGF1 of PKCS#1 v2.1.
    The length of [out] is unchanged and the instance is left reset. *)
Theorem mgf1XOR_byte (out seed : list byte) (i : nat) :
  (i < length out)%nat ->
  exists masked,
    mgf1XOR out hash_New seed = Some (masked, hash_New)
    /\ length masked = length out
    /\ nth i masked bzero
       = byte.xor (nth i out bzero)
           (nth (i mod Size)
                (Sum (seed ++ rev (le_split 4 (Z.of_nat (i / Size))))) bzero).
Proof.
  intros Hi. rewrite mgf1XOR_spec. eexists. split; [|split].
  - f_equal. f_equal. destruct out; reflexivity.
  - rewrite length_xor_bytes, length_mgf1_mask. lia.
  - rewrite nth_xor_bytes by (rewrite ?length_mgf1_mask; exact Hi).
    unfold hash_New. rewrite nth_mgf1_mask by exact Hi. reflexivity.
Qed.

(** X3.  Masking is its own inverse: a second [mgf1XOR] with the same seed,
    on a hash instance that holds nothing, gives back the buffer. *)
Theorem mgf1XOR_involution (out seed : list byte) :
  exists masked,
    mgf1XOR out hash_New seed = Some (masked, hash_New)
    /\ mgf1XOR masked hash_New seed = Some (out, hash_New).
Proof.
  eexists. split.
  - rewrite mgf1XOR_spec. f_equal. f_equal. destruct out; reflexivity.
  - rewrite mgf1XOR_spec, length_xor_bytes, length_mgf1_mask, Nat.min_id.
    rewrite xor_bytes_cancel by (rewrite length_mgf1_mask; lia).
    f_equal. f_equal. destruct (xor_bytes _ _); reflexivity.
Qed.

Lemma firstn_xor_bytes (a b : list byte) (n : nat) :
  firstn n (xor_bytes a b) = xor_bytes (firstn n a) (firstn n b).
Proof.
  revert a b. induction n as [|n IH]; intros a b; [reflexivity|].
  destruct a as [|x a]; [reflexivity|].
  destruct b as [|y b]; [rewrite !xor_bytes_nil_r; reflexivity|].
  rewrite xor_bytes_cons. cbn [firstn]. rewrite xor_bytes_cons, IH.
  reflexivity.
Qed.

Lemma firstn_mgf1_mask (st seed : list byte) (n m : nat) :
  (n <= m)%nat -> firstn n (mgf1_mask st seed m) = mgf1_mask st seed n.
Proof.
  intros Hn. unfold mgf1_mask.
  rewrite firstn_firstn, Nat.min_l by exact Hn.
  apply mgf1_blocks_firstn; lia.
Qed.

(** X4.  The mask is a stream: [mgf1XOR] on the first [n] bytes of a buffer
    gives the first [n] bytes of what it gives on the whole buffer (same
    seed, same state of the hash instance on entry). *)
Theorem mgf1XOR_prefix (out st seed : list byte) (n : nat) :
  exists full part st1 st2,
    mgf1XOR out st seed = Some (full, st1)
    /\ mgf1XOR (firstn n out) st seed = Some (part, st2)
    /\ part = firstn n full.
Proof.
  rewrite !mgf1XOR_spec. do 4 eexists. split; [reflexivity|].
  split; [reflexivity|].
  rewrite firstn_xor_bytes.
  rewrite (xor_bytes_firstn_r (firstn n out) (firstn n _)).
  rewrite firstn_firstn, Nat.min_l by (rewrite length_firstn; lia).
  rewrite firstn_mgf1_mask by (rewrite length_firstn; lia).
  reflexivity.
Qed.

End MGF1_bytes.

Lemma mgf1XOR_byte_witness :
  exists masked,
    mgf1XOR (HF := toy_hash) [Byte.x00; Byte.x00; Byte.x00] hash_New [Byte.x01]
    = Some (masked, hash_New)
    /\ length masked = 3%nat
    /\ nth 2 masked bzero
       = byte.xor Byte.x00
           (nth 0 (@Sum toy_hash
                     ([Byte.x01] ++ rev (le_split 4 1))) bzero).
Proof.
  apply (mgf1XOR_byte (HF := toy_hash) [Byte.x00; Byte.x00; Byte.x00]
           [Byte.x01] 2).
  simpl. lia.
Defined.

(** ** modInverse is an involution *)

(** X5.  For [0 < a < n], the inverse that [modInverse] returns for [a] has
    itself the inverse [a]. *)
Theorem modInverse_involution (a n ia : Z) :
  0 < a < n -> modInverse a n = Some ia -> modInverse ia n = Some a.
Proof.
  intros Ha Hinv.
  pose proof (modInverse_spec a n Ha) as Hs. rewrite Hinv in Hs.
  destruct Hs as (Hg & Hia & Hmul).
  assert (Hia0 : ia <> 0).
  { intros ->. rewrite Z.mul_0_r, Z.mod_0_l in Hmul by lia. discriminate. }
  pose proof (modInverse_spec ia n ltac:(lia)) as Hs'.
  assert (Hg' : Z.gcd ia n = 1).
  { apply Z.bezout_1_gcd. exists a, (- (a * ia / n)).
    pose proof (Z.div_mod (a * ia) n ltac:(lia)) as Hdm. rewrite Hmul in Hdm.
    lia. }
  destruct (modInverse ia n) as [a'|]; [|contradiction].
  destruct Hs' as (_ & Ha' & Hmul').
  f_equal.
  assert (Hmod : a' mod n = a mod n).
  { rewrite <- (Z.mul_1_r a') at 1. rewrite <- Hmul.
    rewrite Z.mul_mod_idemp_r by lia.
    replace (a' * (a * ia)) with (a * (ia * a')) by ring.
    rewrite <- Z.mul_mod_idemp_r, Hmul', Z.mul_1_r by lia. reflexivity. }
  rewrite !Z.mod_small in Hmod by lia. exact Hmod.
Qed.

Lemma modInverse_involution_witness :
  modInverse 61 91 = Some 3.
Proof.
  apply (modInverse_involution 3 91 61); [lia | reflexivity].
Defined.

(** ** encrypt and decrypt are inverse to each other *)

Lemma encrypt_valid (priv : PrivateKey) (m : Z) :
  valid_key priv = true ->
  encrypt (Pub priv) m = m ^ E (Pub priv) mod N (Pub priv).
Proof.
  intros Hv. unfold encrypt.
  destruct (valid_key_facts priv Hv) as (_ & _ & _ & _ & He & _).
  pose proof (valid_key_N priv Hv). apply big_Exp_pos; lia.
Qed.

Lemma decrypt_value (random : option Reader) (priv : PrivateKey) (c m : Z) :
  valid_key priv = true -> precomputed_ok priv = true ->
  decrypt random priv c = Ok m -> m = c ^ D priv mod N (Pub priv).
Proof.
  intros Hv Hpc Hd.
  assert (Hc : c <= N (Pub priv)).
  { destruct (Z.le_gt_cases c (N (Pub priv))) as [|Hgt]; [assumption|].
    apply Z.gt_lt_iff, Z.gt_lt in Hgt.
    apply (proj2 (decrypt_range random priv c)) in Hgt. congruence. }
  destruct random as [rd|].
  - destruct (decrypt_blinded priv c rd Hv Hpc Hc) as [H|H]; congruence.
  - rewrite decrypt_unblinded in Hd by assumption. congruence.
Qed.

(** X6.  With a valid key, [decrypt] and [encrypt] are inverse to each other
    on [[0, N)]: decrypting [encrypt m] gives back [m]; decrypting [m]
    succeeds with a result in [[0, N)]; and, whatever the random source,
    a result of decrypting [m] encrypts to [m]. *)
Theorem decrypt_encrypt_inverse (priv : PrivateKey) (m : Z) :
  valid_key priv = true -> precomputed_ok priv = true ->
  0 <= m < N (Pub priv) ->
  decrypt None priv (encrypt (Pub priv) m) = Ok m
  /\ (exists s, decrypt None priv m = Ok s /\ 0 <= s < N (Pub priv))
  /\ (forall random s, decrypt random priv m = Ok s -> encrypt (Pub priv) s = m).
Proof.
  intros Hv Hpc Hm.
  destruct (valid_key_facts priv Hv) as (_ & _ & _ & _ & He & Hd & _).
  pose proof (valid_key_N priv Hv) as HN.
  pose proof (rsa_identity priv m Hv) as Hid.
  split; [|split].
  - rewrite encrypt_valid by assumption.
    pose proof (Z.mod_pos_bound (m ^ E (Pub priv)) (N (Pub priv)) ltac:(lia)).
    rewrite decrypt_unblinded by (try assumption; lia).
    rewrite Z.mod_pow_l, <- Z.pow_mul_r, Hid by lia.
    rewrite Z.mod_small by lia. reflexivity.
  - rewrite decrypt_unblinded by (try assumption; lia).
    eexists. split; [reflexivity|]. apply Z.mod_pos_bound. lia.
  - intros random s Hs.
    apply decrypt_value in Hs; try assumption. subst s.
    rewrite encrypt_valid by assumption.
    rewrite Z.mod_pow_l, <- Z.pow_mul_r by lia.
    rewrite (Z.mul_comm (D priv)), Hid.
    apply Z.mod_small. lia.
Qed.

Lemma decrypt_encrypt_inverse_witness :
  decrypt None key9_crt (encrypt (Pub key9_crt) 1234567) = Ok 1234567
  /\ (exists s, decrypt None key9_crt 1234567 = Ok s /\ 0 <= s < N (Pub key9_crt))
  /\ (forall random s, decrypt random key9_crt 1234567 = Ok s ->
      encrypt (Pub key9_crt) s = 1234567).
Proof.
  apply (decrypt_encrypt_inverse key9_crt 1234567);
    [reflexivity | reflexivity | simpl; lia].
Defined.

(** ** The loop that draws the blinding factor *)

Lemma draw_blind_fails (rd : Reader) (n : Z) :
  1 < n ->
  (draw_blind rd n = Err ErrRandom
   <-> Forall (fun x => x mod n <> 0 /\ Z.gcd (x mod n) n <> 1) rd).
Proof.
  intros Hn. induction rd as [|x rd IH]; cbn [draw_blind];
    destruct (Z.leb_spec n 0); try lia.
  - split; [constructor | reflexivity].
  - pose proof (Z.mod_pos_bound x n ltac:(lia)) as Hx.
    unfold bigZero, bigOne.
    destruct (Z.eqb_spec (x mod n) 0) as [E0|E0].
    + pose proof (modInverse_spec 1 n ltac:(lia)) as Hs.
      destruct (modInverse 1 n).
      * split; [discriminate|]. intros HF. inversion HF; subst. tauto.
      * rewrite Z.gcd_1_l in Hs. congruence.
    + pose proof (modInverse_spec (x mod n) n ltac:(lia)) as Hs.
      destruct (modInverse (x mod n) n).
      * split; [discriminate|]. intros HF. inversion HF; subst. tauto.
      * rewrite IH. split.
        -- intros HF. constructor; [tauto|assumption].
        -- intros HF. inversion HF; assumption.
Qed.

(** X7.  The loop of [decrypt] that draws the blinding factor skips the draws
    that have no inverse modulo [N].  With a valid key and [c <= N],
    [decrypt] fails with the error of the random source when every draw is
    a non-zero residue sharing a factor with [N]; otherwise its result is
    the one without blinding. *)
Theorem decrypt_blind_failure (priv : PrivateKey) (c : Z) (rd : Reader) :
  valid_key priv = true -> precomputed_ok priv = true ->
  c <= N (Pub priv) ->
  (Forall (fun x => x mod N (Pub priv) <> 0
                    /\ Z.gcd (x mod N (Pub priv)) (N (Pub priv)) <> 1) rd ->
   decrypt (Some rd) priv c = Err ErrRandom)
  /\ (~ Forall (fun x => x mod N (Pub priv) <> 0
                    /\ Z.gcd (x mod N (Pub priv)) (N (Pub priv)) <> 1) rd ->
      decrypt (Some rd) priv c = decrypt None priv c).
Proof.
  intros Hv Hpc Hc.
  pose proof (valid_key_N priv Hv) as HN.
  pose proof (draw_blind_fails rd (N (Pub priv)) ltac:(lia)) as Hiff.
  split.
  - intros HF. apply Hiff in HF. unfold decrypt.
    destruct (Z.gtb_spec c (N (Pub priv))); [lia|].
    rewrite HF. reflexivity.
  - intros HF.
    destruct (draw_blind_outcome rd (N (Pub priv)) ltac:(lia))
      as [(r & ir & Hdraw)|Hdraw].
    + apply (decrypt_blind_eq priv c r ir rd); assumption.
    + apply Hiff in Hdraw. contradiction.
Qed.

Lemma decrypt_blind_failure_witness :
  decrypt (Some [12345; 21]) key9 1234567 = Err ErrRandom.
Proof.
  apply (proj1 (decrypt_blind_failure key9 1234567 [12345; 21]
                  eq_refl eq_refl ltac:(simpl; lia))).
  repeat constructor; simpl; try lia; vm_compute; discriminate.
Defined.

(** ** decrypt on keys whose precomputed values are incomplete *)

Lemma crt_loop_short (ps : list Z) (c : Z) (values : list CRTValue) :
  forall (i : nat) (m : Z),
  values <> [] -> (length ps < 2 + i + length values)%nat ->
  crt_loop ps c i values m = Panic.
Proof.
  induction values as [|v values IH]; intros i m Hne Hlen; [congruence|].
  cbn [crt_loop]. unfold prime_at.
  destruct (nth_error ps (2 + i)) as [prime|] eqn:En; [|reflexivity].
  cbn [bind]. unfold big_Mod.
  destruct (prime =? 0); [reflexivity|]. cbn [bind].
  assert (Hi : (2 + i < length ps)%nat)
    by (apply nth_error_Some; congruence).
  destruct values as [|v' values'].
  - simpl in Hlen. lia.
  - apply IH; [discriminate|]. simpl in Hlen |- *. lia.
Qed.

(** X8.  Once [Precomputed.Dp] is set, [decrypt] takes the CRT branch and
    relies on the other precomputed values: with [Dq] or [Qinv] nil, or
    with fewer than [2 + len(CRTValues)] primes, it panics (nil
    dereference, index out of range). *)
Theorem decrypt_incomplete_precomputed (priv : PrivateKey) (c : Z) :
  c <= N (Pub priv) ->
  Dp (Precomputed priv) <> None ->
  Dq (Precomputed priv) = None \/ Qinv (Precomputed priv) = None
  \/ (length (Primes priv) < 2 + length (CRTValues (Precomputed priv)))%nat ->
  decrypt None priv c = Panic.
Proof.
  intros Hc HDp Hbad. unfold decrypt.
  destruct (Z.gtb_spec c (N (Pub priv))); [lia|]. cbn [bind].
  assert (Hexp : decrypt_exp priv c = Panic); [|rewrite Hexp; reflexivity].
  unfold decrypt_exp.
  destruct (Dp (Precomputed priv)) as [dp|]; [|congruence].
  unfold prime_at.
  destruct (nth_error (Primes priv) 0) as [p|] eqn:E0; [|reflexivity].
  cbn [bind].
  destruct (Dq (Precomputed priv)) as [dq|] eqn:EDq; [|reflexivity].
  cbn [deref bind].
  destruct (nth_error (Primes priv) 1) as [q|] eqn:E1; [|reflexivity].
  cbn [bind].
  destruct (Qinv (Precomputed priv)) as [qinv|] eqn:EQ; [|reflexivity].
  cbn [deref bind]. unfold big_Mod.
  destruct (p =? 0); [reflexivity|]. cbn [bind].
  destruct Hbad as [Hb|[Hb|Hb]]; try discriminate.
  assert (H1 : (1 < length (Primes priv))%nat)
    by (apply nth_error_Some; congruence).
  apply crt_loop_short.
  - destruct (CRTValues (Precomputed priv)); [simpl in Hb; lia|discriminate].
  - lia.
Qed.

Lemma decrypt_incomplete_precomputed_witness :
  decrypt None
    {| Pub := {| N := 91; E := 5 |}; D := 5; Primes := [7; 13];
       Precomputed := {| Dp := Some 5; Dq := None; Qinv := Some 6;
                         CRTValues := [] |} |} 10 = Panic.
Proof.
  apply decrypt_incomplete_precomputed;
    [simpl; lia | discriminate | left; reflexivity].
Defined.

(** ** The modulus as a ciphertext *)

(** X9.  The guard of [decrypt] lets [c = N] through, and [decrypt] then
    treats it as [c = 0]: with a valid key the result is 0, and with any
    random source the outcome is that for the ciphertext 0. *)
Theorem decrypt_modulus_as_zero (priv : PrivateKey) :
  valid_key priv = true -> precomputed_ok priv = true ->
  decrypt None priv (N (Pub priv)) = Ok 0
  /\ (forall random,
      decrypt random priv (N (Pub priv)) = decrypt random priv 0).
Proof.
  intros Hv Hpc.
  pose proof (valid_key_N priv Hv) as HN.
  destruct (valid_key_facts priv Hv) as (_ & _ & _ & _ & _ & Hd & _).
  assert (HNd : N (Pub priv) ^ D priv mod N (Pub priv) = 0).
  { rewrite <- Z.mod_pow_l, Z.mod_same, Z.pow_0_l, Z.mod_0_l by lia.
    reflexivity. }
  assert (H0d : 0 ^ D priv mod N (Pub priv) = 0).
  { rewrite Z.pow_0_l, Z.mod_0_l by lia. reflexivity. }
  split.
  - rewrite decrypt_unblinded by (assumption || lia). f_equal. exact HNd.
  - intros [rd|].
    + destruct (draw_blind_outcome rd (N (Pub priv)) ltac:(lia))
        as [(r & ir & Hdraw)|Hdraw].
      * rewrite (decrypt_blinded_ok priv _ r ir rd) by (assumption || lia).
        rewrite (decrypt_blinded_ok priv 0 r ir rd) by (assumption || lia).
        rewrite HNd, H0d. reflexivity.
      * unfold decrypt.
        destruct (Z.gtb_spec (N (Pub priv)) (N (Pub priv))); [lia|].
        destruct (Z.gtb_spec 0 (N (Pub priv))); [lia|].
        rewrite Hdraw. reflexivity.
    + rewrite !decrypt_unblinded by (assumption || lia).
      rewrite HNd, H0d. reflexivity.
Qed.

Lemma decrypt_modulus_as_zero_witness :
  decrypt None key9_crt (N (Pub key9_crt)) = Ok 0
  /\ (forall random,
      decrypt random key9_crt (N (Pub key9_crt)) = decrypt random key9_crt 0).
Proof.
  apply (decrypt_modulus_as_zero key9_crt); reflexivity.
Defined.

(** ** Encoding and verification of EMSA-PSS, together *)

Lemma byte_top_zero (b : byte) (k : Z) :
  0 <= k <= 7 ->
  byte_eqb (byte.and b (byte_shl xFF (8 - k))) bzero = true ->
  byte.and b (byte_shr xFF k) = b.
Proof.
  intros Hk.
  destruct (topbits_cases k Hk) as [->|[->|[->|[->|[->|[->|[->| ->]]]]]]];
    destruct b; vm_compute; intros H; first [reflexivity | discriminate H].
Qed.

Lemma forallb_zero_repeat (l : list byte) :
  forallb (fun e => byte_eqb e bzero) l = true -> l = repeat bzero (length l).
Proof.
  induction l as [|x l IH]; simpl; [reflexivity|].
  intros H. apply andb_true_iff in H. destruct H as [Hx Hl].
  apply byte_eqb_eq in Hx. subst x. f_equal. apply IH. exact Hl.
Qed.

Lemma split_at_nth (l : list byte) (n : nat) :
  (n < length l)%nat ->
  l = firstn n l ++ nth n l bzero :: skipn (S n) l.
Proof.
  revert l. induction n as [|n IH]; intros [|x l] Hn; simpl in *; try lia.
  - reflexivity.
  - f_equal. apply IH. lia.
Qed.

Lemma app_eq_app_length {A : Type} (a a' b b' : list A) :
  length a = length a' -> a ++ b = a' ++ b' -> a = a' /\ b = b'.
Proof.
  revert a'. induction a as [|x a IH]; intros [|x' a'] Hl He; simpl in *;
    try lia.
  - auto.
  - inversion He; subst. destruct (IH a' ltac:(lia) H1) as [-> ->]. auto.
Qed.

Section Encode_Verify.
Context {HF : Hash}.

(** An accepted message decomposes as the encoder composes it. *)
Lemma emsaPSSVerify_sound (mHash em : list byte) (emBits sLen : Z) :
  len em = (emBits + 7) ÷ 8 -> 0 <= sLen ->
  emsaPSSVerify mHash em emBits sLen hash_New = Ok tt ->
  exists salt,
    len salt = sLen
    /\ len mHash = Z.of_nat Size
    /\ Z.of_nat Size + sLen + 2 <= (emBits + 7) ÷ 8
    /\ em = pss_encoding mHash emBits salt hash_New.
Proof.
  intros Hlen Hs Hok.
  set (emLen := (emBits + 7) ÷ 8) in *.
  assert (Hm : len mHash = Z.of_nat Size).
  { unfold emsaPSSVerify in Hok.
    destruct (Z.eqb_spec (Z.of_nat Size) (len mHash)); [lia|discriminate]. }
  assert (Hfit : Z.of_nat Size + sLen + 2 <= emLen).
  { unfold emsaPSSVerify in Hok. fold emLen in Hok.
    rewrite Hm, Z.eqb_refl in Hok. cbn [negb] in Hok.
    destruct (Z.ltb_spec emLen (Z.of_nat Size + sLen + 2)); [discriminate|lia]. }
  destruct (emBits_bounds emBits ltac:(fold emLen; lia)) as [Hbits Htop].
  fold emLen in Htop.
  set (a := (Z.to_nat emLen - Size - 1)%nat).
  pose proof (split_em em a Size ltac:(unfold len in *; lia)) as Hsplit.
  set (mdb := firstn a em) in *. set (h := firstn Size (skipn a em)) in *.
  set (t := last em bzero) in *.
  assert (Hmdb : length mdb = a).
  { unfold mdb. rewrite length_firstn. unfold len in *. lia. }
  assert (Hh : length h = Size).
  { unfold h. rewrite length_firstn, length_skipn. unfold len in *. lia. }
  clearbody mdb h t. subst em.
  rewrite emsaPSSVerify_layout in Hok; fold emLen in Hok |- *;
    try assumption; try (unfold len in *; lia).
  set (k := 8 * emLen - emBits) in *.
  set (mask := mgf1_mask hash_New h (length mdb)) in *.
  assert (Hmask : length mask = length mdb) by apply length_mgf1_mask.
  set (DB := clear_top k (xor_bytes mdb mask)) in *.
  assert (HDB : length DB = a).
  { unfold DB. rewrite length_clear_top, length_xor_bytes. lia. }
  set (psl := Z.to_nat (emLen - Z.of_nat Size - sLen - 2)) in *.
  destruct (byte_eqb t xBC) eqn:Et; [|discriminate].
  destruct (byte_eqb (byte.and (hd bzero mdb) (byte_shl xFF (8 - k))) bzero)
    eqn:Etop; [|discriminate].
  destruct (forallb (fun e => byte_eqb e bzero) (firstn psl DB)) eqn:Eps;
    [|discriminate].
  destruct (byte_eqb (nth psl DB bzero) x01) eqn:Esep; [|discriminate].
  destruct (bytes_eqb (Sum (prefix ++ mHash
                            ++ skipn (length DB - Z.to_nat sLen) DB)) h) eqn:Eh;
    [|discriminate].
  cbn [andb] in Hok. clear Hok.
  apply byte_eqb_eq in Et, Esep. apply bytes_eqb_eq in Eh.
  apply forallb_zero_repeat in Eps.
  rewrite length_firstn, HDB in Eps.
  replace (Nat.min psl a) with psl in Eps by (unfold psl, a; lia).
  set (salt := skipn (length DB - Z.to_nat sLen) DB) in *.
  assert (Hsalt : length salt = Z.to_nat sLen).
  { unfold salt. rewrite length_skipn, HDB. unfold a. lia. }
  assert (EDB : DB = pss_DB (Z.to_nat emLen) salt).
  { unfold pss_DB. rewrite Hsalt.
    replace (Z.to_nat emLen - Z.to_nat sLen - Size - 2)%nat with psl
      by (unfold psl; lia).
    rewrite (split_at_nth DB psl) at 1 by (rewrite HDB; unfold psl, a; lia).
    rewrite Eps, Esep. cbn [app]. f_equal. f_equal.
    unfold salt. f_equal. rewrite HDB. unfold psl, a. lia. }
  exists salt. split; [unfold len; lia|]. split; [exact Hm|].
  split; [exact Hfit|].
  unfold pss_encoding. fold emLen. rewrite Z2Nat.id by lia. fold k.
  unfold pss_H. cbn [app hash_New]. fold salt in Eh.
  unfold hash_New in Eh. rewrite Eh.
  rewrite <- EDB, HDB, <- Hmdb. fold mask.
  subst t. f_equal.
  change (mgf1_mask [] h (length mdb)) with mask.
  unfold DB. rewrite clear_top_twice, xor_bytes_cancel by lia.
  clear - Etop Htop.
  destruct mdb as [|b mdb']; [reflexivity|].
  cbn [clear_top hd] in *. rewrite byte_top_zero by (assumption || lia).
  reflexivity.
Qed.

Lemma emsaPSSVerify_encoding (mHash mHash' salt : list byte)
    (emBits sLen : Z) :
  let emLen := (emBits + 7) ÷ 8 in
  let DB := pss_DB (Z.to_nat emLen) salt in
  let psl := Z.to_nat (emLen - Z.of_nat Size - sLen - 2) in
  Z.of_nat Size + len salt + 2 <= emLen ->
  len mHash' = Z.of_nat Size ->
  Z.of_nat Size + sLen + 2 <= emLen -> 0 <= sLen ->
  emsaPSSVerify mHash' (pss_encoding mHash emBits salt hash_New) emBits
                sLen hash_New
  = if forallb (fun e => byte_eqb e bzero) (firstn psl DB)
       && byte_eqb (nth psl DB bzero) x01
       && bytes_eqb (Sum (prefix ++ mHash'
                          ++ skipn (length DB - Z.to_nat sLen) DB))
                    (pss_H mHash salt hash_New)
    then Ok tt else Err ErrVerification.
Proof.
  intros emLen DB psl Hfit Hm' Hfit' Hs. unfold pss_encoding.
  fold emLen.
  pose proof (len_nonneg salt) as Hs0.
  destruct (emBits_bounds emBits ltac:(fold emLen; lia)) as [Hbits Htop].
  fold emLen in Htop.
  rewrite Z2Nat.id by lia.
  set (k := 8 * emLen - emBits) in *.
  set (h := pss_H mHash salt hash_New).
  fold DB.
  assert (HDB : length DB = (Z.to_nat emLen - Size - 1)%nat).
  { apply pss_DB_length. unfold len in *. lia. }
  set (mask := mgf1_mask [] h (length DB)).
  assert (Hmask : length mask = length DB) by apply length_mgf1_mask.
  rewrite emsaPSSVerify_layout; fold emLen; fold k; fold psl.
  - rewrite length_clear_top, length_xor_bytes, Hmask, Nat.min_id.
    unfold hash_New. fold mask. rewrite clear_top_twice.
    rewrite xor_bytes_cancel by lia.
    unfold DB at 2 3 4 5. rewrite clear_top_pss_DB by lia. fold DB.
    rewrite byte_eqb_refl.
    replace (hd bzero (clear_top k (xor_bytes DB mask)))
      with (byte.and (hd bzero (xor_bytes DB mask)) (byte_shr xFF k)).
    2:{ destruct (xor_bytes DB mask) eqn:Ex; [|reflexivity].
        apply (f_equal (@length _)) in Ex.
        rewrite length_xor_bytes in Ex. simpl in Ex. unfold len in *. lia. }
    rewrite byte_top_clear, byte_eqb_refl by lia. cbn [andb]. reflexivity.
  - exact Hm'.
  - apply Sum_length.
  - unfold len at 1.
    rewrite length_clear_top, length_xor_bytes, Hmask, Nat.min_id, HDB.
    unfold len in *. lia.
  - lia.
  - lia.
Qed.

Lemma emsaPSSEncode_inv (mHash salt em : list byte) (emBits : Z) (st : hstate) :
  emsaPSSEncode mHash emBits salt st = Ok em ->
  len mHash = Z.of_nat Size
  /\ Z.of_nat Size + len salt + 2 <= (emBits + 7) ÷ 8
  /\ em = pss_encoding mHash emBits salt st.
Proof.
  intros Henc.
  destruct (Z.eq_dec (len mHash) (Z.of_nat Size)) as [Hm|Hm].
  2:{ rewrite emsaPSSEncode_wrong_digest in Henc by exact Hm. discriminate. }
  destruct (Z.lt_ge_cases ((emBits + 7) ÷ 8) (Z.of_nat Size + len salt + 2))
    as [Hlt|Hge].
  { rewrite emsaPSSEncode_too_small in Henc by assumption. discriminate. }
  rewrite emsaPSSEncode_spec in Henc by (assumption || lia).
  split; [exact Hm|]. split; [lia|]. congruence.
Qed.

Lemma pss_DB_cases (emLen : nat) (salt : list byte) (sLen : Z) :
  (Size + length salt + 2 <= emLen)%nat ->
  Z.of_nat Size + sLen + 2 <= Z.of_nat emLen -> 0 <= sLen ->
  sLen <> len salt ->
  let DB := pss_DB emLen salt in
  let psl := Z.to_nat (Z.of_nat emLen - Z.of_nat Size - sLen - 2) in
  forallb (fun e => byte_eqb e bzero) (firstn psl DB)
  && byte_eqb (nth psl DB bzero) x01 = false.
Proof.
  intros Hfit Hfit' Hs Hne DB psl.
  set (ps := (emLen - length salt - Size - 2)%nat).
  assert (EDB : DB = repeat bzero ps ++ x01 :: salt) by reflexivity.
  destruct (Z.lt_ge_cases sLen (len salt)) as [Hlt|Hge].
  - (* the padding asked for reaches over the separator *)
    assert (Hps : (ps < psl)%nat) by (unfold ps, psl, len in *; lia).
    rewrite (split_at_nth (firstn psl DB) ps)
      by (rewrite length_firstn, EDB, length_app, repeat_length;
          cbn [length]; lia).
    rewrite forallb_app. cbn [forallb].
    rewrite nth_firstn_lt by exact Hps.
    rewrite EDB, app_nth2, repeat_length, Nat.sub_diag
      by (rewrite repeat_length; lia).
    cbn [nth]. replace (byte_eqb x01 bzero) with false by reflexivity.
    cbn [andb]. rewrite andb_false_r. reflexivity.
  - (* the separator asked for lies in the padding *)
    assert (Hps : (psl < ps)%nat) by (unfold ps, psl, len in *; lia).
    rewrite EDB at 2. rewrite app_nth1 by (rewrite repeat_length; lia).
    rewrite nth_repeat_lt by lia.
    replace (byte_eqb bzero x01) with false by reflexivity.
    apply andb_false_r.
Qed.

Lemma emsaPSSVerify_other_digest (mHash salt em : list byte) (emBits : Z) :
  emsaPSSEncode mHash emBits salt hash_New = Ok em ->
  forall mHash',
    emsaPSSVerify mHash' em emBits (len salt) hash_New = Ok tt
    <-> len mHash' = Z.of_nat Size
        /\ Sum (prefix ++ mHash' ++ salt) = Sum (prefix ++ mHash ++ salt).
Proof.
  intros Henc. apply emsaPSSEncode_inv in Henc.
  destruct Henc as (Hm & Hfit & ->).
  intros mHash'. split.
  - intros Hok.
    destruct (emsaPSSVerify_sound mHash' _ emBits (len salt)
                (length_pss_encoding mHash salt emBits hash_New Hfit)
                (len_nonneg salt) Hok) as (salt' & _ & Hm' & _ & _).
    split; [exact Hm'|].
    rewrite emsaPSSVerify_encoding in Hok
      by (assumption || apply len_nonneg).
    destruct (forallb _ _); [|discriminate].
    destruct (byte_eqb _ x01); [|discriminate]. cbn [andb] in Hok.
    destruct (bytes_eqb _ _) eqn:Eh; [|discriminate].
    apply bytes_eqb_eq in Eh. unfold pss_H, hash_New in Eh. cbn [app] in Eh.
    rewrite <- Eh. f_equal. f_equal. f_equal.
    unfold pss_DB. rewrite !length_app, repeat_length. cbn [length app].
    unfold len. rewrite Nat2Z.id.
    replace (Z.to_nat ((emBits + 7) ÷ 8) - length salt - Size - 2
             + S (length salt) - length salt)%nat
      with (Z.to_nat ((emBits + 7) ÷ 8) - length salt - Size - 2 + 1)%nat
      by lia.
    rewrite skipn_app, repeat_length, skipn_all2 by (rewrite repeat_length; lia).
    replace (Z.to_nat ((emBits + 7) ÷ 8) - length salt - Size - 2 + 1
             - (Z.to_nat ((emBits + 7) ÷ 8) - length salt - Size - 2))%nat
      with 1%nat by lia.
    reflexivity.
  - intros [Hm' Hsum].
    rewrite emsaPSSVerify_encoding by (assumption || apply len_nonneg).
    set (emLen := (emBits + 7) ÷ 8) in *.
    pose proof (len_nonneg salt) as Hs0.
    set (ps := Z.to_nat (emLen - Z.of_nat Size - len salt - 2)).
    assert (Hps : (Z.to_nat emLen - length salt - Size - 2)%nat = ps)
      by (unfold ps, len; lia).
    assert (EDB : pss_DB (Z.to_nat emLen) salt = repeat bzero ps ++ x01 :: salt).
    { unfold pss_DB. rewrite Hps. reflexivity. }
    rewrite EDB.
    rewrite firstn_app, repeat_length, Nat.sub_diag, firstn_O, app_nil_r.
    rewrite firstn_all2 by (rewrite repeat_length; lia).
    rewrite forallb_repeat_zero. cbn [andb].
    rewrite app_nth2, repeat_length, Nat.sub_diag by (rewrite repeat_length; lia).
    cbn [nth]. rewrite byte_eqb_refl. cbn [andb].
    rewrite length_app, repeat_length. cbn [length].
    replace (ps + S (length salt) - Z.to_nat (len salt))%nat with (ps + 1)%nat
      by (unfold len; lia).
    rewrite skipn_app, repeat_length, skipn_all2 by (rewrite repeat_length; lia).
    replace (ps + 1 - ps)%nat with 1%nat by lia. cbn [skipn app].
    rewrite Hsum.
    replace (bytes_eqb _ _) with true; [reflexivity|].
    symmetry. apply bytes_eqb_eq. reflexivity.
Qed.

Lemma emsaPSSVerify_salt_length (mHash mHash' salt em : list byte)
    (emBits sLen : Z) :
  emsaPSSEncode mHash emBits salt hash_New = Ok em ->
  0 <= sLen -> sLen <> len salt ->
  emsaPSSVerify mHash' em emBits sLen hash_New = Err ErrVerification.
Proof.
  intros Henc Hs Hne. apply emsaPSSEncode_inv in Henc.
  destruct Henc as (Hm & Hfit & ->).
  destruct (Z.eq_dec (Z.of_nat Size) (len mHash')) as [Hm'|Hm'].
  2:{ unfold emsaPSSVerify.
      destruct (Z.eqb_spec (Z.of_nat Size) (len mHash')); [lia|reflexivity]. }
  destruct (Z.lt_ge_cases ((emBits + 7) ÷ 8) (Z.of_nat Size + sLen + 2))
    as [Hlt|Hge].
  { unfold emsaPSSVerify. rewrite Hm', Z.eqb_refl. cbn [negb].
    destruct (Z.ltb_spec ((emBits + 7) ÷ 8) (len mHash' + sLen + 2));
      [reflexivity|lia]. }
  rewrite emsaPSSVerify_encoding by (assumption || lia).
  pose proof (len_nonneg salt) as Hs0.
  pose proof (pss_DB_cases (Z.to_nat ((emBits + 7) ÷ 8)) salt sLen
                ltac:(unfold len in *; lia) ltac:(lia) Hs Hne) as Hc.
  cbv zeta in Hc. rewrite Z2Nat.id in Hc by lia.
  rewrite Hc. reflexivity.
Qed.


(** X11.  [emsaPSSVerify] accepts only what [emsaPSSEncode] produces: an [em]
    of [emLen] bytes that it accepts for [mHash] and [sLen >= 0] is the
    encoding of [mHash] with some salt of [sLen] bytes. *)
Theorem emsaPSSVerify_accepts_encodings_only (mHash em : list byte)
    (emBits sLen : Z) :
  len em = (emBits + 7) ÷ 8 -> 0 <= sLen ->
  emsaPSSVerify mHash em emBits sLen hash_New = Ok tt ->
  exists salt,
    len salt = sLen /\ emsaPSSEncode mHash emBits salt hash_New = Ok em.
Proof.
  intros Hlen Hs Hok.
  destruct (emsaPSSVerify_sound mHash em emBits sLen Hlen Hs Hok)
    as (salt & Hsalt & Hm & Hfit & ->).
  exists salt. split; [exact Hsalt|].
  apply emsaPSSEncode_spec; [exact Hm | lia].
Qed.

Lemma emsaPSSEncode_same_salt (m1 m2 s1 s2 em : list byte) (emBits : Z) :
  emsaPSSEncode m1 emBits s1 hash_New = Ok em ->
  emsaPSSEncode m2 emBits s2 hash_New = Ok em ->
  s1 = s2.
Proof.
  intros H1 H2.
  destruct (Z.eq_dec (len s2) (len s1)) as [Hl|Hl].
  - apply emsaPSSEncode_inv in H1, H2.
    destruct H1 as (Hm1 & Hfit1 & E1). destruct H2 as (Hm2 & Hfit2 & E2).
    rewrite E1 in E2. unfold pss_encoding in E2.
    set (emLen := (emBits + 7) ÷ 8) in *.
    pose proof (len_nonneg s1) as Hs1.
    destruct (emBits_bounds emBits ltac:(fold emLen; lia)) as [Hbits Htop].
    fold emLen in Htop.
    rewrite Z2Nat.id in E2 by lia.
    set (k := 8 * emLen - emBits) in *.
    assert (HD1 : length (pss_DB (Z.to_nat emLen) s1) = (Z.to_nat emLen - Size - 1)%nat)
      by (apply pss_DB_length; unfold len in *; lia).
    assert (HD2 : length (pss_DB (Z.to_nat emLen) s2) = (Z.to_nat emLen - Size - 1)%nat)
      by (apply pss_DB_length; unfold len in *; lia).
    rewrite HD1, HD2 in E2.
    apply app_eq_app_length in E2.
    2:{ rewrite !length_clear_top, !length_xor_bytes, !length_mgf1_mask, HD1, HD2.
        reflexivity. }
    destruct E2 as [Edb Etl].
    apply app_eq_app_length in Etl; [|unfold pss_H; rewrite !Sum_length; reflexivity].
    destruct Etl as [Eh _]. rewrite Eh in Edb.
    set (mask := mgf1_mask [] (pss_H m2 s2 hash_New) (Z.to_nat emLen - Size - 1)) in *.
    assert (Hmask : length mask = (Z.to_nat emLen - Size - 1)%nat)
      by apply length_mgf1_mask.
    apply (f_equal (fun l => clear_top k (xor_bytes l mask))) in Edb.
    rewrite !clear_top_twice, !xor_bytes_cancel, !clear_top_pss_DB in Edb by lia.
    unfold pss_DB in Edb.
    replace (length s2) with (length s1) in Edb by (unfold len in Hl; lia).
    apply app_inv_head in Edb. cbn [app] in Edb. congruence.
  - exfalso.
    pose proof (proj2 (emsaPSSVerify_other_digest m2 s2 em emBits H2 m2)) as Hok.
    destruct (emsaPSSEncode_inv _ _ _ _ _ H2) as (Hm2 & _ & _).
    specialize (Hok (conj Hm2 eq_refl)).
    rewrite (emsaPSSVerify_salt_length m1 m2 s1 em emBits (len s2) H1
               (len_nonneg s2) Hl) in Hok.
    discriminate.
Qed.

End Encode_Verify.


Lemma emsaPSSVerify_accepts_encodings_only_witness :
  exists salt,
    len salt = 1
    /\ emsaPSSEncode (HF := toy_hash) toy_digest_ab 34 salt hash_New = Ok toy_em.
Proof.
  apply (emsaPSSVerify_accepts_encodings_only (HF := toy_hash) toy_digest_ab
           toy_em 34 1);
    [vm_compute; reflexivity | lia | vm_compute; reflexivity].
Defined.

(** ** copyWithLeftPad on any destination *)

Lemma SetBytes_zeros (k : nat) (b : list byte) :
  SetBytes (repeat bzero k ++ b) = SetBytes b.
Proof.
  unfold SetBytes. rewrite rev_app_distr, rev_repeat.
  apply le_combine_app_0.
Qed.

Lemma copyWithLeftPad_ok (dest src : list byte) :
  (length src <= length dest)%nat ->
  copyWithLeftPad dest src
  = Ok (repeat bzero (length dest - length src) ++ src).
Proof.
  intros Hl. unfold copyWithLeftPad, len.
  destruct (Z.ltb_spec (Z.of_nat (length dest) - Z.of_nat (length src)) 0);
    [lia|].
  f_equal.
  replace (Z.to_nat (Z.of_nat (length dest) - Z.of_nat (length src)))
    with (length dest - length src)%nat by lia.
  set (n := (length dest - length src)%nat).
  rewrite <- (firstn_skipn n dest) at 1.
  assert (H1 : length (firstn n dest) = n)
    by (rewrite length_firstn; unfold n; lia).
  assert (H2 : length (skipn n dest) = length src)
    by (rewrite length_skipn; unfold n; lia).
  pose proof (store_at [] (firstn n dest) (skipn n dest) (repeat bzero n) 0
                eq_refl ltac:(rewrite repeat_length; lia)) as Hs.
  cbn [app] in Hs. rewrite Hs.
  pose proof (store_at (repeat bzero n) (skipn n dest) [] src (Z.of_nat n)
                ltac:(unfold len; rewrite repeat_length; reflexivity)
                ltac:(lia)) as Hs'.
  rewrite !app_nil_r in Hs'.
  replace (Z.of_nat (length dest) - Z.of_nat (length src)) with (Z.of_nat n)
    by (unfold n; lia).
  exact Hs'.
Qed.

Lemma copyWithLeftPad_panic (dest src : list byte) :
  (length dest < length src)%nat -> copyWithLeftPad dest src = Panic.
Proof.
  intros Hl. unfold copyWithLeftPad, len.
  destruct (Z.ltb_spec (Z.of_nat (length dest) - Z.of_nat (length src)) 0);
    [reflexivity|lia].
Qed.

Lemma copyWithLeftPad_length (dest src out : list byte) :
  copyWithLeftPad dest src = Ok out ->
  length out = length dest /\ SetBytes out = SetBytes src.
Proof.
  intros Hout.
  destruct (Nat.le_gt_cases (length src) (length dest)) as [Hl|Hl].
  - rewrite copyWithLeftPad_ok in Hout by exact Hl. inversion Hout; subst out.
    split; [|apply SetBytes_zeros].
    rewrite length_app, repeat_length. lia.
  - rewrite copyWithLeftPad_panic in Hout by exact Hl. discriminate.
Qed.

(** X12.  [copyWithLeftPad] overwrites all of [dest].  When [src] is not
    longer than [dest] it leaves zero bytes followed by [src], whatever
    [dest] held: the result has the length of [dest] and, read as a
    big-endian integer, the value of [src].  When [src] is longer it
    panics (a negative slice index). *)
Theorem copyWithLeftPad_total (dest src : list byte) :
  ((length src <= length dest)%nat ->
   copyWithLeftPad dest src
   = Ok (repeat bzero (length dest - length src) ++ src))
  /\ ((length dest < length src)%nat -> copyWithLeftPad dest src = Panic)
  /\ (forall out, copyWithLeftPad dest src = Ok out ->
      length out = length dest /\ SetBytes out = SetBytes src).
Proof.
  split; [apply copyWithLeftPad_ok|].
  split; [apply copyWithLeftPad_panic|].
  intros out. apply copyWithLeftPad_length.
Qed.

Lemma copyWithLeftPad_total_witness :
  copyWithLeftPad [Byte.xaa; Byte.xbb; Byte.xcc] [Byte.x01]
  = Ok [Byte.x00; Byte.x00; Byte.x01]
  /\ copyWithLeftPad [Byte.xaa] [Byte.x01; Byte.x02] = Panic.
Proof.
  split.
  - apply (proj1 (copyWithLeftPad_total [Byte.xaa; Byte.xbb; Byte.xcc]
                    [Byte.x01])). simpl. lia.
  - apply (proj1 (proj2 (copyWithLeftPad_total [Byte.xaa]
                           [Byte.x01; Byte.x02]))). simpl. lia.
Defined.

(** ** Errors of SignPSS *)

Lemma make_inv (n : Z) (buf : list byte) :
  make n = Ok buf -> 0 <= n /\ buf = repeat bzero (Z.to_nat n).
Proof.
  unfold make. destruct (Z.ltb_spec n 0) as [|Hn]; [discriminate|].
  intros Hb. inversion Hb. split; [lia|reflexivity].
Qed.

Lemma decrypt_errors (random : option Reader) (priv : PrivateKey) (c : Z)
    (e : error) :
  decrypt random priv c = Err e ->
  (e = ErrDecryption /\ N (Pub priv) < c)
  \/ (e = ErrRandom /\ random <> None /\ c <= N (Pub priv)).
Proof.
  unfold decrypt. destruct (Z.gtb_spec c (N (Pub priv))) as [Hgt|Hle].
  - intros H. inversion H. left. split; [reflexivity|lia].
  - intros Hd. right.
    destruct random as [rd|]; cbn [bind] in Hd.
    + destruct (draw_blind rd (N (Pub priv))) as [[r ir]|e'| |] eqn:Edraw;
        cbn [bind] in Hd; try discriminate.
      * exfalso. unfold big_Mod in Hd.
        destruct (N (Pub priv) =? 0); cbn [bind] in Hd; [discriminate|].
        destruct (decrypt_exp_outcome priv
                    (c * big_Exp r (E (Pub priv)) (N (Pub priv))
                     mod Z.abs (N (Pub priv)))) as [[m Hm]|Hm];
          rewrite Hm in Hd; cbn [bind] in Hd; discriminate.
      * apply draw_blind_error in Edraw. inversion Hd. subst.
        split; [reflexivity|]. split; [discriminate|assumption].
    + exfalso.
      destruct (decrypt_exp_outcome priv c) as [[m Hm]|Hm];
        rewrite Hm in Hd; cbn [bind] in Hd; discriminate.
Qed.

Section Sign_facts.
Context {HF : Hash}.

(** X13.  With [N >= 0], the only errors of [SignPSS] are the two of
    [emsaPSSEncode] (a digest that has not [hLen] bytes; no room for hash
    and salt) and the error of the random source, which needs [rand]
    non-nil.  The range check of [decrypt] never fails there: the encoded
    message is below [2^(bitlen(N) - 1) <= N]. *)
Theorem SignPSS_errors (rand : option Reader) (priv : PrivateKey)
    (hashed salt : list byte) (e : error) :
  0 <= N (Pub priv) ->
  SignPSS rand priv hashed salt = Err e ->
  (e = ErrHashedMessage /\ len hashed <> Z.of_nat Size)
  \/ (e = ErrEncoding /\ len hashed = Z.of_nat Size
      /\ (BitLen (N (Pub priv)) - 1 + 7) ÷ 8 < Z.of_nat Size + len salt + 2)
  \/ (e = ErrRandom /\ rand <> None).
Proof.
  intros HN H. unfold SignPSS in H.
  set (n := N (Pub priv)) in *.
  destruct (Z.eq_dec (len hashed) (Z.of_nat Size)) as [Hm|Hm].
  2:{ rewrite emsaPSSEncode_wrong_digest in H by exact Hm.
      inversion H. auto. }
  destruct (Z.lt_ge_cases ((BitLen n - 1 + 7) ÷ 8)
              (Z.of_nat Size + len salt + 2)) as [Hlt|Hge].
  { rewrite emsaPSSEncode_too_small in H by assumption.
    inversion H. auto. }
  right. right.
  rewrite emsaPSSEncode_spec in H by (assumption || lia). cbn [bind] in H.
  assert (Hem : 0 <= SetBytes (pss_encoding hashed (BitLen n - 1) salt hash_New)
                < 2 ^ (BitLen n - 1))
    by (apply pss_encoding_bound; lia).
  pose proof (len_nonneg salt) as Hs0.
  assert (Hbits : 0 < BitLen n - 1) by (apply emBits_bounds; lia).
  assert (Hn0 : 0 < n).
  { destruct (Z.eq_dec n 0) as [E0|]; [|lia].
    rewrite E0 in Hbits. change (BitLen 0) with 0 in Hbits. lia. }
  pose proof (BitLen_spec n Hn0) as [Hlo _].
  destruct (decrypt rand priv _) as [c|e'| |] eqn:Edec; cbn [bind] in H;
    try discriminate.
  - exfalso. unfold make in H.
    destruct (_ <? 0); cbn [bind] in H; [discriminate|].
    unfold copyWithLeftPad in H.
    destruct (_ <? 0); discriminate.
  - inversion H; subst e'.
    apply decrypt_errors in Edec. fold n in Edec.
    destruct Edec as [[_ Hc]|[-> [Hr _]]]; [lia|auto].
Qed.

End Sign_facts.

Lemma SignPSS_errors_witness :
  (ErrEncoding = ErrHashedMessage
   /\ len toy_digest_ab <> Z.of_nat (@Size toy_hash))
  \/ (ErrEncoding = ErrEncoding /\ len toy_digest_ab = Z.of_nat (@Size toy_hash)
      /\ (BitLen (N (Pub key9)) - 1 + 7) ÷ 8
         < Z.of_nat (@Size toy_hash) + len [Byte.x01; Byte.x02] + 2)
  \/ (ErrEncoding = ErrRandom /\ @None Reader <> None).
Proof.
  apply (SignPSS_errors (HF := toy_hash) None key9 toy_digest_ab
           [Byte.x01; Byte.x02] ErrEncoding).
  - simpl. lia.
  - vm_compute. reflexivity.
Defined.

(** ** Outcomes of VerifyPSS *)

Lemma slice_len (buf r : list byte) (lo hi : Z) :
  slice buf lo hi = Ok r -> len r = hi - lo.
Proof.
  unfold slice.
  destruct (Z.leb_spec 0 lo); cbn [andb]; [|discriminate].
  destruct (Z.leb_spec lo hi); cbn [andb]; [|discriminate].
  destruct (Z.leb_spec hi (len buf)); [|discriminate].
  intros Hr. inversion Hr. unfold len in *.
  rewrite length_firstn, length_skipn. lia.
Qed.

Lemma index_ok (buf : list byte) (i : Z) (x : byte) :
  index buf i = Ok x -> 0 <= i < len buf.
Proof.
  unfold index.
  destruct (Z.leb_spec 0 i); cbn [andb]; [|discriminate].
  destruct (Z.ltb_spec i (len buf)); [|discriminate]. lia.
Qed.

Ltac case_head H :=
  match type of H with
  | bind ?r _ = _ =>
      let E := fresh "E" in destruct r eqn:E; cbn [bind] in H; try discriminate H
  | (if ?c then _ else _) = _ =>
      let E := fresh "E" in destruct c eqn:E; try discriminate H
  end.

Section Verify_total.
Context {HF : Hash}.

Lemma emsaPSSVerify_Ok_nonneg (mHash em : list byte) (emBits sLen : Z)
    (st : hstate) :
  emsaPSSVerify mHash em emBits sLen st = Ok tt -> 0 <= sLen.
Proof.
  unfold emsaPSSVerify. intros H.
  repeat case_head H.
  rewrite mgf1XOR_spec in H.
  repeat case_head H.
  repeat match goal with
  | E : slice _ _ _ = Ok _ |- _ => apply slice_len in E
  | E : index _ _ = Ok _ |- _ => apply index_ok in E
  end.
  lia.
Qed.

Lemma VerifyPSS_unfold (pub : PublicKey) (hashed sig : list byte) (sLen : Z) :
  let m := encrypt pub (SetBytes sig) in
  let emBits := BitLen (N pub) - 1 in
  let emLen := (emBits + 7) ÷ 8 in
  0 <= emLen
  /\ (emLen < len (Bytes m) ->
      VerifyPSS pub hashed sig sLen = Err ErrVerification)
  /\ (len (Bytes m) <= emLen ->
      len (leftpad (Z.to_nat emLen) (Bytes m)) = emLen
      /\ VerifyPSS pub hashed sig sLen
         = emsaPSSVerify hashed (leftpad (Z.to_nat emLen) (Bytes m))
                         emBits sLen hash_New).
Proof.
  intros m emBits emLen.
  assert (HemLen : 0 <= emLen).
  { apply Z.quot_pos; [|lia]. pose proof (BitLen_nonneg (N pub)).
    unfold emBits. lia. }
  split; [exact HemLen|]. split.
  - intros Hlt. unfold VerifyPSS. fold m. fold emBits. fold emLen.
    destruct (Z.ltb_spec emLen (len (Bytes m))); [reflexivity|lia].
  - intros Hle. split.
    + unfold leftpad, len in *. rewrite length_app, repeat_length. lia.
    + unfold VerifyPSS. fold m. fold emBits. fold emLen.
      destruct (Z.ltb_spec emLen (len (Bytes m))); [lia|].
      rewrite make_ok by lia. cbn [bind].
      rewrite copyWithLeftPad_spec by (unfold len in *; lia).
      reflexivity.
Qed.


(** X15.  [VerifyPSS] reads the signature as an integer and does not check
    its length: leading zero bytes do not change the outcome, and for
    [N > 0] two signatures that are equal modulo [N] have the same outcome. *)
Theorem VerifyPSS_signature_encoding (pub : PublicKey) (hashed sig : list byte)
    (sLen : Z) :
  (forall k, VerifyPSS pub hashed (repeat bzero k ++ sig) sLen
             = VerifyPSS pub hashed sig sLen)
  /\ (forall sig',
      0 < N pub -> SetBytes sig' mod N pub = SetBytes sig mod N pub ->
      VerifyPSS pub hashed sig' sLen = VerifyPSS pub hashed sig sLen).
Proof.
  split.
  - intros k. unfold VerifyPSS. rewrite SetBytes_zeros. reflexivity.
  - intros sig' HN Hres. apply VerifyPSS_residue; assumption.
Qed.

End Verify_total.

Lemma SetBytes_Bytes (x : Z) : 0 <= x -> SetBytes (Bytes x) = x.
Proof.
  intros Hx.
  pose proof (SetBytes_leftpad (byte_count x) x
                (conj Hx (byte_count_bound x Hx))) as Hl.
  unfold leftpad in Hl. rewrite length_Bytes, Nat.sub_diag in Hl.
  exact Hl.
Qed.

Section Verify_sound.
Context {HF : Hash}.

(** X16.  With a valid key, a signature that [VerifyPSS] accepts is, modulo
    [N], one that [SignPSS] returns for the same digest and some salt of
    [sLen] bytes. *)
Theorem VerifyPSS_sound (priv : PrivateKey) (hashed sig : list byte) (sLen : Z) :
  valid_key priv = true -> precomputed_ok priv = true ->
  VerifyPSS (Pub priv) hashed sig sLen = Ok tt ->
  exists salt sg,
    len salt = sLen
    /\ SignPSS None priv hashed salt = Ok sg
    /\ SetBytes sg = SetBytes sig mod N (Pub priv).
Proof.
  intros Hv Hpc Hok.
  pose proof (valid_key_N priv Hv) as HN.
  destruct (valid_key_facts priv Hv) as (_ & _ & _ & _ & He & Hd & _).
  destruct (VerifyPSS_unfold (Pub priv) hashed sig sLen)
    as (HemLen & Hlong & Hshort).
  cbv zeta in *.
  set (n := N (Pub priv)) in *.
  set (s := SetBytes sig) in *.
  rewrite (encrypt_valid priv s Hv) in *. fold n in Hlong, Hshort.
  set (m := s ^ E (Pub priv) mod n) in *.
  assert (Hm : 0 <= m < n) by (apply Z.mod_pos_bound; lia).
  set (emLen := (BitLen n - 1 + 7) ÷ 8) in *.
  destruct (Z.lt_ge_cases emLen (len (Bytes m))) as [Hlt|Hge].
  { rewrite (Hlong Hlt) in Hok. discriminate. }
  destruct (Hshort Hge) as [Hlen Heq]. rewrite Heq in Hok.
  pose proof (emsaPSSVerify_Ok_nonneg _ _ _ _ _ Hok) as Hs.
  destruct (emsaPSSVerify_sound hashed _ (BitLen n - 1) sLen Hlen Hs Hok)
    as (salt & Hsalt & Hh & Hfit & Hem).
  fold emLen in Hfit.
  assert (Hq : emLen = (BitLen n - 1 + 7) / 8).
  { apply Z.quot_div_nonneg; [|lia]. pose proof (BitLen_nonneg n).
    destruct (Z.eq_dec (BitLen n) 0) as [E0|]; [|lia].
    unfold emLen in Hfit. rewrite E0 in Hfit. change ((0 - 1 + 7) ÷ 8) with 0 in Hfit.
    lia. }
  destruct (SignPSS_spec None priv hashed salt Hv Hpc Hh
              ltac:(fold n; lia)) as ([Hsign|[Hnone _]] & Hval & _ & _);
    [|congruence].
  cbv zeta in Hsign, Hval. fold n in Hsign, Hval.
  eexists salt, _. split; [exact Hsalt|]. split; [exact Hsign|].
  rewrite Hval, <- Hem.
  unfold leftpad. rewrite SetBytes_zeros, SetBytes_Bytes by lia.
  unfold m. rewrite Z.mod_pow_l, <- Z.pow_mul_r by lia.
  apply rsa_identity. exact Hv.
Qed.

End Verify_sound.


Lemma VerifyPSS_signature_encoding_witness :
  VerifyPSS (HF := toy_hash) key9_pub toy_digest_ab
    [Byte.x09; Byte.x30; Byte.xf3; Byte.x13; Byte.x61] 1
  = VerifyPSS (HF := toy_hash) key9_pub toy_digest_ab
      [Byte.x04; Byte.x8b; Byte.x35; Byte.x79; Byte.x36] 1.
Proof.
  apply (proj2 (VerifyPSS_signature_encoding (HF := toy_hash) key9_pub
                  toy_digest_ab
                  [Byte.x04; Byte.x8b; Byte.x35; Byte.x79; Byte.x36] 1)).
  - simpl. lia.
  - vm_compute. reflexivity.
Defined.

Lemma VerifyPSS_sound_witness :
  exists salt sg,
    len salt = 1
    /\ SignPSS (HF := toy_hash) None key9_crt toy_digest_ab salt = Ok sg
    /\ SetBytes sg
       = SetBytes [Byte.x09; Byte.x30; Byte.xf3; Byte.x13; Byte.x61]
         mod N (Pub key9_crt).
Proof.
  apply (VerifyPSS_sound (HF := toy_hash) key9_crt toy_digest_ab
           [Byte.x09; Byte.x30; Byte.xf3; Byte.x13; Byte.x61] 1);
    vm_compute; reflexivity.
Defined.

(** ** What a signature is bound to *)

Section Signature_binding.
Context {HF : Hash}.

(** What a signature returned by [SignPSS] is made of. *)
Lemma SignPSS_inv (rand : option Reader) (priv : PrivateKey)
    (hashed salt sg : list byte) :
  valid_key priv = true -> precomputed_ok priv = true ->
  SignPSS rand priv hashed salt = Ok sg ->
  let n := N (Pub priv) in
  let emBits := BitLen n - 1 in
  let em := pss_encoding hashed emBits salt hash_New in
  emsaPSSEncode hashed emBits salt hash_New = Ok em
  /\ SetBytes sg = SetBytes em ^ D priv mod n
  /\ 0 <= SetBytes em < n
  /\ len em = (emBits + 7) ÷ 8
  /\ SetBytes sg ^ E (Pub priv) mod n = SetBytes em.
Proof.
  intros Hv Hpc Hsign n emBits em.
  pose proof (valid_key_N priv Hv) as HN. fold n in HN.
  destruct (valid_key_facts priv Hv) as (_ & _ & _ & _ & He & Hd & _).
  assert (Henc : exists em, emsaPSSEncode hashed emBits salt hash_New = Ok em).
  { unfold SignPSS in Hsign. fold n in Hsign. fold emBits in Hsign.
    destruct (emsaPSSEncode hashed emBits salt hash_New) as [em0| | |];
      cbn [bind] in Hsign; try discriminate. eauto. }
  destruct Henc as [em0 Henc].
  destruct (emsaPSSEncode_inv _ _ _ _ _ Henc) as (Hh & Hfit & Eem).
  fold em in Eem. subst em0.
  pose proof (BitLen_nonneg n) as Hbl.
  pose proof (len_nonneg salt) as Hs0.
  assert (Hq : (emBits + 7) ÷ 8 = (emBits + 7) / 8).
  { apply Z.quot_div_nonneg; [|lia].
    destruct (emBits_bounds emBits ltac:(lia)). lia. }
  destruct (SignPSS_spec rand priv hashed salt Hv Hpc Hh
              ltac:(fold n; fold emBits; lia))
    as ([Hsg|[_ Herr]] & Hval & Hem & Hlen); [|congruence].
  cbv zeta in Hsg, Hval, Hem, Hlen. fold n in Hsg, Hval, Hem, Hlen.
  fold emBits in Hsg, Hval, Hem, Hlen. fold em in Hsg, Hval, Hem, Hlen.
  rewrite Hsign in Hsg.
  assert (Esg : sg = leftpad (byte_count n) (Bytes (SetBytes em ^ D priv mod n)))
    by congruence.
  rewrite <- Esg in Hval.
  split; [exact Henc|]. split; [exact Hval|]. split; [exact Hem|].
  split; [exact Hlen|].
  rewrite Hval, Z.mod_pow_l, <- Z.pow_mul_r by lia.
  rewrite (Z.mul_comm (D priv)).
  pose proof (rsa_identity priv (SetBytes em) Hv) as Hid. fold n in Hid.
  rewrite Hid. apply Z.mod_small. exact Hem.
Qed.

(** Verifying a signature made by [SignPSS] is verifying the encoded
    message it was made from. *)
Lemma VerifyPSS_of_SignPSS (rand : option Reader) (priv : PrivateKey)
    (hashed hashed' salt sg : list byte) (sLen : Z) :
  valid_key priv = true -> precomputed_ok priv = true ->
  SignPSS rand priv hashed salt = Ok sg ->
  let emBits := BitLen (N (Pub priv)) - 1 in
  emsaPSSEncode hashed emBits salt hash_New
  = Ok (pss_encoding hashed emBits salt hash_New)
  /\ pss_encoding hashed emBits salt hash_New
     = leftpad (Z.to_nat ((emBits + 7) ÷ 8))
               (Bytes (encrypt (Pub priv) (SetBytes sg)))
  /\ VerifyPSS (Pub priv) hashed' sg sLen
     = emsaPSSVerify hashed' (pss_encoding hashed emBits salt hash_New)
                     emBits sLen hash_New.
Proof.
  intros Hv Hpc Hsign emBits.
  destruct (SignPSS_inv rand priv hashed salt sg Hv Hpc Hsign)
    as (Henc & Hval & Hem & Hlen & Hm).
  cbv zeta in Henc, Hval, Hem, Hlen, Hm.
  set (n := N (Pub priv)) in *. fold emBits in Henc, Hval, Hem, Hlen, Hm.
  set (em := pss_encoding hashed emBits salt hash_New) in *.
  assert (Hpad : em = leftpad (Z.to_nat ((emBits + 7) ÷ 8))
                        (Bytes (encrypt (Pub priv) (SetBytes sg)))).
  { rewrite (encrypt_valid priv _ Hv). fold n. rewrite Hm.
    replace (Z.to_nat ((emBits + 7) ÷ 8)) with (length em)
      by (unfold len in *; lia).
    symmetry. apply leftpad_SetBytes. }
  split; [exact Henc|]. split; [exact Hpad|].
  destruct (VerifyPSS_unfold (Pub priv) hashed' sg sLen)
    as (HemLen & _ & Hshort).
  cbv zeta in HemLen, Hshort. fold n in HemLen, Hshort.
  fold emBits in HemLen, Hshort.
  destruct Hshort as [_ Heq].
  { rewrite (encrypt_valid priv _ Hv). fold n. rewrite Hm.
    assert (Hbc : (byte_count (SetBytes em) <= length em)%nat).
    { apply byte_count_le. pose proof (SetBytes_bound em).
      unfold len in *. lia. }
    unfold len in *. rewrite length_Bytes. lia. }
  rewrite Heq, <- Hpad. reflexivity.
Qed.


(** X18.  A signature returned by [SignPSS] has [(bitlen(N) + 7) / 8] bytes,
    the length of the modulus, whatever the key and the random source;
    with a valid key its value is below [N]. *)
Theorem SignPSS_length (rand : option Reader) (priv : PrivateKey)
    (hashed salt sg : list byte) :
  SignPSS rand priv hashed salt = Ok sg ->
  len sg = (BitLen (N (Pub priv)) + 7) ÷ 8
  /\ (valid_key priv = true -> precomputed_ok priv = true ->
      0 <= SetBytes sg < N (Pub priv)).
Proof.
  intros Hsign. split.
  - unfold SignPSS in Hsign.
    destruct (emsaPSSEncode _ _ _ _) as [em| | |]; cbn [bind] in Hsign;
      try discriminate.
    destruct (decrypt _ _ _) as [c| | |]; cbn [bind] in Hsign;
      try discriminate.
    destruct (make _) as [s| | |] eqn:Es; cbn [bind] in Hsign;
      try discriminate.
    apply make_inv in Es. destruct Es as [Hn ->].
    apply copyWithLeftPad_length in Hsign.
    destruct Hsign as [Hl _]. unfold len. rewrite Hl, repeat_length. lia.
  - intros Hv Hpc.
    destruct (SignPSS_inv rand priv hashed salt sg Hv Hpc Hsign)
      as (_ & Hval & _).
    rewrite Hval. apply Z.mod_pos_bound.
    pose proof (valid_key_N priv Hv). lia.
Qed.

(** X19.  The salt is determined by the encoded message and by the
    signature: two calls of [emsaPSSEncode] that return the same message,
    or, with a valid key, two calls of [SignPSS] that return the same
    signature, were given the same salt, even for different digests. *)
Theorem salt_recoverable :
  (forall emBits m1 m2 s1 s2 em,
     emsaPSSEncode m1 emBits s1 hash_New = Ok em ->
     emsaPSSEncode m2 emBits s2 hash_New = Ok em ->
     s1 = s2)
  /\ (forall priv rand1 rand2 h1 h2 s1 s2 sg,
      valid_key priv = true -> precomputed_ok priv = true ->
      SignPSS rand1 priv h1 s1 = Ok sg ->
      SignPSS rand2 priv h2 s2 = Ok sg ->
      s1 = s2).
Proof.
  split.
  - intros emBits m1 m2 s1 s2 em. apply emsaPSSEncode_same_salt.
  - intros priv rand1 rand2 h1 h2 s1 s2 sg Hv Hpc H1 H2.
    destruct (VerifyPSS_of_SignPSS rand1 priv h1 h1 s1 sg 0 Hv Hpc H1)
      as (Henc1 & Hpad1 & _).
    destruct (VerifyPSS_of_SignPSS rand2 priv h2 h2 s2 sg 0 Hv Hpc H2)
      as (Henc2 & Hpad2 & _).
    cbv zeta in *. rewrite Hpad1 in Henc1. rewrite Hpad2 in Henc2.
    exact (emsaPSSEncode_same_salt h1 h2 s1 s2 _ _ Henc1 Henc2).
Qed.

End Signature_binding.


Lemma SignPSS_length_witness :
  len [Byte.x04; Byte.x8b; Byte.x35; Byte.x79; Byte.x36]
  = (BitLen (N (Pub key9)) + 7) ÷ 8
  /\ (valid_key key9 = true -> precomputed_ok key9 = true ->
      0 <= SetBytes [Byte.x04; Byte.x8b; Byte.x35; Byte.x79; Byte.x36]
        < N (Pub key9)).
Proof.
  apply (SignPSS_length (HF := toy_hash) None key9 toy_digest_ab toy_salt).
  vm_compute. reflexivity.
Defined.

Lemma salt_recoverable_witness : toy_salt = toy_salt.
Proof.
  apply (proj2 (salt_recoverable (HF := toy_hash)) key9_crt None
           (Some [12345; 1000003]) toy_digest_ab toy_digest_ab toy_salt toy_salt
           [Byte.x04; Byte.x8b; Byte.x35; Byte.x79; Byte.x36]);
    vm_compute; reflexivity.
Defined.

(** ** emsaPSSVerify over the store *)



Section Store_at.
Variables (hp : heap) (a : nat) (buf : list byte).
Hypothesis Ha : (a < length hp)%nat.






End Store_at.






Section Heap_verify_facts.
Context {HF : Hash}.




End Heap_verify_facts.

